(** * Alias File Name History: the rename-debouncing and alias-merging core

    A shallow embedding of the plugin's TypeScript sources:

    - [src/utils/path-utils.ts]      ([getBasename], [getImmediateParentName]),
    - [src/main.ts]                  ([isPathInFolder], [handleRename], [onunload]),
    - [src/utils/alias-processor.ts] ([processAliases]),
    - [src/ui/settings-tab.ts]       (the [onChange] handlers of the list settings).

    [handleRename] is embedded in two revisions. The first, module
    [Accumulate], is [src/main.ts] with the boolean folder-tracking switch:
    it looks for a pending entry under the old path and adds every candidate
    to its queue. The second, module [StableName], is the later revision of
    the same file: it looks under the new path and then under the old one,
    keeps the first queued name through a chain of renames, and tracks
    folder renames for one file name. The gates of the earlier revisions,
    the single-file plugin and its first split into modules, are in module
    [Legacy].

    Strings are sequences of code units. The built-ins of the JavaScript
    engine that the sources call ([RegExp], [toLowerCase]) are parameters
    of the development (class [Host]). The entries of the debounce map are
    objects shared between the map and the callbacks of the timeouts, so the
    state keeps them in a heap. A settlement ([processAliases] with its
    front-matter callback) is taken as one step, as the host runs the
    callback in a transaction. *)

From Stdlib Require Import String Ascii List Bool Arith Lia.
From stdpp Require Import base option gmap strings list fin_maps.

(** ** JavaScript string primitives *)

Module Js.

(** [s.startsWith(p)] *)
Definition startsWith (s p : string) : bool := String.prefix p s.

(** [s.includes(p)] *)
Fixpoint includes (s p : string) : bool :=
  String.prefix p s ||
  match s with
  | EmptyString => false
  | String _ s' => includes s' p
  end.

(** [s.split(sep)] for a one-character separator: never the empty array. *)
Fixpoint split (sep : ascii) (s : string) : list string :=
  match s with
  | EmptyString => [EmptyString]
  | String c s' =>
      if Ascii.eqb c sep then EmptyString :: split sep s'
      else match split sep s' with
           | seg :: segs => String c seg :: segs
           | [] => [String c EmptyString]
           end
  end.

(** [arr.pop()]: the last element ([None] for [undefined]) and the array
    that is left. *)
Fixpoint pop (arr : list string) : option string * list string :=
  match arr with
  | [] => (None, [])
  | [x] => (Some x, [])
  | x :: rest => let '(r, rest') := pop rest in (r, x :: rest')
  end.

(** [v || ''] for a string-or-undefined [v]: the empty string is falsy too. *)
Definition orEmpty (v : option string) : string :=
  match v with
  | Some s => s
  | None => EmptyString
  end.

(** Truthiness of a string: [s] is truthy iff it is not empty. *)
Definition truthy (s : string) : bool :=
  match s with
  | EmptyString => false
  | String _ _ => true
  end.

(** White space of [String.prototype.trim] among the code units below 256. *)
Definition isWhiteSpace (c : ascii) : bool :=
  let n := nat_of_ascii c in
  existsb (Nat.eqb n) [9; 10; 11; 12; 13; 32; 160]%nat.

(** [s.trim() !== ''] *)
Fixpoint trimNonEmpty (s : string) : bool :=
  match s with
  | EmptyString => false
  | String c s' => negb (isWhiteSpace c) || trimNonEmpty s'
  end.

End Js.

(** ** src/utils/path-utils.ts *)

(** The character class [[^/.]]. *)
Definition notSlashDot (c : ascii) : bool :=
  negb (Ascii.eqb c "/") && negb (Ascii.eqb c ".").

(** [[^/.]+$] matched against the whole of [s]. *)
Fixpoint allNotSlashDot (s : string) : bool :=
  match s with
  | EmptyString => true
  | String c s' => notSlashDot c && allNotSlashDot s'
  end.

Definition matchesExtTail (s : string) : bool :=
  Js.truthy s && allNotSlashDot s.

(** [name.replace(/\.[^/.]+$/, '')]: the pattern is tried at each position
    from the left; the first position where it matches is cut off. *)
Fixpoint replaceExtension (name : string) : string :=
  match name with
  | EmptyString => EmptyString
  | String c rest =>
      if Ascii.eqb c "." && matchesExtTail rest then EmptyString
      else String c (replaceExtension rest)
  end.

Definition getBasename (path : string) : string :=
  let name := Js.orEmpty (fst (Js.pop (Js.split "/" path))) in
  replaceExtension name.

Definition getImmediateParentName (path : string) : string :=
  let parts := Js.split "/" path in
  let parts := snd (Js.pop parts) in
  Js.orEmpty (fst (Js.pop parts)).

(** ** src/main.ts: the scope predicate *)

(** [folder.replace(/\{vault\}|\{root\}/g, '')]: one pass from the left, a
    matched token is skipped and scanning resumes after it. [skip] counts
    the characters of a matched token still to be dropped. *)
Fixpoint stripRootTokens (skip : nat) (folder : string) : string :=
  match folder with
  | EmptyString => EmptyString
  | String c rest =>
      match skip with
      | S k => stripRootTokens k rest
      | O =>
          if String.prefix "{vault}" folder then stripRootTokens 6 rest
          else if String.prefix "{root}" folder then stripRootTokens 5 rest
          else String c (stripRootTokens 0 rest)
      end
  end.

Definition isPathInFolder (path folder : string) : bool :=
  if Js.includes folder "{vault}" || Js.includes folder "{root}" then
    let resolvedFolder := stripRootTokens 0 folder in
    if String.eqb resolvedFolder "" || String.eqb resolvedFolder "/" then
      let isVaultRoot := negb (Js.includes path "/") in
      isVaultRoot
    else
      Js.startsWith path (resolvedFolder +:+ "/") || String.eqb path resolvedFolder
  else
    Js.startsWith path (folder +:+ "/") || String.eqb path folder.

(** ** Host built-ins

    [RegExp] and [toLowerCase] belong to the JavaScript engine, not to the
    plugin. [newRegExp src] is [new RegExp(src)], [None] when the constructor
    throws; [test re s] is [re.test(s)], a pure function here because the
    plugin never passes flags, so no pattern carries a [lastIndex]. *)

Class Host := {
  RegExp : Type;
  newRegExp : string -> option RegExp;
  test : RegExp -> string -> bool;
  toLowerCase : string -> string;
}.

(** A small host for the worked examples: a pattern made of letters, digits,
    [_], [-] and spaces is compiled to itself and matches where it occurs as
    a substring, any other source text is refused; [toLowerCase] maps the
    letters [A]..[Z]. *)
Definition plainChar (c : ascii) : bool :=
  let n := nat_of_ascii c in
  (Nat.leb 48 n && Nat.leb n 57) || (Nat.leb 65 n && Nat.leb n 90) ||
  (Nat.leb 97 n && Nat.leb n 122) || Nat.eqb n 95 || Nat.eqb n 45 || Nat.eqb n 32.

Fixpoint allPlain (s : string) : bool :=
  match s with
  | EmptyString => true
  | String c s' => plainChar c && allPlain s'
  end.

Definition lowerAscii (c : ascii) : ascii :=
  let n := nat_of_ascii c in
  if Nat.leb 65 n && Nat.leb n 90 then ascii_of_nat (n + 32) else c.

Fixpoint lowerString (s : string) : string :=
  match s with
  | EmptyString => EmptyString
  | String c s' => String (lowerAscii c) (lowerString s')
  end.

Definition exampleHost : Host := {|
  RegExp := string;
  newRegExp := fun src => if allPlain src then Some src else None;
  test := fun re s => Js.includes s re;
  toLowerCase := lowerString;
|}.

(** ** Host objects and settings *)

Record TFile := {
  path : string;
  basename : string;
  extension : string;
}.

(** A [TAbstractFile] is a [TFile] or a folder. *)
Inductive TAbstractFile :=
  | File (f : TFile)
  | Folder (folderPath : string).

(** [AliasFilenameHistorySettings], as the interface is declared in the
    single-file revision of [main.ts]. The field [trackFolderRenames] is a
    boolean in the first revision of [handleRename] and a file name in the
    second, hence the parameter [T]. *)
Record Settings {T : Type} := {
  ignoreRegexes : list string;
  timeoutSeconds : nat;
  caseSensitive : bool;
  autoCreateFrontmatter : bool;
  includeFolders : list string;
  excludeFolders : list string;
  fileExtensions : list string;
  trackFolderRenames : T;
}.
Arguments Settings : clear implicits.

(** The value found under the [aliases] key of a file's front matter:
    nothing, something that is not an array, or an array of strings. *)
Inductive AliasesValue :=
  | Missing
  | NotArray (v : string)
  | AliasArray (l : list string).

Record FrontMatter := {
  aliases : AliasesValue;
  otherKeys : list (string * string);
}.

(** What the vault keeps for the file at a path. *)
Record Note := {
  noteBasename : string;
  noteExtension : string;
  frontmatter : FrontMatter;
}.

(** [app.vault.getFileByPath(p)] *)
Definition getFileByPath (vault : gmap string Note) (p : string) : option TFile :=
  (fun n => {| path := p; basename := noteBasename n; extension := noteExtension n |})
    <$> vault !! p.

(** ** src/utils/alias-processor.ts *)

(** The [try { regexes.push(new RegExp(regexStr)) } catch] loop: sources
    that do not compile are left out. *)
Definition compileRegexes `{Host} (sources : list string) : list RegExp :=
  omap newRegExp sources.

(** [regexes.some(re => re.test(name))] *)
Definition matchesAny `{Host} (regexes : list RegExp) (name : string) : bool :=
  existsb (fun re => test re name) regexes.

(** The loop that fills [toAdd]. *)
Definition survives `{Host} {T} (st : Settings T) (regexes : list RegExp)
    (currentBasename name : string) : bool :=
  if matchesAny regexes name then false
  else if (caseSensitive st && String.eqb name currentBasename) ||
          (negb (caseSensitive st) &&
           String.eqb (toLowerCase name) (toLowerCase currentBasename))
  then false
  else true.

Definition toAdd `{Host} {T} (st : Settings T) (currentBasename : string)
    (queue : list string) : list string :=
  let regexes := compileRegexes (ignoreRegexes st) in
  List.filter (survives st regexes currentBasename) queue.

(** [checkName] *)
Definition checkName `{Host} {T} (st : Settings T) (name : string) : string :=
  if caseSensitive st then name else toLowerCase name.

(** The loop over [toAdd] inside the front-matter callback, threading the
    array [aliases] and the set [existing]. *)
Fixpoint pushNew `{Host} {T} (st : Settings T) (names : list string)
    (aliasList : list string) (existing : gset string) : list string :=
  match names with
  | [] => aliasList
  | name :: rest =>
      if decide (checkName st name ∈ existing) then pushNew st rest aliasList existing
      else pushNew st rest (aliasList ++ [name]) ({[checkName st name]} ∪ existing)
  end.

(** The callback handed to [processFrontMatter]. *)
Definition updateAliases `{Host} {T} (st : Settings T) (names : list string)
    (fm : FrontMatter) : FrontMatter :=
  match aliases fm with
  | AliasArray l =>
      let existing : gset string := list_to_set (checkName st <$> l) in
      {| aliases := AliasArray (pushNew st names l existing);
         otherKeys := otherKeys fm |}
  | _ =>
      if negb (autoCreateFrontmatter st) then fm
      else {| aliases := AliasArray (pushNew st names [] ∅);
              otherKeys := otherKeys fm |}
  end.

(** [app.fileManager.processFrontMatter(file, fn)]: the host applies [fn] to
    the front matter of the file in one transaction. *)
Definition processFrontMatter (vault : gmap string Note) (f : TFile)
    (fn : FrontMatter -> FrontMatter) : gmap string Note :=
  alter (fun n => {| noteBasename := noteBasename n; noteExtension := noteExtension n;
                     frontmatter := fn (frontmatter n) |}) (path f) vault.

(** [processAliases(path, queue)] on the vault of the host; the result is
    the vault after the call. *)
Definition processAliases `{Host} {T} (st : Settings T) (vault : gmap string Note)
    (p : string) (queue : list string) : gmap string Note :=
  match getFileByPath vault p with
  | None => vault
  | Some f =>
      let names := toAdd st (basename f) queue in
      match names with
      | [] => vault
      | _ => processFrontMatter vault f (updateAliases st names)
      end
  end.

(** ** src/main.ts: the debounce coordinator *)

(** An entry of [debounceMap]. [queue] is a [Set<string>] in insertion order;
    [timeoutId] is [None] for "no timer" ([null] in the first revision, [0]
    in the second). *)
Record Entry := {
  queue : list string;
  timeoutId : option nat;
  currentPath : string;
}.

(** [queue.add(name)] *)
Definition setAdd (name : string) (q : list string) : list string :=
  if bool_decide (name ∈ q) then q else q ++ [name].

(** The plugin and the part of the host it talks to. Entries are objects:
    [heap] holds them by address, [debounceMap] and the callbacks of the
    armed timeouts in [timers] refer to them by address. [settled] records
    the calls of [processAliases], oldest first. *)
Record State {T : Type} := {
  settings : Settings T;
  vault : gmap string Note;
  heap : gmap nat Entry;
  debounceMap : gmap string nat;
  timers : gmap nat nat;
  nextTimer : nat;
  nextEntry : nat;
  settled : list (string * list string);
}.
Arguments State : clear implicits.

Definition initialState {T} (st : Settings T) (v : gmap string Note) : State T := {|
  settings := st; vault := v; heap := ∅; debounceMap := ∅; timers := ∅;
  nextTimer := 1; nextEntry := 0; settled := [];
|}.

(** [clearTimeout(id)] *)
Definition clearTimeout (id : option nat) (ts : gmap nat nat) : gmap nat nat :=
  match id with
  | Some t => delete t ts
  | None => ts
  end.

(** The callback of a timeout, run when timeout [t] expires:
    [processAliases(entry.currentPath, entry.queue)] and then
    [debounceMap.delete(entry.currentPath)]. A handle that is not armed
    (cleared, or already run) does nothing. *)
Definition onTimeout `{Host} {T} (t : nat) (s : State T) : State T :=
  match timers s !! t with
  | None => s
  | Some a =>
      match heap s !! a with
      | None => s
      | Some entry =>
          {| settings := settings s;
             vault := processAliases (settings s) (vault s) (currentPath entry) (queue entry);
             heap := heap s;
             debounceMap := delete (currentPath entry) (debounceMap s);
             timers := delete t (timers s);
             nextTimer := nextTimer s;
             nextEntry := nextEntry s;
             settled := settled s ++ [(currentPath entry, queue entry)] |}
      end
  end.

(** [onunload()]: every timeout is cleared and the map emptied. *)
Definition onunload {T} (s : State T) : State T :=
  {| settings := settings s; vault := vault s; heap := heap s;
     debounceMap := ∅;
     timers := map_fold (fun _ a ts =>
                 match heap s !! a with
                 | Some entry => clearTimeout (timeoutId entry) ts
                 | None => ts
                 end) (timers s) (debounceMap s);
     nextTimer := nextTimer s; nextEntry := nextEntry s; settled := settled s |}.

(** The classification at the head of [handleRename], the same in both
    revisions. *)
Definition isNameChange `{Host} {T} (st : Settings T) (newFile : TFile)
    (oldPath : string) : bool :=
  let oldBasename := getBasename oldPath in
  let newBasename := basename newFile in
  if caseSensitive st then negb (String.eqb oldBasename newBasename)
  else negb (String.eqb (toLowerCase oldBasename) (toLowerCase newBasename)).

Definition isFolderChange `{Host} {T} (st : Settings T) (newFile : TFile)
    (oldPath : string) : bool :=
  let oldImmediateParentName := getImmediateParentName oldPath in
  let newImmediateParentName := getImmediateParentName (path newFile) in
  negb (String.eqb oldImmediateParentName newImmediateParentName) &&
  negb (isNameChange st newFile oldPath).

(** [fileExtensions.includes(ext)] *)
Definition includesString (l : list string) (x : string) : bool :=
  existsb (String.eqb x) l.

(** The include and exclude checks of [handleRename]: [true] when the
    handler returns because of them. *)
Definition outOfScope {T} (st : Settings T) (p : string) : bool :=
  (negb (Nat.eqb (length (includeFolders st)) 0) &&
   negb (existsb (fun f => isPathInFolder p f) (includeFolders st))) ||
  existsb (fun f => isPathInFolder p f) (excludeFolders st).

(** [regexes.some(re => re.test(a) || re.test(b))] *)
Definition eitherMatches `{Host} (regexes : list RegExp) (a b : string) : bool :=
  existsb (fun re => test re a || test re b) regexes.

(** [if (!toQueue) return;] on a candidate that was assigned. *)
Definition truthyCandidate (c : string) : option string :=
  if Js.truthy c then Some c else None.

(** *** First revision of [handleRename] (src/main.ts): every candidate is
    added to the queue of the entry found under [oldPath]. *)

Module Accumulate.

(** [handleRename] up to [if (!toQueue) return;]: [None] when the handler
    returns before it touches the map, [Some toQueue] otherwise. *)
Definition classify `{Host} (st : Settings bool) (newFile : TFile)
    (oldPath : string) : option string :=
  if negb (includesString (fileExtensions st) (extension newFile)) then None else
  let oldBasename := getBasename oldPath in
  let newBasename := basename newFile in
  let oldImmediateParentName := getImmediateParentName oldPath in
  let newImmediateParentName := getImmediateParentName (path newFile) in
  let nameChange := isNameChange st newFile oldPath in
  let folderChange := isFolderChange st newFile oldPath in
  if negb nameChange && negb folderChange then None else
  if nameChange && outOfScope st (path newFile) then None else
  let regexes := compileRegexes (ignoreRegexes st) in
  if nameChange then
    if eitherMatches regexes oldBasename newBasename then None
    else truthyCandidate oldBasename
  else if folderChange && trackFolderRenames st then
    if String.eqb oldImmediateParentName "" || String.eqb newImmediateParentName "" then None
    else if eitherMatches regexes oldImmediateParentName newImmediateParentName then None
    else truthyCandidate oldImmediateParentName
  else None.

(** The rest of [handleRename]: the entry under [oldPath] is taken out of
    the map and reused, or a new one is made; the candidate is added, the
    timeout of the entry is cleared and a new one armed, and the entry is
    stored under [newPath]. *)
Definition enqueue {T} (s : State T) (oldPath newPath toQueue : string) : State T :=
  let t := nextTimer s in
  match debounceMap s !! oldPath with
  | Some a =>
      match heap s !! a with
      | Some existingEntry =>
          {| settings := settings s; vault := vault s;
             heap := <[a := {| queue := setAdd toQueue (queue existingEntry);
                               timeoutId := Some t;
                               currentPath := newPath |}]> (heap s);
             debounceMap := <[newPath := a]> (delete oldPath (debounceMap s));
             timers := <[t := a]> (clearTimeout (timeoutId existingEntry) (timers s));
             nextTimer := S t; nextEntry := nextEntry s; settled := settled s |}
      | None => s
      end
  | None =>
      let a := nextEntry s in
      {| settings := settings s; vault := vault s;
         heap := <[a := {| queue := setAdd toQueue [];
                           timeoutId := Some t;
                           currentPath := newPath |}]> (heap s);
         debounceMap := <[newPath := a]> (debounceMap s);
         timers := <[t := a]> (timers s);
         nextTimer := S t; nextEntry := S a; settled := settled s |}
  end.

Definition handleRename `{Host} (s : State bool) (newFile : TAbstractFile)
    (oldPath : string) : State bool :=
  match newFile with
  | Folder _ => s
  | File f =>
      match classify (settings s) f oldPath with
      | None => s
      | Some toQueue => enqueue s oldPath (path f) toQueue
      end
  end.

End Accumulate.

(** *** Second revision of [handleRename]: the map is searched under the new
    path and then under the old one, and a chain of renames keeps the first
    name that was queued. Folder renames are tracked for one file name. *)

Module StableName.

Definition matchesFilename `{Host} (st : Settings string) (newFile : TFile) : bool :=
  let currentBasename := basename newFile in
  if caseSensitive st then String.eqb currentBasename (trackFolderRenames st)
  else String.eqb (toLowerCase currentBasename) (toLowerCase (trackFolderRenames st)).

Definition classify `{Host} (st : Settings string) (newFile : TFile)
    (oldPath : string) : option string :=
  if negb (includesString (fileExtensions st) (extension newFile)) then None else
  let oldBasename := getBasename oldPath in
  let newBasename := basename newFile in
  let oldImmediateParentName := getImmediateParentName oldPath in
  let newImmediateParentName := getImmediateParentName (path newFile) in
  let nameChange := isNameChange st newFile oldPath in
  let folderChange := isFolderChange st newFile oldPath in
  if negb nameChange && negb folderChange then None else
  if nameChange && outOfScope st (path newFile) then None else
  let regexes := compileRegexes (ignoreRegexes st) in
  if nameChange then
    if eitherMatches regexes oldBasename newBasename then None
    else truthyCandidate oldBasename
  else if folderChange && Js.truthy (trackFolderRenames st)
          && Js.trimNonEmpty (trackFolderRenames st) then
    if negb (matchesFilename st newFile) then None
    else if String.eqb oldImmediateParentName "" || String.eqb newImmediateParentName "" then None
    else if eitherMatches regexes oldImmediateParentName newImmediateParentName then None
    else truthyCandidate oldImmediateParentName
  else None.

(** [debounceMap.get(newFile.path)], and [debounceMap.get(oldPath)] when that
    finds nothing. *)
Definition findExisting {T} (s : State T) (oldPath newPath : string) : option nat :=
  match debounceMap s !! newPath with
  | Some a => Some a
  | None => debounceMap s !! oldPath
  end.

(** The map after the search: an entry found under [oldPath] is deleted. *)
Definition mapAfterSearch {T} (s : State T) (oldPath newPath : string) : gmap string nat :=
  match debounceMap s !! newPath with
  | Some _ => debounceMap s
  | None =>
      match debounceMap s !! oldPath with
      | Some _ => delete oldPath (debounceMap s)
      | None => debounceMap s
      end
  end.

(** [Array.from(existingEntry.queue)[0]]. The queue of an entry in the map
    holds one name; on an empty queue JavaScript yields [undefined], for
    which the model keeps the incoming candidate. *)
Definition stableName (existingEntry : Entry) (toQueue : string) : string :=
  match queue existingEntry with
  | first :: _ => first
  | [] => toQueue
  end.

Definition enqueue {T} (s : State T) (oldPath newPath toQueue : string) : State T :=
  let existingEntry := findExisting s oldPath newPath ≫= (fun a => heap s !! a) in
  let timers1 :=
    match existingEntry with
    | Some e => clearTimeout (timeoutId e) (timers s)
    | None => timers s
    end in
  let toQueue :=
    match existingEntry with
    | Some e => stableName e toQueue
    | None => toQueue
    end in
  let a := nextEntry s in
  let t := nextTimer s in
  {| settings := settings s; vault := vault s;
     heap := <[a := {| queue := [toQueue]; timeoutId := Some t; currentPath := newPath |}]> (heap s);
     debounceMap := <[newPath := a]> (mapAfterSearch s oldPath newPath);
     timers := <[t := a]> timers1;
     nextTimer := S t; nextEntry := S a; settled := settled s |}.

Definition handleRename `{Host} (s : State string) (newFile : TAbstractFile)
    (oldPath : string) : State string :=
  match newFile with
  | Folder _ => s
  | File f =>
      match classify (settings s) f oldPath with
      | None => s
      | Some toQueue => enqueue s oldPath (path f) toQueue
      end
  end.

End StableName.

(** ** Runs of the plugin *)

Inductive Event {T : Type} :=
  | Rename (newFile : TAbstractFile) (oldPath : string)
  | Timeout (t : nat)
  | SaveSettings (st : Settings T)
  | VaultChange (v : gmap string Note)
  | Unload.
Arguments Event : clear implicits.

Definition step `{Host} {T} (handle : State T -> TAbstractFile -> string -> State T)
    (s : State T) (ev : Event T) : State T :=
  match ev with
  | Rename newFile oldPath => handle s newFile oldPath
  | Timeout t => onTimeout t s
  | SaveSettings st =>
      {| settings := st; vault := vault s; heap := heap s;
         debounceMap := debounceMap s; timers := timers s;
         nextTimer := nextTimer s; nextEntry := nextEntry s; settled := settled s |}
  | VaultChange v =>
      {| settings := settings s; vault := v; heap := heap s;
         debounceMap := debounceMap s; timers := timers s;
         nextTimer := nextTimer s; nextEntry := nextEntry s; settled := settled s |}
  | Unload => onunload s
  end.

Definition run `{Host} {T} (handle : State T -> TAbstractFile -> string -> State T)
    (s : State T) (evs : list (Event T)) : State T :=
  fold_left (step handle) evs s.

(** The renames [p0 -> f1 -> f2 -> ...] of one file. *)
Fixpoint renames {T} (p0 : string) (fs : list TFile) : list (Event T) :=
  match fs with
  | [] => []
  | f :: fs' => Rename (File f) p0 :: renames (path f) fs'
  end.

(** The calls of [processAliases] whose target is one of [paths]. *)
Definition settledAt (paths : list string) (log : list (string * list string))
    : list (string * list string) :=
  List.filter (fun call => bool_decide (fst call ∈ paths)) log.

(** What the debounce map, the entries and the timeouts owe each other. *)
Record wf {T} (s : State T) : Prop := {
  wf_map : forall p a, debounceMap s !! p = Some a ->
      exists e t, heap s !! a = Some e /\ currentPath e = p /\
                  timeoutId e = Some t /\ timers s !! t = Some a /\ queue e <> [];
  wf_timers : forall t a, timers s !! t = Some a ->
      exists e, heap s !! a = Some e /\ timeoutId e = Some t /\
                debounceMap s !! currentPath e = Some a;
  wf_nextTimer : forall t, is_Some (timers s !! t) -> t < nextTimer s;
  wf_nextEntry : forall a, is_Some (heap s !! a) -> a < nextEntry s;
}.

(** Example data. *)
Definition mkFile (p : string) : TFile :=
  {| path := p; basename := getBasename p;
     extension := "md" |}.

Definition exampleSettings {T} (track : T) : Settings T := {|
  ignoreRegexes := ["tmp"]; timeoutSeconds := 5; caseSensitive := false;
  autoCreateFrontmatter := true; includeFolders := []; excludeFolders := [];
  fileExtensions := ["md"]; trackFolderRenames := track;
|}.

(** ** The wording of the specification, for comparison with the code *)

(** The text after the last [c] of [s]; all of [s] when [c] does not occur. *)
Fixpoint afterLast (c : ascii) (s : string) : string :=
  match s with
  | EmptyString => EmptyString
  | String a s' =>
      if Js.includes s' (String c EmptyString) then afterLast c s'
      else if Ascii.eqb a c then s' else s
  end.

(** The text before the last [c] of [s]; all of [s] when [c] does not occur. *)
Fixpoint beforeLast (c : ascii) (s : string) : string :=
  match s with
  | EmptyString => EmptyString
  | String a s' =>
      if Js.includes s' (String c EmptyString) then String a (beforeLast c s')
      else if Ascii.eqb a c then EmptyString else s
  end.

(** [s] ends with the character [c]. *)
Fixpoint endsWithChar (c : ascii) (s : string) : bool :=
  match s with
  | EmptyString => false
  | String a EmptyString => Ascii.eqb a c
  | String _ s' => endsWithChar c s'
  end.

(** "The last slash-delimited segment with the text from its final dot to
    its end stripped; a segment with no dot is returned whole." *)
Definition basenameAsStated (p : string) : string :=
  beforeLast "." (afterLast "/" p).

(** The folder spec contains a root-wildcard token. *)
Definition hasRootToken (folder : string) : bool :=
  Js.includes folder "{vault}" || Js.includes folder "{root}".

(** "[path] equals [folder] or starts with [folder] followed by a slash." *)
Definition underFolder (p folder : string) : Prop :=
  p = folder \/ exists rest, p = folder +:+ "/" +:+ rest.

(** "[path] contains no slash." *)
Definition atVaultRoot (p : string) : Prop :=
  forall a b, p <> a +:+ "/" +:+ b.

(** The root rule with the stripped spec alone deciding the case, whether
    or not a token was there: when the stripped spec is empty or a slash,
    the predicate holds iff the path has no slash. *)
Definition rootRuleAsStated : Prop :=
  forall p folder,
    let resolved := stripRootTokens 0 folder in
    (resolved = "" \/ resolved = "/") ->
    (isPathInFolder p folder = true <-> atVaultRoot p).

(** The literal rule with the spec itself as the prefix: for any other spec
    the predicate holds iff the path equals the spec or starts with the
    spec and a slash. *)
Definition literalRuleAsStated : Prop :=
  forall p folder,
    let resolved := stripRootTokens 0 folder in
    ~ (resolved = "" \/ resolved = "/") ->
    (isPathInFolder p folder = true <-> underFolder p folder).



(** [name] is one of the aliases stored for the file at [p]. *)
Definition hasAlias (vault : gmap string Note) (p name : string) : Prop :=
  exists n l, vault !! p = Some n /\ aliases (frontmatter n) = AliasArray l /\ name ∈ l.

(** [name] matches a configured ignore pattern that compiles. *)
Definition ignored `{Host} {T} (st : Settings T) (name : string) : Prop :=
  exists src re, src ∈ ignoreRegexes st /\ newRegExp src = Some re /\ test re name = true.

(** The array of aliases when [names] have been run through the loop of the
    callback, starting from the array [l]. *)
Definition aliasesAfter `{Host} {T} (st : Settings T) (names l : list string) : list string :=
  pushNew st names l (list_to_set (checkName st <$> l)).

(** The settings with other include and exclude folders. *)
Definition withFolders {T} (includes excludes : list string) (st : Settings T) : Settings T := {|
  ignoreRegexes := ignoreRegexes st; timeoutSeconds := timeoutSeconds st;
  caseSensitive := caseSensitive st; autoCreateFrontmatter := autoCreateFrontmatter st;
  includeFolders := includes; excludeFolders := excludes;
  fileExtensions := fileExtensions st; trackFolderRenames := trackFolderRenames st;
|}.

(** Settings that track folder renames, include one folder and exclude
    another; no ignore pattern, case-sensitive names. *)
Definition scopedSettings {T} (track : T) : Settings T := {|
  ignoreRegexes := []; timeoutSeconds := 5; caseSensitive := true;
  autoCreateFrontmatter := true; includeFolders := ["inc"]; excludeFolders := ["exc"];
  fileExtensions := ["md"]; trackFolderRenames := track;
|}.

(** The candidate a rename would queue if no gate stopped it: the old
    basename of a name change, the old parent name otherwise. *)
Definition eventCandidate `{Host} {T} (st : Settings T) (f : TFile) (oldPath : string) : string :=
  if isNameChange st f oldPath then getBasename oldPath
  else getImmediateParentName oldPath.

(** Example settings for case-only renames, with folder tracking. *)
Definition caseSettings {T} (sensitive : bool) (track : T) : Settings T := {|
  ignoreRegexes := []; timeoutSeconds := 5; caseSensitive := sensitive;
  autoCreateFrontmatter := true; includeFolders := []; excludeFolders := [];
  fileExtensions := ["md"]; trackFolderRenames := track;
|}.

(** The two revisions of [handleRename] under one name. *)
Inductive Revision : Type -> Type :=
  | FirstRevision : Revision bool
  | SecondRevision : Revision string.

Definition classifyOf `{Host} {T} (r : Revision T) : Settings T -> TFile -> string -> option string :=
  match r with
  | FirstRevision => Accumulate.classify
  | SecondRevision => StableName.classify
  end.

Definition handleRenameOf `{Host} {T} (r : Revision T)
    : State T -> TAbstractFile -> string -> State T :=
  match r with
  | FirstRevision => Accumulate.handleRename
  | SecondRevision => StableName.handleRename
  end.

(** The handler gets to the map: [toQueue] is set and truthy. *)
Definition accepts `{Host} {T} (r : Revision T) (st : Settings T) (f : TFile)
    (oldPath : string) : bool :=
  match classifyOf r st f oldPath with
  | Some _ => true
  | None => false
  end.

(** What happens while a file is being renamed: a rename of the file
    itself, to [f], or any other event. *)
Inductive Occurrence {T : Type} :=
  | Own (f : TFile)
  | Other (ev : Event T).
Arguments Occurrence : clear implicits.

(** The events of a trace, for the file that is at [cur] when it starts. *)
Fixpoint events {T} (cur : string) (tr : list (Occurrence T)) : list (Event T) :=
  match tr with
  | [] => []
  | Own f :: tr' => Rename (File f) cur :: events (path f) tr'
  | Other ev :: tr' => ev :: events cur tr'
  end.

(** The renames of the file in a trace. *)
Fixpoint ownFiles {T} (tr : list (Occurrence T)) : list TFile :=
  match tr with
  | [] => []
  | Own f :: tr' => f :: ownFiles tr'
  | Other _ :: tr' => ownFiles tr'
  end.

(** The first revision overwrites an entry under the new path without
    clearing its timeout. *)
Definition overwritesPending {T} (r : Revision T) : bool :=
  match r with
  | FirstRevision => true
  | SecondRevision => false
  end.

(** An event that leaves the paths [W] of the file alone: a rename of
    another file, from and to paths outside [W] (in the first revision onto
    a path without a pending entry, when it is accepted); a timeout of
    another entry; a change of the settings or of the vault. Unloading the
    plugin is not such an event. *)
Definition foreign `{Host} {T} (r : Revision T) (W : list string) (s : State T)
    (ev : Event T) : Prop :=
  match ev with
  | Rename (File f) oldPath =>
      (oldPath ∉ W) /\ (path f ∉ W) /\
      (overwritesPending r = true -> accepts r (settings s) f oldPath = true ->
       path f = oldPath \/ debounceMap s !! path f = None)
  | Rename (Folder _) _ => True
  | Timeout t =>
      forall a e, timers s !! t = Some a -> heap s !! a = Some e -> currentPath e ∉ W
  | SaveSettings _ => True
  | VaultChange _ => True
  | Unload => False
  end.

(** Along the trace every rename of the file is accepted by the handler,
    under the settings then in force, and every other event is foreign to
    the paths [W]. *)
Fixpoint calm `{Host} {T} (r : Revision T) (W : list string) (s : State T)
    (cur : string) (tr : list (Occurrence T)) : Prop :=
  match tr with
  | [] => True
  | Own f :: tr' =>
      accepts r (settings s) f cur = true /\
      calm r W (handleRenameOf r s (File f) cur) (path f) tr'
  | Other ev :: tr' =>
      foreign r W s ev /\
      calm r W (step (handleRenameOf r) s ev) cur tr'
  end.

(** The path of the file after the chain of renames. *)
Definition finalPath (p0 : string) (fs : list TFile) : string :=
  default p0 (last (path <$> fs)).

(** A vault with one note, ["b.md"], whose alias key holds [v]. *)
Definition exampleVault (v : AliasesValue) : gmap string Note :=
  {[ "b.md" := {| noteBasename := "b"; noteExtension := "md";
                  frontmatter := {| aliases := v; otherKeys := [("title", "B")] |} |} ]}.

(** The example settings with auto-create off. *)
Definition noCreateSettings {T} (track : T) : Settings T := {|
  ignoreRegexes := ["tmp"]; timeoutSeconds := 5; caseSensitive := false;
  autoCreateFrontmatter := false; includeFolders := []; excludeFolders := [];
  fileExtensions := ["md"]; trackFolderRenames := track;
|}.

(** "Two or more renames of a file before its timeout expires are settled
    once, at the final path": the property without a condition on the fate
    of the renames at the gates of the handler. *)
Definition settlesAtFinalPathAsStated `{Host} {T} (r : Revision T) : Prop :=
  forall (s : State T) (p0 : string) (fs : list TFile) (ts : list nat),
    wf s -> 2 <= length fs ->
    (forall f, f ∈ fs -> debounceMap s !! path f = None) ->
    (forall t, is_Some (timers (run (handleRenameOf r) s (renames p0 fs)) !! t) -> t ∈ ts) ->
    exists q,
      settledAt (p0 :: (path <$> fs))
        (drop (length (settled s))
           (settled (run (handleRenameOf r) s (renames p0 fs ++ (Timeout <$> ts))))) =
      [(finalPath p0 fs, q)].

(** ** src/ui/settings-tab.ts: the list settings

    The text fields of the setting tab hold lists, shown with [join(',')]
    and read back by the [onChange] handlers. *)

(** [s.trim()]: white space is dropped at the start and at the end. *)
Fixpoint trimStart (s : string) : string :=
  match s with
  | EmptyString => EmptyString
  | String c s' => if Js.isWhiteSpace c then trimStart s' else s
  end.

(** White space at the end: a character is kept when something is kept
    after it or it is not white space itself. *)
Fixpoint trimEnd (s : string) : string :=
  match s with
  | EmptyString => EmptyString
  | String c s' =>
      match trimEnd s' with
      | EmptyString => if Js.isWhiteSpace c then EmptyString else String c EmptyString
      | String c' r => String c (String c' r)
      end
  end.

Definition trim (s : string) : string := trimEnd (trimStart s).

(** [arr.join(sep)] for a one-character separator. *)
Fixpoint join (sep : ascii) (arr : list string) : string :=
  match arr with
  | [] => EmptyString
  | [x] => x
  | x :: rest => x +:+ String sep (join sep rest)
  end.

(** The [onChange] handler of a list setting:
    [value.split(',').map((s) => s.trim()).filter((s) => s)]. *)
Definition parseList (value : string) : list string :=
  List.filter Js.truthy (trim <$> Js.split "," value).

(** The text the setting tab shows for a list: [list.join(',')]. *)
Definition showList (l : list string) : string := join "," l.

(** An item that [parseList] hands back as it is. *)
Definition cleanItem (x : string) : Prop :=
  x <> "" /\ trim x = x /\ Js.includes x "," = false.

(** The [onChange] handler of the [File extensions] field. *)
Definition onChangeFileExtensions {T} (value : string) (st : Settings T) : Settings T := {|
  ignoreRegexes := ignoreRegexes st; timeoutSeconds := timeoutSeconds st;
  caseSensitive := caseSensitive st; autoCreateFrontmatter := autoCreateFrontmatter st;
  includeFolders := includeFolders st; excludeFolders := excludeFolders st;
  fileExtensions := parseList value; trackFolderRenames := trackFolderRenames st;
|}.

(** The settings with other ignore patterns. *)
Definition withIgnoreRegexes {T} (sources : list string) (st : Settings T) : Settings T := {|
  ignoreRegexes := sources; timeoutSeconds := timeoutSeconds st;
  caseSensitive := caseSensitive st; autoCreateFrontmatter := autoCreateFrontmatter st;
  includeFolders := includeFolders st; excludeFolders := excludeFolders st;
  fileExtensions := fileExtensions st; trackFolderRenames := trackFolderRenames st;
|}.

(** ** The earlier revisions of [handleRename]

    The single-file plugin ([main.ts] at the root of the sources) and its
    first split into modules check the include and exclude folders for
    every event, and a folder is a plain prefix there: no root token. The
    rest of the handler is that of the first revision above. *)

Module Legacy.

(** [path.startsWith(f + '/') || path === f] *)
Definition inFolder (p folder : string) : bool :=
  Js.startsWith p (folder +:+ "/") || String.eqb p folder.

(** The include and exclude checks: [true] when the handler returns
    because of them. *)
Definition outOfScope {T} (st : Settings T) (p : string) : bool :=
  (negb (Nat.eqb (length (includeFolders st)) 0) &&
   negb (existsb (fun f => inFolder p f) (includeFolders st))) ||
  existsb (fun f => inFolder p f) (excludeFolders st).

(** [handleRename] up to [if (!toQueue) return;]. *)
Definition classify `{Host} (st : Settings bool) (newFile : TFile)
    (oldPath : string) : option string :=
  if negb (includesString (fileExtensions st) (extension newFile)) then None else
  let oldBasename := getBasename oldPath in
  let newBasename := basename newFile in
  let oldImmediateParentName := getImmediateParentName oldPath in
  let newImmediateParentName := getImmediateParentName (path newFile) in
  let nameChange := isNameChange st newFile oldPath in
  let folderChange := isFolderChange st newFile oldPath in
  if negb nameChange && negb folderChange then None else
  if outOfScope st (path newFile) then None else
  let regexes := compileRegexes (ignoreRegexes st) in
  if nameChange then
    if eitherMatches regexes oldBasename newBasename then None
    else truthyCandidate oldBasename
  else if folderChange && trackFolderRenames st then
    if String.eqb oldImmediateParentName "" || String.eqb newImmediateParentName "" then None
    else if eitherMatches regexes oldImmediateParentName newImmediateParentName then None
    else truthyCandidate oldImmediateParentName
  else None.

(** The map is consulted with [has] and [get] on [oldPath], or with [get]
    alone; the entries are objects, so both come to [Accumulate.enqueue]. *)
Definition handleRename `{Host} (s : State bool) (newFile : TAbstractFile)
    (oldPath : string) : State bool :=
  match newFile with
  | Folder _ => s
  | File f =>
      match classify (settings s) f oldPath with
      | None => s
      | Some toQueue => Accumulate.enqueue s oldPath (path f) toQueue
      end
  end.

End Legacy.

(** When a folder change is tracked: the first revision has a switch; the
    second wants a file name that is not blank and is the name of the
    file. *)
Definition tracksFolder `{Host} {T} (r : Revision T) : Settings T -> TFile -> bool :=
  match r with
  | FirstRevision => fun st _ => trackFolderRenames st
  | SecondRevision => fun st f =>
      Js.truthy (trackFolderRenames st) && Js.trimNonEmpty (trackFolderRenames st) &&
      StableName.matchesFilename st f
  end.

(** [DEFAULT_SETTINGS] of the single-file plugin. *)
Definition DEFAULT_SETTINGS : Settings bool := {|
  ignoreRegexes := ["^_"; "^Untitled$"; "^Untitled \d+$"];
  timeoutSeconds := 5;
  caseSensitive := false;
  autoCreateFrontmatter := true;
  includeFolders := [];
  excludeFolders := [];
  fileExtensions := ["md"];
  trackFolderRenames := false;
|}.

(** ** Runs: counting and invariants *)

(** The event is a rename. *)
Definition isRename {T} (ev : Event T) : bool :=
  match ev with
  | Rename _ _ => true
  | _ => false
  end.

(** A queue that holds one name, and not the empty one. *)
Definition singleName (q : list string) : Prop :=
  exists c, q = [c] /\ c <> "".

(** What the second revision keeps along every run. *)
Definition stableInv {T} (s : State T) : Prop :=
  wf s /\ size (timers s) = size (debounceMap s) /\
  (forall a e, heap s !! a = Some e -> singleName (queue e)) /\
  (forall call, call ∈ settled s -> singleName call.2).

(** What the first revision keeps along every run: an entry of the map is
    armed, and an armed timeout knows its entry. *)
Record armed {T} (s : State T) : Prop := {
  armed_map : forall p a, debounceMap s !! p = Some a ->
      exists e t, heap s !! a = Some e /\ currentPath e = p /\
                  timeoutId e = Some t /\ timers s !! t = Some a /\ queue e <> [];
  armed_timers : forall t a, timers s !! t = Some a ->
      exists e, heap s !! a = Some e /\ timeoutId e = Some t /\ queue e <> [];
  armed_nextTimer : forall t, is_Some (timers s !! t) -> t < nextTimer s;
  armed_nextEntry : forall a, is_Some (heap s !! a) -> a < nextEntry s;
}.

(** The candidates of the renames [p0 -> f1 -> f2 -> ...] of one file under
    the settings [st], when every one of them passes the gates. *)
Fixpoint chainCandidates `{Host} {T} (r : Revision T) (st : Settings T) (p0 : string)
    (fs : list TFile) : option (list string) :=
  match fs with
  | [] => Some []
  | f :: fs' =>
      match classifyOf r st f p0, chainCandidates r st (path f) fs' with
      | Some c, Some cs => Some (c :: cs)
      | _, _ => None
      end
  end.

(** The queue of an entry after the candidates [cs] went in, one rename
    after the other, starting from the queue [q]: the first revision adds
    each candidate, the second keeps the first name of the queue. *)
Fixpoint queueAfter {T} (r : Revision T) (cs q : list string) : list string :=
  match cs with
  | [] => q
  | c :: cs' =>
      queueAfter r cs'
        (if overwritesPending r then setAdd c q
         else [StableName.stableName {| queue := q; timeoutId := None; currentPath := "" |} c])
  end.

(** * Properties *)

(** ** Strings *)

Lemma append_cons (a : ascii) (s t : string) :
  String a s +:+ t = String a (s +:+ t).
Proof. reflexivity. Qed.

Lemma append_nil_r (s : string) : s +:+ EmptyString = s.
Proof. induction s; [done|]. rewrite append_cons. congruence. Qed.

Lemma append_assoc (a b c : string) : (a +:+ b) +:+ c = a +:+ b +:+ c.
Proof. induction a; [done|]. rewrite !append_cons. congruence. Qed.

Lemma prefix_cons_char (c a : ascii) (s : string) :
  String.prefix (String c EmptyString) (String a s) = Ascii.eqb a c.
Proof.
  simpl. destruct (ascii_dec c a) as [->|Hne].
  - rewrite Ascii.eqb_refl. by destruct s.
  - symmetry. apply Ascii.eqb_neq. congruence.
Qed.

Lemma includes_char_cons (c a : ascii) (s : string) :
  Js.includes (String a s) (String c EmptyString) =
  Ascii.eqb a c || Js.includes s (String c EmptyString).
Proof. cbn [Js.includes]. by rewrite prefix_cons_char. Qed.

Lemma includes_char_nil (c : ascii) :
  Js.includes EmptyString (String c EmptyString) = false.
Proof. reflexivity. Qed.

Lemma prefix_spec (p s : string) :
  String.prefix p s = true <-> exists rest, s = p +:+ rest.
Proof.
  revert s. induction p as [|c p IH]; intros s.
  - split; [intros _; by exists s | by destruct s].
  - destruct s as [|a s]; simpl.
    + split; [done | intros [rest Hr]; discriminate].
    + destruct (ascii_dec c a) as [->|Hne].
      * rewrite IH. split; intros [rest Hr]; exists rest.
        -- by rewrite Hr.
        -- rewrite append_cons in Hr. by injection Hr.
      * split; [done | intros [rest Hr]; by injection Hr].
Qed.

Lemma includes_char_spec (c : ascii) (s : string) :
  Js.includes s (String c EmptyString) = true <->
  exists a b, s = a +:+ String c EmptyString +:+ b.
Proof.
  induction s as [|x s IH].
  - rewrite includes_char_nil. split; [done|].
    intros [[|a0 a] [b Hb]]; simpl in Hb; discriminate.
  - rewrite includes_char_cons, orb_true_iff, IH. split.
    + intros [Hx | (a & b & ->)].
      * apply Ascii.eqb_eq in Hx as ->. by exists EmptyString, s.
      * by exists (String x a), b.
    + intros ([|a0 a] & b & Hb); simpl in Hb; injection Hb as -> ->.
      * left. apply Ascii.eqb_refl.
      * right. by exists a, b.
Qed.

Lemma includes_false_prefix (s p : string) :
  Js.includes s p = false -> String.prefix p s = false.
Proof. destruct s; simpl; intros Hi; by apply orb_false_iff in Hi as [? _]. Qed.

Lemma includes_false_tail (a : ascii) (s p : string) :
  Js.includes (String a s) p = false -> Js.includes s p = false.
Proof. cbn [Js.includes]. intros Hi. by apply orb_false_iff in Hi as [_ ?]. Qed.

(** ** Path names *)

Lemma afterLast_absent (c : ascii) (s : string) :
  Js.includes s (String c EmptyString) = false -> afterLast c s = s.
Proof.
  destruct s as [|a s]; [done|].
  rewrite includes_char_cons. intros Hi. apply orb_false_iff in Hi as [Ha Hs].
  simpl. by rewrite Hs, Ha.
Qed.

Lemma beforeLast_absent (c : ascii) (s : string) :
  Js.includes s (String c EmptyString) = false -> beforeLast c s = s.
Proof.
  destruct s as [|a s]; [done|].
  rewrite includes_char_cons. intros Hi. apply orb_false_iff in Hi as [Ha Hs].
  simpl. by rewrite Hs, Ha.
Qed.

Lemma afterLast_free (c : ascii) (s : string) :
  Js.includes (afterLast c s) (String c EmptyString) = false.
Proof.
  induction s as [|a s IH]; [done|]. simpl.
  destruct (Js.includes s (String c EmptyString)) eqn:Hs; [done|].
  destruct (Ascii.eqb a c) eqn:Ha; [done|].
  by rewrite includes_char_cons, Ha, Hs.
Qed.

Lemma afterLast_suffix (c : ascii) (s : string) :
  exists dir, s = dir +:+ afterLast c s /\
              (dir = EmptyString \/ exists d, dir = d +:+ String c EmptyString).
Proof.
  induction s as [|a s (dir & Hdir & Hd)]; [by exists EmptyString; auto|]. simpl.
  destruct (Js.includes s (String c EmptyString)) eqn:Hs.
  - exists (String a dir). split; [rewrite append_cons; f_equal; exact Hdir|].
    right. destruct Hd as [->|[d ->]].
    + pose proof (afterLast_free c s) as Hf. change (s = afterLast c s) in Hdir.
      rewrite <- Hdir in Hf. congruence.
    + by exists (String a d).
  - destruct (Ascii.eqb a c) eqn:Ha.
    + apply Ascii.eqb_eq in Ha as ->. exists (String c EmptyString). split; [done|].
      right. by exists EmptyString.
    + exists EmptyString. split; [done | by left].
Qed.

Lemma split_not_nil (c : ascii) (s : string) : Js.split c s <> [].
Proof.
  induction s as [|a s IH]; simpl; [done|].
  destruct (Ascii.eqb a c); [done|]. by destruct (Js.split c s).
Qed.

Lemma pop_cons2 (x y : string) (l : list string) :
  fst (Js.pop (x :: y :: l)) = fst (Js.pop (y :: l)).
Proof.
  change (Js.pop (x :: y :: l))
    with (let '(r, rest') := Js.pop (y :: l) in (r, x :: rest')).
  by destruct (Js.pop (y :: l)).
Qed.

Lemma pop_cons (x : string) (l : list string) :
  l <> [] -> fst (Js.pop (x :: l)) = fst (Js.pop l).
Proof. destruct l; [done|]. intros _. apply pop_cons2. Qed.

Lemma split_absent (c : ascii) (s : string) :
  Js.includes s (String c EmptyString) = false -> Js.split c s = [s].
Proof.
  induction s as [|a s IH]; [done|].
  rewrite includes_char_cons. intros Hi. apply orb_false_iff in Hi as [Ha Hs].
  simpl. by rewrite Ha, (IH Hs).
Qed.

Lemma split_present (c : ascii) (s : string) :
  Js.includes s (String c EmptyString) = true ->
  exists x y l, Js.split c s = x :: y :: l.
Proof.
  induction s as [|a s IH]; [done|].
  rewrite includes_char_cons. simpl. destruct (Ascii.eqb a c); simpl.
  - intros _. destruct (Js.split c s) as [|y l] eqn:Hsp; [by apply split_not_nil in Hsp|].
    by exists EmptyString, y, l.
  - intros Hs. destruct (IH Hs) as (x & y & l & ->). by exists (String a x), y, l.
Qed.

(** [path.split('/').pop()] is the text after the last slash. *)
Lemma pop_split_afterLast (c : ascii) (s : string) :
  fst (Js.pop (Js.split c s)) = Some (afterLast c s).
Proof.
  induction s as [|a s IH]; [done|]. simpl.
  destruct (Ascii.eqb a c) eqn:Ha.
  - rewrite pop_cons by apply split_not_nil. rewrite IH.
    destruct (Js.includes s (String c EmptyString)) eqn:Hs; [done|].
    by rewrite afterLast_absent.
  - destruct (Js.includes s (String c EmptyString)) eqn:Hs.
    + destruct (split_present c s Hs) as (x & y & l & Hsp).
      rewrite Hsp in *. by rewrite pop_cons2, <- IH, pop_cons2.
    + by rewrite (split_absent c s Hs).
Qed.

Lemma allNotSlashDot_spec (s : string) :
  allNotSlashDot s = negb (Js.includes s "/") && negb (Js.includes s ".").
Proof.
  induction s as [|a s IH]; [done|].
  rewrite !includes_char_cons. simpl. rewrite IH. unfold notSlashDot.
  destruct (Ascii.eqb a "/"), (Ascii.eqb a "."); simpl; try done.
  by destruct (Js.includes s "/").
Qed.

Lemma endsWithChar_absent (c : ascii) (s : string) :
  Js.includes s (String c EmptyString) = false -> endsWithChar c s = false.
Proof.
  induction s as [|a s IH]; [done|].
  rewrite includes_char_cons. intros Hi. apply orb_false_iff in Hi as [Ha Hs].
  simpl. destruct s; [done | by apply IH].
Qed.

(** On a segment without a slash the regular expression cuts at the last
    dot, unless nothing follows that dot. *)
Lemma replaceExtension_spec (seg : string) :
  Js.includes seg "/" = false ->
  replaceExtension seg = if endsWithChar "." seg then seg else beforeLast "." seg.
Proof.
  induction seg as [|a rest IH]; [done|].
  rewrite includes_char_cons. intros Hi. apply orb_false_iff in Hi as [Ha Hrest].
  specialize (IH Hrest). cbn [replaceExtension beforeLast].
  unfold matchesExtTail. rewrite allNotSlashDot_spec, Hrest. cbn [negb andb].
  destruct rest as [|b rest'].
  - simpl. by destruct (Ascii.eqb a ".").
  - change (endsWithChar "." (String a (String b rest')))
      with (endsWithChar "." (String b rest')).
    cbn [Js.truthy andb].
    destruct (Js.includes (String b rest') ".") eqn:Hdot; cbn [negb andb].
    + rewrite andb_false_r, IH. by destruct (endsWithChar "." (String b rest')).
    + rewrite andb_true_r, (endsWithChar_absent _ _ Hdot).
      destruct (Ascii.eqb a ".") eqn:Ha'; [done|].
      rewrite IH, (endsWithChar_absent _ _ Hdot). by rewrite beforeLast_absent.
Qed.

Lemma beforeLast_prefix (c : ascii) (s : string) :
  String.prefix (beforeLast c s) s = true.
Proof.
  apply prefix_spec. induction s as [|a s (rest & IH)]; [by exists EmptyString|].
  simpl. destruct (Js.includes s (String c EmptyString)).
  - exists rest. rewrite append_cons. f_equal. exact IH.
  - destruct (Ascii.eqb a c); [by exists (String a s)|].
    exists EmptyString. by rewrite append_nil_r.
Qed.

Lemma prefix_refl (s : string) : String.prefix s s = true.
Proof. apply prefix_spec. exists EmptyString. by rewrite append_nil_r. Qed.

Lemma getBasename_afterLast (p : string) :
  getBasename p = replaceExtension (afterLast "/" p).
Proof. unfold getBasename. by rewrite pop_split_afterLast. Qed.

Lemma beforeLast_append (c : ascii) (stem ext : string) :
  Js.includes ext (String c EmptyString) = false ->
  beforeLast c (stem +:+ String c ext) = stem.
Proof.
  intros Hext. induction stem as [|a stem IH].
  - change (EmptyString +:+ String c ext) with (String c ext). simpl.
    by rewrite Hext, Ascii.eqb_refl.
  - rewrite append_cons. simpl. rewrite IH.
    assert (Js.includes (stem +:+ String c ext) (String c EmptyString) = true) as ->; [|done].
    apply includes_char_spec. by exists stem, ext.
Qed.

Lemma endsWithChar_append (c : ascii) (stem : string) (x : ascii) (ext : string) :
  endsWithChar c (stem +:+ String x ext) = endsWithChar c (String x ext).
Proof.
  induction stem as [|a stem IH]; [done|].
  rewrite append_cons. cbn [endsWithChar]. rewrite IH.
  by destruct stem.
Qed.

(** C9, as stated, fails on a segment that ends with a dot: the claim cuts
    at the final dot whenever there is one, the code leaves ["foo."] whole. *)
Lemma getBasename_keeps_trailing_dot :
  ~ (forall p, getBasename p = basenameAsStated p).
Proof. intros Hall. specialize (Hall "a/foo."). vm_compute in Hall. discriminate. Qed.

(** C9 (amended). For every path [p], [getBasename p] takes the last
    slash-delimited segment of [p] and strips one trailing extension, the
    text from the final dot of the segment to its end, when at least one
    character follows that dot. A segment with no dot, or whose final dot is
    its last character, is returned whole. No character before the segment
    is touched, the result is a prefix of the segment, and
    [getBasename "a/b.c.md" = "b.c"]. The function is total. *)
Theorem getBasename_strips_one_extension (p : string) :
  let seg := afterLast "/" p in
  (exists dir, p = dir +:+ seg /\ (dir = "" \/ exists d, dir = d +:+ "/")) /\
  Js.includes seg "/" = false /\
  getBasename p = (if endsWithChar "." seg then seg else beforeLast "." seg) /\
  (forall stem x ext, seg = stem +:+ "." +:+ String x ext ->
     Js.includes (String x ext) "." = false -> getBasename p = stem) /\
  (forall stem, seg = stem +:+ "." -> getBasename p = seg) /\
  (Js.includes seg "." = false -> getBasename p = seg) /\
  String.prefix (getBasename p) seg = true /\
  getBasename "a/b.c.md" = "b.c".
Proof.
  intros seg. pose proof (afterLast_free "/" p) as Hfree. fold seg in Hfree.
  assert (getBasename p = if endsWithChar "." seg then seg else beforeLast "." seg) as Hb.
  { rewrite getBasename_afterLast. by apply replaceExtension_spec. }
  split_and!.
  - apply afterLast_suffix.
  - exact Hfree.
  - exact Hb.
  - intros stem x ext Hseg Hext. rewrite Hb, Hseg.
    change ("." +:+ String x ext) with (String "."%char (String x ext)).
    rewrite endsWithChar_append.
    change (endsWithChar "." (String "." (String x ext)))
      with (endsWithChar "." (String x ext)).
    rewrite (endsWithChar_absent _ _ Hext). by apply beforeLast_append.
  - intros stem Hseg. rewrite Hb, Hseg.
    change (stem +:+ ".") with (stem +:+ String "."%char EmptyString).
    by rewrite endsWithChar_append.
  - intros Hdot. rewrite Hb, (endsWithChar_absent _ _ Hdot).
    by apply beforeLast_absent.
  - rewrite Hb. destruct (endsWithChar "." seg);
      [apply prefix_refl | apply beforeLast_prefix].
  - reflexivity.
Qed.

(** ** The scope predicate *)

Lemma stripRootTokens_no_token (folder : string) :
  hasRootToken folder = false -> stripRootTokens 0 folder = folder.
Proof.
  unfold hasRootToken. induction folder as [|c rest IH]; [done|].
  intros Hno. apply orb_false_iff in Hno as [Hv Hr].
  cbn [stripRootTokens].
  rewrite (includes_false_prefix _ _ Hv), (includes_false_prefix _ _ Hr).
  rewrite IH; [done|].
  by rewrite (includes_false_tail _ _ _ Hv), (includes_false_tail _ _ _ Hr).
Qed.

Lemma underFolder_spec (p folder : string) :
  Js.startsWith p (folder +:+ "/") || String.eqb p folder = true <-> underFolder p folder.
Proof.
  unfold underFolder, Js.startsWith. rewrite orb_true_iff, prefix_spec, String.eqb_eq.
  split.
  - intros [[rest Hr] | Heq]; [right | by left].
    exists rest. by rewrite Hr, append_assoc.
  - intros [Heq | [rest Hr]]; [by right | left].
    exists rest. by rewrite Hr, append_assoc.
Qed.

Lemma atVaultRoot_spec (p : string) :
  negb (Js.includes p "/") = true <-> atVaultRoot p.
Proof.
  unfold atVaultRoot. rewrite negb_true_iff. split.
  - intros Hno a b Hab.
    assert (Js.includes p "/" = true); [|congruence].
    apply includes_char_spec. by exists a, b.
  - intros Hall. destruct (Js.includes p "/") eqn:Hi; [|done].
    apply includes_char_spec in Hi as (a & b & Hab). by destruct (Hall a b).
Qed.

(** C7, as stated, fails on both of its rules. The folder spec ["/"] holds
    no token: the code tests it literally and rejects ["b.md"]. The spec
    ["{vault}notes"] is matched through its stripped form ["notes"]: the
    code admits ["notes/x.md"], which neither equals the spec nor starts
    with it. *)
Lemma scope_rules_as_stated_fail : ~ rootRuleAsStated /\ ~ literalRuleAsStated.
Proof.
  split.
  - intros Hrule. destruct (Hrule "b.md" "/") as [_ Hroot]; [by right|].
    assert (isPathInFolder "b.md" "/" = true); [|done].
    apply Hroot. by apply atVaultRoot_spec.
  - intros Hrule. destruct (Hrule "notes/x.md" "{vault}notes") as [Hlit _].
    { intros [Hres | Hres]; vm_compute in Hres; discriminate. }
    destruct (Hlit eq_refl) as [Heq | [rest Heq]].
    + discriminate.
    + vm_compute in Heq. discriminate.
Qed.

(** C7 (amended). For every path and every folder spec that contains a
    root-wildcard token and, once its tokens are stripped, is the empty
    string or ["/"], [isPathInFolder] is true iff the path contains no
    slash; ["{vault}"] admits ["b.md"] and rejects ["a/b.md"]. For every
    other folder spec it is true iff the path equals the stripped spec or
    starts with the stripped spec followed by ["/"]; a spec without a token
    is its own stripped spec. *)
Theorem isPathInFolder_spec (p folder : string) :
  let resolved := stripRootTokens 0 folder in
  (hasRootToken folder = true -> resolved = "" \/ resolved = "/" ->
     (isPathInFolder p folder = true <-> atVaultRoot p)) /\
  (hasRootToken folder = false \/ ~ (resolved = "" \/ resolved = "/") ->
     (isPathInFolder p folder = true <-> underFolder p resolved)) /\
  (hasRootToken folder = false -> resolved = folder) /\
  isPathInFolder "b.md" "{vault}" = true /\
  isPathInFolder "a/b.md" "{vault}" = false.
Proof.
  intros resolved. split_and!; [| | apply stripRootTokens_no_token | done | done].
  - intros Htok Hres. unfold isPathInFolder. fold (hasRootToken folder).
    rewrite Htok. fold resolved.
    assert (String.eqb resolved "" || String.eqb resolved "/" = true) as ->.
    { apply orb_true_iff. rewrite !String.eqb_eq. exact Hres. }
    apply atVaultRoot_spec.
  - intros Hcase. unfold isPathInFolder. fold (hasRootToken folder).
    destruct (hasRootToken folder) eqn:Htok.
    + destruct Hcase as [? | Hres]; [done|]. fold resolved.
      assert (String.eqb resolved "" || String.eqb resolved "/" = false) as ->.
      { apply not_true_iff_false. rewrite orb_true_iff, !String.eqb_eq. exact Hres. }
      apply underFolder_spec.
    + unfold resolved. rewrite (stripRootTokens_no_token _ Htok).
      apply underFolder_spec.
Qed.

(** ** The alias processor *)

Section AliasProcessor.
Context `{Host} {T : Type}.
Implicit Types (st : Settings T) (vault : gmap string Note) (l names : list string).

Lemma matchesAny_ignored st name :
  matchesAny (compileRegexes (ignoreRegexes st)) name = true <-> ignored st name.
Proof.
  unfold matchesAny, compileRegexes, ignored. rewrite existsb_exists. split.
  - intros (re & Hin & Ht). apply list_elem_of_In, list_elem_of_omap in Hin as (src & ? & ?).
    by exists src, re.
  - intros (src & re & Hsrc & Hnew & Ht). exists re. split; [|done].
    apply list_elem_of_In, list_elem_of_omap. by exists src.
Qed.

Lemma toAdd_elem st cb queue name :
  name ∈ toAdd st cb queue <->
  name ∈ queue /\ survives st (compileRegexes (ignoreRegexes st)) cb name = true.
Proof. unfold toAdd. rewrite !list_elem_of_In. apply filter_In. Qed.

Lemma toAdd_not_ignored st cb queue name :
  name ∈ toAdd st cb queue -> ~ ignored st name.
Proof.
  rewrite toAdd_elem, <- matchesAny_ignored. intros [_ Hs] Hm.
  unfold survives in Hs. by rewrite Hm in Hs.
Qed.

Lemma pushNew_spec st names l (existing : gset string) :
  (forall k, k ∈ existing <-> k ∈ checkName st <$> l) ->
  exists added,
    pushNew st names l existing = l ++ added /\
    sublist added names /\
    NoDup (checkName st <$> added) /\
    (forall c, c ∈ added -> checkName st c ∉ checkName st <$> l) /\
    (forall c, c ∈ names -> checkName st c ∈ checkName st <$> (l ++ added)).
Proof.
  revert l existing. induction names as [|name rest IH]; intros l existing Hinv.
  - exists []. rewrite app_nil_r. split_and!; try done.
    + constructor.
    + intros c Hc. by apply elem_of_nil in Hc.
    + intros c Hc. by apply elem_of_nil in Hc.
  - cbn [pushNew]. destruct (decide (checkName st name ∈ existing)) as [Hin | Hnin].
    + destruct (IH l existing Hinv) as (added & Heq & Hsub & Hnd & Hnew & Hcov).
      exists added. split_and!; try done.
      * by apply sublist_cons.
      * intros c Hc. apply elem_of_cons in Hc as [-> | Hc]; [|by apply Hcov].
        rewrite fmap_app. apply elem_of_app. left. by apply Hinv.
    + destruct (IH (l ++ [name]) ({[checkName st name]} ∪ existing))
        as (added & Heq & Hsub & Hnd & Hnew & Hcov).
      { intros k. rewrite fmap_app, elem_of_app, elem_of_union, elem_of_singleton.
        cbn [fmap list_fmap]. rewrite list_elem_of_singleton, Hinv. tauto. }
      exists (name :: added). split_and!.
      * by rewrite Heq, <- app_assoc.
      * by apply sublist_skip.
      * cbn [fmap list_fmap]. apply NoDup_cons. split; [|done].
        intros Hk. apply list_elem_of_fmap in Hk as (c & Hkc & Hc).
        apply (Hnew c Hc). rewrite <- Hkc, fmap_app. apply elem_of_app. right.
        cbn [fmap list_fmap]. by apply list_elem_of_singleton.
      * intros c Hc. apply elem_of_cons in Hc as [-> | Hc].
        -- by rewrite <- Hinv.
        -- intros Hk. apply (Hnew c Hc). rewrite fmap_app. apply elem_of_app. by left.
      * intros c Hc. rewrite <- app_assoc in Hcov. cbn [app] in Hcov.
        apply elem_of_cons in Hc as [-> | Hc]; [|by apply Hcov].
        rewrite fmap_app. apply elem_of_app. right. cbn [fmap list_fmap].
        apply elem_of_cons. by left.
Qed.


Lemma existing_set_inv st l k :
  k ∈ (list_to_set (checkName st <$> l) : gset string) <-> k ∈ checkName st <$> l.
Proof. apply elem_of_list_to_set. Qed.

(** The vault after [processAliases]: only the file at [p] can change, and
    only its front matter, by [updateAliases] on the surviving names. *)
Lemma processAliases_lookup st vault p queue p' :
  processAliases st vault p queue !! p' =
  if decide (p' = p) then
    (fun n =>
       let names := toAdd st (noteBasename n) queue in
       {| noteBasename := noteBasename n; noteExtension := noteExtension n;
          frontmatter := match names with
                         | [] => frontmatter n
                         | _ => updateAliases st names (frontmatter n)
                         end |}) <$> vault !! p
  else vault !! p'.
Proof.
  unfold processAliases, getFileByPath.
  destruct (vault !! p) as [n|] eqn:Hp; cbn [fmap option_fmap option_map basename].
  - destruct (toAdd st (noteBasename n) queue) as [|x xs] eqn:Hnames.
    + case_decide as Hd; [subst p'|done]. rewrite Hp. by destruct n.
    + unfold processFrontMatter. cbn [path].
      case_decide as Hd.
      * subst p'. by rewrite lookup_alter_eq, Hp.
      * by rewrite lookup_alter_ne.
  - case_decide as Hd; [by subst p'|done].
Qed.

Lemma aliasesAfter_spec st names l :
  exists added,
    aliasesAfter st names l = l ++ added /\
    sublist added names /\
    NoDup (checkName st <$> added) /\
    (forall c, c ∈ added -> checkName st c ∉ checkName st <$> l) /\
    (forall c, c ∈ names -> checkName st c ∈ checkName st <$> (l ++ added)).
Proof. apply pushNew_spec, existing_set_inv. Qed.

Lemma existing_unique st l (existing : gset string) :
  (forall k, k ∈ existing <-> k ∈ checkName st <$> l) ->
  existing = list_to_set (checkName st <$> l).
Proof. intros Hinv. apply set_eq. intros k. by rewrite Hinv, elem_of_list_to_set. Qed.

Lemma pushNew_aliasesAfter st names l (existing : gset string) :
  (forall k, k ∈ existing <-> k ∈ checkName st <$> l) ->
  pushNew st names l existing = aliasesAfter st names l.
Proof. intros Hinv. unfold aliasesAfter. by rewrite <- (existing_unique st l existing). Qed.

(** The loop can be cut anywhere: the array after the first names is the
    array the rest starts from. *)
Lemma aliasesAfter_app st xs ys l :
  aliasesAfter st (xs ++ ys) l = aliasesAfter st ys (aliasesAfter st xs l).
Proof.
  unfold aliasesAfter at 1 3.
  generalize (existing_set_inv st l). generalize (list_to_set (checkName st <$> l) : gset string).
  revert l. induction xs as [|x xs IH]; intros l existing Hinv.
  - cbn [app pushNew]. by apply pushNew_aliasesAfter.
  - cbn [app pushNew]. destruct (decide (checkName st x ∈ existing)); [by apply IH|].
    apply IH. intros k.
    rewrite fmap_app, elem_of_app, elem_of_union, elem_of_singleton.
    cbn [fmap list_fmap]. rewrite list_elem_of_singleton, Hinv. tauto.
Qed.

Lemma aliasesAfter_one st c l :
  aliasesAfter st [c] l =
  if decide (checkName st c ∈ checkName st <$> l) then l else l ++ [c].
Proof.
  unfold aliasesAfter. cbn [pushNew].
  destruct (decide (checkName st c ∈ _)) as [Hin|Hnin];
    destruct (decide (checkName st c ∈ checkName st <$> l)) as [Hin'|Hnin'];
    try done; by rewrite elem_of_list_to_set in *.
Qed.

Lemma updateAliases_array st names l other :
  updateAliases st names {| aliases := AliasArray l; otherKeys := other |} =
  {| aliases := AliasArray (aliasesAfter st names l); otherKeys := other |}.
Proof. reflexivity. Qed.

Lemma updateAliases_not_array st names fm :
  (forall l, aliases fm <> AliasArray l) ->
  updateAliases st names fm =
  if autoCreateFrontmatter st
  then {| aliases := AliasArray (aliasesAfter st names []); otherKeys := otherKeys fm |}
  else fm.
Proof.
  intros Hna. unfold updateAliases.
  destruct (aliases fm) as [| v | l] eqn:Ha; [| | by destruct (Hna l)];
    by destruct (autoCreateFrontmatter st).
Qed.

(** Whatever [processAliases] leaves in an alias list was there before or is
    a name that survived the filters of the settlement. *)
Lemma processAliases_hasAlias st vault p queue p' name :
  hasAlias (processAliases st vault p queue) p' name ->
  hasAlias vault p' name \/
  (p' = p /\ exists n, vault !! p = Some n /\ name ∈ toAdd st (noteBasename n) queue).
Proof.
  intros (n' & l' & Hn' & Hl' & Hin). rewrite processAliases_lookup in Hn'.
  case_decide as Hd; [subst p'|left; by exists n', l'].
  destruct (vault !! p) as [n|] eqn:Hp; [|done]. injection Hn' as <-.
  cbn [frontmatter] in Hl'.
  destruct (toAdd st (noteBasename n) queue) as [|x xs] eqn:Hnames.
  { left. by exists n, l'. }
  rewrite <- Hnames in *. clear x xs Hnames.
  destruct (frontmatter n) as [al other] eqn:Hfm.
  destruct al as [| v | l].
  - rewrite updateAliases_not_array in Hl' by done.
    destruct (autoCreateFrontmatter st); [|done]. injection Hl' as <-.
    destruct (aliasesAfter_spec st (toAdd st (noteBasename n) queue) [])
      as (added & Heq & Hsub & _). rewrite Heq in Hin.
    right. split; [done|]. exists n. split; [done|].
    eapply sublist_subseteq; [exact Hsub | exact Hin].
  - rewrite updateAliases_not_array in Hl' by done.
    destruct (autoCreateFrontmatter st); [|done]. injection Hl' as <-.
    destruct (aliasesAfter_spec st (toAdd st (noteBasename n) queue) [])
      as (added & Heq & Hsub & _). rewrite Heq in Hin.
    right. split; [done|]. exists n. split; [done|].
    eapply sublist_subseteq; [exact Hsub | exact Hin].
  - rewrite updateAliases_array in Hl'. injection Hl' as <-.
    destruct (aliasesAfter_spec st (toAdd st (noteBasename n) queue) l)
      as (added & Heq & Hsub & _). rewrite Heq in Hin.
    apply elem_of_app in Hin as [Hin | Hin].
    + left. exists n, l. by rewrite Hfm.
    + right. split; [done|]. exists n. split; [done|].
      eapply sublist_subseteq; [exact Hsub | exact Hin].
Qed.

End AliasProcessor.

(** C5. A settlement against a file whose front matter has no alias list,
    or holds something that is not a list under the alias key, changes
    nothing when auto-create is off: the vault, and so the front matter, is
    what it was and no list is made. A value that is not a list is handled
    as a missing one, under either value of the auto-create setting. *)
Theorem no_write_without_alias_list `{Host} {T} (st : Settings T)
    (vault : gmap string Note) (p : string) (queue : list string) (n : Note) :
  vault !! p = Some n ->
  (forall l, aliases (frontmatter n) <> AliasArray l) ->
  autoCreateFrontmatter st = false ->
  processAliases st vault p queue = vault /\
  (forall names, updateAliases st names (frontmatter n) = frontmatter n) /\
  (forall (st' : Settings T) names v other,
     updateAliases st' names {| aliases := NotArray v; otherKeys := other |} =
     if autoCreateFrontmatter st'
     then updateAliases st' names {| aliases := Missing; otherKeys := other |}
     else {| aliases := NotArray v; otherKeys := other |}).
Proof.
  intros Hp Hna Hoff. split_and!.
  - apply map_eq. intros p'. rewrite processAliases_lookup.
    case_decide as Hd; [subst p'|done]. rewrite Hp. cbn. f_equal.
    destruct n as [b e fm]. cbn in *. f_equal.
    destruct (toAdd st b queue); [done|].
    rewrite updateAliases_not_array by done. by rewrite Hoff.
  - intros names. rewrite updateAliases_not_array by done. by rewrite Hoff.
  - intros st' names v other. unfold updateAliases. cbn.
    by destruct (autoCreateFrontmatter st').
Qed.

(** C10. A settlement against a file whose alias key holds a value that is
    not a list, with auto-create on and at least one surviving candidate,
    stores a new list under the key. The list is not empty, holds surviving
    candidates only, one for each of them up to the case normalisation, and
    is the list a missing key would have got: the value that was there is
    gone. *)
Theorem non_list_value_replaced `{Host} {T} (st : Settings T)
    (vault : gmap string Note) (p : string) (queue : list string) (n : Note)
    (v : string) :
  vault !! p = Some n ->
  aliases (frontmatter n) = NotArray v ->
  autoCreateFrontmatter st = true ->
  toAdd st (noteBasename n) queue <> [] ->
  let names := toAdd st (noteBasename n) queue in
  exists n' created,
    processAliases st vault p queue !! p = Some n' /\
    aliases (frontmatter n') = AliasArray created /\
    created = aliasesAfter st names [] /\
    created <> [] /\
    sublist created names /\
    (forall c, c ∈ created -> c ∈ names) /\
    (forall c, c ∈ names -> checkName st c ∈ checkName st <$> created) /\
    frontmatter n' =
      updateAliases st names {| aliases := Missing; otherKeys := otherKeys (frontmatter n) |}.
Proof.
  intros Hp Hv Hon. remember (toAdd st (noteBasename n) queue) as names eqn:Hnames.
  intros Hne names'. subst names'.
  destruct (aliasesAfter_spec st names []) as (added & Heq & Hsub & _ & _ & Hcov).
  cbn [app] in Heq, Hcov.
  exists {| noteBasename := noteBasename n; noteExtension := noteExtension n;
            frontmatter := updateAliases st names (frontmatter n) |},
         (aliasesAfter st names []).
  assert (updateAliases st names (frontmatter n) =
          {| aliases := AliasArray (aliasesAfter st names []);
             otherKeys := otherKeys (frontmatter n) |}) as Hupd.
  { rewrite updateAliases_not_array; [by rewrite Hon|]. intros l. by rewrite Hv. }
  split_and!.
  - rewrite processAliases_lookup. case_decide; [|done]. rewrite Hp. cbn.
    rewrite <- Hnames. by destruct names.
  - cbn [frontmatter]. by rewrite Hupd.
  - done.
  - rewrite Heq. destruct names as [|c rest]; [done|].
    intros ->. specialize (Hcov c (list_elem_of_here _ _)). by apply elem_of_nil in Hcov.
  - by rewrite Heq.
  - rewrite Heq. intros c Hc. eapply sublist_subseteq; [exact Hsub | exact Hc].
  - rewrite Heq. exact Hcov.
  - cbn [frontmatter]. rewrite Hupd.
    rewrite updateAliases_not_array by done. by rewrite Hon.
Qed.


(** ** The gates of [handleRename] *)

Section Gates.
Context `{Host}.

Lemma eitherMatches_false (regexes : list RegExp) (a b : string) :
  eitherMatches regexes a b = false ->
  matchesAny regexes a = false /\ matchesAny regexes b = false.
Proof.
  unfold eitherMatches, matchesAny. induction regexes as [|re rest IH]; [done|].
  cbn [existsb]. intros Hf. apply orb_false_iff in Hf as [Hre Hrest].
  apply orb_false_iff in Hre as [-> ->]. by destruct (IH Hrest) as [-> ->].
Qed.

Lemma truthyCandidate_Some (c x : string) :
  truthyCandidate c = Some x -> x = c /\ c <> "".
Proof. unfold truthyCandidate. destruct c; [done|]. by intros [= <-]. Qed.

Lemma truthyCandidate_nonempty (c : string) : c <> "" -> truthyCandidate c = Some c.
Proof. by destruct c. Qed.

(** What it takes for the first revision to reach the map. *)
Lemma accumulate_classify_Some (st : Settings bool) (f : TFile) (oldPath c : string) :
  Accumulate.classify st f oldPath = Some c ->
  includesString (fileExtensions st) (extension f) = true /\
  c <> "" /\ c = eventCandidate st f oldPath /\
  ((isNameChange st f oldPath = true /\ outOfScope st (path f) = false /\
    eitherMatches (compileRegexes (ignoreRegexes st))
      (getBasename oldPath) (basename f) = false) \/
   (isNameChange st f oldPath = false /\ isFolderChange st f oldPath = true /\
    trackFolderRenames st = true /\
    getImmediateParentName oldPath <> "" /\ getImmediateParentName (path f) <> "" /\
    eitherMatches (compileRegexes (ignoreRegexes st))
      (getImmediateParentName oldPath) (getImmediateParentName (path f)) = false)).
Proof.
  unfold Accumulate.classify, eventCandidate.
  destruct (includesString (fileExtensions st) (extension f)); [|done]. cbn [negb].
  destruct (isNameChange st f oldPath) eqn:Hn; cbn [negb andb].
  - destruct (outOfScope st (path f)); [done|].
    destruct (eitherMatches _ (getBasename oldPath) _) eqn:Hm; [done|].
    intros [-> ?]%truthyCandidate_Some. split_and!; try done. by left.
  - destruct (isFolderChange st f oldPath) eqn:Hf; [|done]. cbn [negb andb].
    destruct (trackFolderRenames st); [|done].
    destruct (String.eqb (getImmediateParentName oldPath) "") eqn:Ho; [done|].
    destruct (String.eqb (getImmediateParentName (path f)) "") eqn:Hnw; [done|].
    cbn [orb].
    destruct (eitherMatches _ (getImmediateParentName oldPath) _) eqn:Hm; [done|].
    intros [-> ?]%truthyCandidate_Some. apply String.eqb_neq in Ho, Hnw.
    split_and!; try done. by right.
Qed.

(** The same for the second revision. *)
Lemma stableName_classify_Some (st : Settings string) (f : TFile) (oldPath c : string) :
  StableName.classify st f oldPath = Some c ->
  includesString (fileExtensions st) (extension f) = true /\
  c <> "" /\ c = eventCandidate st f oldPath /\
  ((isNameChange st f oldPath = true /\ outOfScope st (path f) = false /\
    eitherMatches (compileRegexes (ignoreRegexes st))
      (getBasename oldPath) (basename f) = false) \/
   (isNameChange st f oldPath = false /\ isFolderChange st f oldPath = true /\
    StableName.matchesFilename st f = true /\
    getImmediateParentName oldPath <> "" /\ getImmediateParentName (path f) <> "" /\
    eitherMatches (compileRegexes (ignoreRegexes st))
      (getImmediateParentName oldPath) (getImmediateParentName (path f)) = false)).
Proof.
  unfold StableName.classify, eventCandidate.
  destruct (includesString (fileExtensions st) (extension f)); [|done]. cbn [negb].
  destruct (isNameChange st f oldPath) eqn:Hn; cbn [negb andb].
  - destruct (outOfScope st (path f)); [done|].
    destruct (eitherMatches _ (getBasename oldPath) _) eqn:Hm; [done|].
    intros [-> ?]%truthyCandidate_Some. split_and!; try done. by left.
  - destruct (isFolderChange st f oldPath) eqn:Hf; [|done]. cbn [negb andb].
    destruct (Js.truthy (trackFolderRenames st) && Js.trimNonEmpty (trackFolderRenames st));
      [|done].
    destruct (StableName.matchesFilename st f) eqn:Hmf; [|done]. cbn [negb].
    destruct (String.eqb (getImmediateParentName oldPath) "") eqn:Ho; [done|].
    destruct (String.eqb (getImmediateParentName (path f)) "") eqn:Hnw; [done|].
    cbn [orb].
    destruct (eitherMatches _ (getImmediateParentName oldPath) _) eqn:Hm; [done|].
    intros [-> ?]%truthyCandidate_Some. apply String.eqb_neq in Ho, Hnw.
    split_and!; try done. by right.
Qed.

(** No revision lets a candidate through that a compiled pattern matches. *)
Lemma accumulate_classify_not_ignored (st : Settings bool) (f : TFile) (oldPath c : string) :
  Accumulate.classify st f oldPath = Some c -> ~ ignored st c.
Proof.
  intros (_ & _ & -> & Hcase)%accumulate_classify_Some. unfold eventCandidate.
  rewrite <- matchesAny_ignored.
  destruct Hcase as [(-> & _ & Hm) | (-> & _ & _ & _ & _ & Hm)];
    apply eitherMatches_false in Hm as [-> _]; done.
Qed.

Lemma stableName_classify_not_ignored (st : Settings string) (f : TFile) (oldPath c : string) :
  StableName.classify st f oldPath = Some c -> ~ ignored st c.
Proof.
  intros (_ & _ & -> & Hcase)%stableName_classify_Some. unfold eventCandidate.
  rewrite <- matchesAny_ignored.
  destruct Hcase as [(-> & _ & Hm) | (-> & _ & _ & _ & _ & Hm)];
    apply eitherMatches_false in Hm as [-> _]; done.
Qed.

Lemma isNameChange_withFolders {T} (st : Settings T) inc exc f oldPath :
  isNameChange (withFolders inc exc st) f oldPath = isNameChange st f oldPath.
Proof. reflexivity. Qed.

Lemma isFolderChange_withFolders {T} (st : Settings T) inc exc f oldPath :
  isFolderChange (withFolders inc exc st) f oldPath = isFolderChange st f oldPath.
Proof. reflexivity. Qed.

Lemma onTimeout_hasAlias {T} (s : State T) (t : nat) (p name : string) :
  ignored (settings s) name ->
  hasAlias (vault (onTimeout t s)) p name -> hasAlias (vault s) p name.
Proof.
  intros Hign. unfold onTimeout.
  destruct (timers s !! t) as [a|]; [|done].
  destruct (heap s !! a) as [entry|]; [|done]. cbn [vault].
  intros [Hold | (_ & n & _ & Hin)]%processAliases_hasAlias; [done|].
  by apply toAdd_not_ignored in Hin.
Qed.

End Gates.

(** C6, as stated, fails when the rename also moves the file to a folder of
    another name: with case-sensitivity off the event is a folder change
    and, with folder tracking on, queues the old folder name. *)
Lemma case_only_rename_with_move_is_queued :
  ~ (forall (st : Settings bool) (f : TFile) (oldPath : string),
       toLowerCase (Host := exampleHost) (getBasename oldPath) =
         toLowerCase (Host := exampleHost) (basename f) ->
       getBasename oldPath <> basename f ->
       caseSensitive st = false ->
       Accumulate.classify (H := exampleHost) st f oldPath = None).
Proof.
  intros Hall.
  specialize (Hall (caseSettings false true) (mkFile "b/Note.md") "a/note.md").
  assert (Some "a" = None :> option string); [|done].
  apply Hall; [reflexivity | discriminate | reflexivity].
Qed.

(** C6 (amended). Take a rename whose old and new basenames differ only in
    letter case. With case-sensitivity off it is not a name change, and it
    is a no-op (discarded, the state untouched) when the immediate parent
    folder name is unchanged too. With case-sensitivity on it is a name
    change and not a folder change, the only candidate it can queue is the
    old basename, and that candidate is handed to the coordinator once the
    extension, scope and ignore gates are passed. *)
Theorem case_only_rename `{Host} (s : State bool) (f : TFile) (oldPath : string) :
  toLowerCase (getBasename oldPath) = toLowerCase (basename f) ->
  getBasename oldPath <> basename f ->
  (caseSensitive (settings s) = false ->
     isNameChange (settings s) f oldPath = false /\
     (getImmediateParentName oldPath = getImmediateParentName (path f) ->
        isFolderChange (settings s) f oldPath = false /\
        Accumulate.classify (settings s) f oldPath = None /\
        Accumulate.handleRename s (File f) oldPath = s)) /\
  (caseSensitive (settings s) = true ->
     isNameChange (settings s) f oldPath = true /\
     isFolderChange (settings s) f oldPath = false /\
     (forall c, Accumulate.classify (settings s) f oldPath = Some c ->
                c = getBasename oldPath) /\
     (includesString (fileExtensions (settings s)) (extension f) = true ->
      outOfScope (settings s) (path f) = false ->
      eitherMatches (compileRegexes (ignoreRegexes (settings s)))
        (getBasename oldPath) (basename f) = false ->
      getBasename oldPath <> "" ->
      Accumulate.handleRename s (File f) oldPath =
      Accumulate.enqueue s oldPath (path f) (getBasename oldPath))).
Proof.
  intros Hlow Hne. split; intros Hcs.
  - assert (isNameChange (settings s) f oldPath = false) as Hn.
    { unfold isNameChange. rewrite Hcs, Hlow. by rewrite String.eqb_refl. }
    split; [done|]. intros Hpar.
    assert (isFolderChange (settings s) f oldPath = false) as Hf.
    { unfold isFolderChange. by rewrite Hpar, String.eqb_refl. }
    assert (Accumulate.classify (settings s) f oldPath = None) as Hc.
    { unfold Accumulate.classify. rewrite Hn, Hf.
      by destruct (includesString _ _). }
    split_and!; try done. cbn. by rewrite Hc.
  - assert (isNameChange (settings s) f oldPath = true) as Hn.
    { unfold isNameChange. rewrite Hcs. apply negb_true_iff.
      by apply String.eqb_neq. }
    split_and!; try done.
    + unfold isFolderChange. rewrite Hn. apply andb_false_r.
    + intros c (_ & _ & -> & _)%accumulate_classify_Some.
      unfold eventCandidate. by rewrite Hn.
    + intros Hext Hscope Hm Hnz. cbn. unfold Accumulate.classify.
      rewrite Hext, Hn, Hscope, Hm. cbn. by rewrite truthyCandidate_nonempty.
Qed.

Lemma case_only_rename_witness :
  toLowerCase (Host := exampleHost) (getBasename "note.md") =
    toLowerCase (Host := exampleHost) (basename (mkFile "Note.md")) /\
  getBasename "note.md" <> basename (mkFile "Note.md") /\
  Accumulate.handleRename (H := exampleHost)
    (initialState (caseSettings true false) ∅) (File (mkFile "Note.md")) "note.md" =
  Accumulate.enqueue (initialState (caseSettings true false) ∅) "note.md" "Note.md" "note".
Proof.
  split; [reflexivity|]. split; [discriminate|].
  destruct (case_only_rename (H := exampleHost)
              (initialState (caseSettings true false) ∅) (mkFile "Note.md") "note.md"
              eq_refl ltac:(discriminate)) as [_ Hon].
  destruct (Hon eq_refl) as (_ & _ & _ & Hq).
  apply Hq; [reflexivity | reflexivity | reflexivity | discriminate].
Defined.

(** The second revision classifies a case-only rename in the same way. *)
Lemma stableName_case_only_rename `{Host} (s : State string) (f : TFile) (oldPath : string) :
  toLowerCase (getBasename oldPath) = toLowerCase (basename f) ->
  getBasename oldPath <> basename f ->
  (caseSensitive (settings s) = false ->
     getImmediateParentName oldPath = getImmediateParentName (path f) ->
     StableName.handleRename s (File f) oldPath = s) /\
  (caseSensitive (settings s) = true ->
     isNameChange (settings s) f oldPath = true /\
     forall c, StableName.classify (settings s) f oldPath = Some c ->
               c = getBasename oldPath).
Proof.
  intros Hlow Hne. split; intros Hcs.
  - intros Hpar.
    assert (isNameChange (settings s) f oldPath = false) as Hn.
    { unfold isNameChange. rewrite Hcs, Hlow. by rewrite String.eqb_refl. }
    assert (isFolderChange (settings s) f oldPath = false) as Hf.
    { unfold isFolderChange. by rewrite Hpar, String.eqb_refl. }
    cbn. unfold StableName.classify. rewrite Hn, Hf.
    by destruct (includesString _ _).
  - assert (isNameChange (settings s) f oldPath = true) as Hn.
    { unfold isNameChange. rewrite Hcs. apply negb_true_iff.
      by apply String.eqb_neq. }
    split; [done|].
    intros c (_ & _ & -> & _)%stableName_classify_Some.
    unfold eventCandidate. by rewrite Hn.
Qed.


(** The second revision has the same guard around the scope checks. *)
Lemma stableName_folder_change_bypasses_scope `{Host} (st : Settings string) (f : TFile)
    (oldPath : string) :
  isFolderChange st f oldPath = true ->
  forall includes excludes,
    StableName.classify (withFolders includes excludes st) f oldPath =
    StableName.classify st f oldPath.
Proof.
  intros Hf includes excludes. unfold StableName.classify.
  rewrite isNameChange_withFolders, isFolderChange_withFolders, Hf.
  assert (isNameChange st f oldPath = false) as ->.
  { unfold isFolderChange in Hf. apply andb_true_iff in Hf as [_ Hn].
    by apply negb_true_iff in Hn. }
  reflexivity.
Qed.

(** C4. A candidate that matches a configured ignore pattern which compiles
    is never written to an alias list. At enqueue time the handler returns
    before it touches the map when the candidate of the event matches; at
    settlement time a queued name that matches is dropped, so that what a
    settlement leaves in any alias list was there before. The settlement
    reads the patterns in force when the timeout expires: a pattern saved
    after the rename and before the timeout suppresses the candidate. *)
Theorem ignored_candidate_never_written `{Host} (st : Settings bool) (name : string) :
  ignored st name ->
  (forall f oldPath, Accumulate.classify st f oldPath <> Some name) /\
  (forall s f oldPath, settings s = st -> eventCandidate st f oldPath = name ->
     Accumulate.handleRename s (File f) oldPath = s) /\
  (forall cb queue, name ∉ toAdd st cb queue) /\
  (forall vault p queue p',
     hasAlias (processAliases st vault p queue) p' name -> hasAlias vault p' name) /\
  (forall s t p', settings s = st ->
     hasAlias (vault (onTimeout t s)) p' name -> hasAlias (vault s) p' name) /\
  (forall s0 newFile oldPath t p',
     hasAlias (vault (run Accumulate.handleRename s0
                        [Rename newFile oldPath; SaveSettings st; Timeout t])) p' name ->
     hasAlias (vault s0) p' name).
Proof.
  intros Hign. split_and!.
  - intros f oldPath Hc. by apply accumulate_classify_not_ignored in Hc.
  - intros s f oldPath <- Hcand. cbn.
    destruct (Accumulate.classify (settings s) f oldPath) as [c|] eqn:Hc; [|done].
    pose proof (accumulate_classify_not_ignored _ _ _ _ Hc) as Hnot.
    apply accumulate_classify_Some in Hc as (_ & _ & -> & _). by rewrite Hcand in Hnot.
  - intros cb queue Hin. by apply toAdd_not_ignored in Hin.
  - intros vault p queue p' [Hold | (_ & n & _ & Hin)]%processAliases_hasAlias; [done|].
    by apply toAdd_not_ignored in Hin.
  - intros s t p' <-. by apply onTimeout_hasAlias.
  - intros s0 newFile oldPath t p'. cbn [run fold_left step].
    intros Hh. apply onTimeout_hasAlias in Hh; [|done]. cbn [vault] in Hh.
    destruct newFile as [f|d]; [|done]. cbn in Hh.
    destruct (Accumulate.classify (settings s0) f oldPath); [|done].
    unfold Accumulate.enqueue in Hh.
    destruct (debounceMap s0 !! oldPath) as [a|]; [|done].
    by destruct (heap s0 !! a).
Qed.

(** The handler leaves the vault and the settings alone. *)
Lemma handleRename_vault_settings `{Host} {T} (r : Revision T) (s : State T)
    (newFile : TAbstractFile) (oldPath : string) :
  vault (handleRenameOf r s newFile oldPath) = vault s /\
  settings (handleRenameOf r s newFile oldPath) = settings s.
Proof.
  destruct r; (destruct newFile as [f|d]; [|done]); cbn.
  - destruct (Accumulate.classify (settings s) f oldPath); [|done].
    unfold Accumulate.enqueue.
    destruct (debounceMap s !! oldPath) as [a|]; [|done].
    by destruct (heap s !! a).
  - destruct (StableName.classify (settings s) f oldPath); [|done].
    by unfold StableName.enqueue.
Qed.

(** Along any run of either revision in which the name stays ignored and
    the host does not rewrite the vault, the name enters no alias list. *)
Lemma ignored_name_stays_out `{Host} {T} (r : Revision T) (name p : string)
    (evs : list (Event T)) (s : State T) :
  ignored (settings s) name ->
  Forall (fun ev => match ev with
                    | SaveSettings st => ignored st name
                    | VaultChange _ => False
                    | _ => True
                    end) evs ->
  hasAlias (vault (run (handleRenameOf r) s evs)) p name -> hasAlias (vault s) p name.
Proof.
  revert s. induction evs as [|ev evs IH]; intros s Hign Hall; [done|].
  apply Forall_cons in Hall as [Hev Hall]. cbn [run fold_left].
  intros Hh. destruct ev as [newFile oldPath | t | st | v |]; cbn [step] in Hh.
  - destruct (handleRename_vault_settings r s newFile oldPath) as [Hv Hs].
    rewrite <- Hv. apply IH; [by rewrite Hs | done | done].
  - apply (onTimeout_hasAlias s t); [done|].
    apply IH; [|done|done]. unfold onTimeout.
    destruct (timers s !! t) as [a|]; [|done]. by destruct (heap s !! a).
  - by apply IH in Hh.
  - done.
  - by apply IH in Hh.
Qed.

(** The gate of the second revision refuses ignored candidates too. *)
Lemma stableName_ignored_candidate_refused `{Host} (st : Settings string) (name : string) :
  ignored st name ->
  (forall f oldPath, StableName.classify st f oldPath <> Some name) /\
  (forall s0 newFile oldPath t p',
     hasAlias (vault (run StableName.handleRename s0
                        [Rename newFile oldPath; SaveSettings st; Timeout t])) p' name ->
     hasAlias (vault s0) p' name).
Proof.
  intros Hign. split.
  - intros f oldPath Hc. by apply stableName_classify_not_ignored in Hc.
  - intros s0 newFile oldPath t p'. cbn [run fold_left step].
    intros Hh. apply onTimeout_hasAlias in Hh; [|done]. cbn [vault] in Hh.
    destruct newFile as [f|d]; [|done]. cbn in Hh.
    by destruct (StableName.classify (settings s0) f oldPath).
Qed.

(** ** The debounce coordinator *)

Section Coordinator.
Context {T : Type}.
Implicit Types (s : State T) (e : Entry) (p k : string) (a t : nat).

Lemma wf_initialState (st : Settings T) (v : gmap string Note) : wf (initialState st v).
Proof.
  split; cbn.
  - intros p a Hp. by rewrite lookup_empty in Hp.
  - intros t a Ht. by rewrite lookup_empty in Ht.
  - intros t [a Ht]. by rewrite lookup_empty in Ht.
  - intros a [e Ha]. by rewrite lookup_empty in Ha.
Qed.

(** The next handle and the next address are not in use. *)
Lemma wf_fresh_timer s : wf s -> timers s !! nextTimer s = None.
Proof.
  intros Hwf. destruct (timers s !! nextTimer s) eqn:Hh; [|done].
  pose proof (wf_nextTimer s Hwf (nextTimer s)) as Hlt. rewrite Hh in Hlt.
  specialize (Hlt (mk_is_Some _ _ eq_refl)). lia.
Qed.

Lemma wf_fresh_entry s : wf s -> heap s !! nextEntry s = None.
Proof.
  intros Hwf. destruct (heap s !! nextEntry s) eqn:Hh; [|done].
  pose proof (wf_nextEntry s Hwf (nextEntry s)) as Hlt. rewrite Hh in Hlt.
  specialize (Hlt (mk_is_Some _ _ eq_refl)). lia.
Qed.

(** Arming a timeout for an entry stored under a path that holds nothing. *)
Lemma wf_arm_fresh s newPath a e ne :
  wf s ->
  debounceMap s !! newPath = None ->
  heap s !! a = None -> a < ne -> nextEntry s <= ne ->
  currentPath e = newPath -> timeoutId e = Some (nextTimer s) -> queue e <> [] ->
  wf {| settings := settings s; vault := vault s;
        heap := <[a := e]> (heap s);
        debounceMap := <[newPath := a]> (debounceMap s);
        timers := <[nextTimer s := a]> (timers s);
        nextTimer := S (nextTimer s); nextEntry := ne; settled := settled s |}.
Proof.
  intros [Hm Ht Hnt Hne] Hnew Ha Hlt Hle Hcp Htid Hq. split; cbn.
  - intros p a1. destruct (decide (p = newPath)) as [->|Hp].
    + rewrite lookup_insert_eq. intros [= <-]. exists e, (nextTimer s).
      by rewrite !lookup_insert_eq.
    + rewrite lookup_insert_ne by done. intros Hp1.
      destruct (Hm p a1 Hp1) as (e1 & t1 & He1 & Hc1 & Ht1 & Htm1 & Hq1).
      exists e1, t1. rewrite !lookup_insert_ne; [done| |congruence].
      intros <-. specialize (Hnt (nextTimer s)). rewrite Htm1 in Hnt.
      specialize (Hnt (mk_is_Some _ _ eq_refl)). lia.
  - intros t a1. destruct (decide (t = nextTimer s)) as [->|Hneq].
    + rewrite lookup_insert_eq. intros [= <-]. exists e.
      by rewrite Hcp, !lookup_insert_eq.
    + rewrite lookup_insert_ne by done. intros Ht1.
      destruct (Ht t a1 Ht1) as (e1 & He1 & Htid1 & Hmap1).
      exists e1. rewrite !lookup_insert_ne; [done|congruence|congruence].
  - intros t Hsome. destruct (decide (t = nextTimer s)) as [->|Hneq]; [lia|].
    rewrite lookup_insert_ne in Hsome by done. specialize (Hnt t Hsome). lia.
  - intros a1 Hsome. destruct (decide (a1 = a)) as [->|Hneq]; [lia|].
    rewrite lookup_insert_ne in Hsome by done. specialize (Hne a1 Hsome). lia.
Qed.

(** Re-arming for an entry found under [k]: its timeout is cleared, its key
    deleted, and the entry that replaces it (the same object or a new one)
    is stored under [newPath], which is [k] or holds nothing. *)
Lemma wf_arm_rekey s k a0 e0 t0 newPath a e ne :
  wf s ->
  debounceMap s !! k = Some a0 -> heap s !! a0 = Some e0 -> timeoutId e0 = Some t0 ->
  (k = newPath \/ debounceMap s !! newPath = None) ->
  (a = a0 \/ heap s !! a = None) -> a < ne -> nextEntry s <= ne ->
  currentPath e = newPath -> timeoutId e = Some (nextTimer s) -> queue e <> [] ->
  wf {| settings := settings s; vault := vault s;
        heap := <[a := e]> (heap s);
        debounceMap := <[newPath := a]> (delete k (debounceMap s));
        timers := <[nextTimer s := a]> (delete t0 (timers s));
        nextTimer := S (nextTimer s); nextEntry := ne; settled := settled s |}.
Proof.
  intros [Hm Ht Hnt Hne] Hk He0 Ht0 Hnew Ha Hlt Hle Hcp Htid Hq.
  destruct (Hm k a0 Hk) as (e0' & t0' & He0' & Hc0 & Ht0' & Htm0 & _).
  rewrite He0 in He0'. injection He0' as <-. rewrite Ht0 in Ht0'. injection Ht0' as <-.
  assert (forall p a1, p <> k -> debounceMap s !! p = Some a1 -> a1 <> a0) as Hother.
  { intros p a1 Hpk Hp1 ->. destruct (Hm p a0 Hp1) as (e1 & ? & He1 & Hc1 & _).
    congruence. }
  split; cbn.
  - intros p a1. destruct (decide (p = newPath)) as [->|Hp].
    + rewrite lookup_insert_eq. intros [= <-]. exists e, (nextTimer s).
      by rewrite !lookup_insert_eq.
    + rewrite lookup_insert_ne by done.
      destruct (decide (p = k)) as [->|Hpk]; [by rewrite lookup_delete_eq|].
      rewrite lookup_delete_ne by done. intros Hp1.
      destruct (Hm p a1 Hp1) as (e1 & t1 & He1 & Hc1 & Ht1 & Htm1 & Hq1).
      pose proof (Hother p a1 Hpk Hp1) as Hne10.
      assert (a1 <> a) as Hne1.
      { destruct Ha as [->|Ha]; [done|congruence]. }
      exists e1, t1. rewrite lookup_insert_ne by done.
      rewrite lookup_insert_ne, lookup_delete_ne; [done| |].
      * intros <-. congruence.
      * intros <-. specialize (Hnt (nextTimer s)). rewrite Htm1 in Hnt.
        specialize (Hnt (mk_is_Some _ _ eq_refl)). lia.
  - intros t a1. destruct (decide (t = nextTimer s)) as [->|Hneq].
    + rewrite lookup_insert_eq. intros [= <-]. exists e.
      by rewrite Hcp, !lookup_insert_eq.
    + rewrite lookup_insert_ne by done.
      destruct (decide (t = t0)) as [->|Hneq0]; [by rewrite lookup_delete_eq|].
      rewrite lookup_delete_ne by done. intros Ht1.
      destruct (Ht t a1 Ht1) as (e1 & He1 & Htid1 & Hmap1).
      assert (a1 <> a0) as Hne10 by congruence.
      assert (a1 <> a) as Hne1.
      { destruct Ha as [->|Ha]; [done|congruence]. }
      assert (currentPath e1 <> k) as Hck by congruence.
      assert (currentPath e1 <> newPath) as Hcn.
      { destruct Hnew as [<-|Hnone]; [done|congruence]. }
      exists e1. rewrite lookup_insert_ne by done.
      by rewrite lookup_insert_ne, lookup_delete_ne.
  - intros t Hsome. destruct (decide (t = nextTimer s)) as [->|Hneq]; [lia|].
    rewrite lookup_insert_ne in Hsome by done.
    destruct (decide (t = t0)) as [->|Hneq0]; [by rewrite lookup_delete_eq in Hsome; destruct Hsome|].
    rewrite lookup_delete_ne in Hsome by done. specialize (Hnt t Hsome). lia.
  - intros a1 Hsome. destruct (decide (a1 = a)) as [->|Hneq]; [lia|].
    rewrite lookup_insert_ne in Hsome by done. specialize (Hne a1 Hsome). lia.
Qed.

Lemma setAdd_not_nil (c : string) (q : list string) : setAdd c q <> [].
Proof.
  unfold setAdd. case_bool_decide as Hin; [|by destruct q].
  intros ->. by apply elem_of_nil in Hin.
Qed.

(** The two shapes of the state after [enqueue] in the first revision. *)
Lemma accumulate_enqueue_shape s oldPath newPath c :
  wf s ->
  (exists a0 e0 t0,
     debounceMap s !! oldPath = Some a0 /\ heap s !! a0 = Some e0 /\
     timeoutId e0 = Some t0 /\
     Accumulate.enqueue s oldPath newPath c =
     {| settings := settings s; vault := vault s;
        heap := <[a0 := {| queue := setAdd c (queue e0);
                           timeoutId := Some (nextTimer s);
                           currentPath := newPath |}]> (heap s);
        debounceMap := <[newPath := a0]> (delete oldPath (debounceMap s));
        timers := <[nextTimer s := a0]> (delete t0 (timers s));
        nextTimer := S (nextTimer s); nextEntry := nextEntry s;
        settled := settled s |}) \/
  (debounceMap s !! oldPath = None /\
   Accumulate.enqueue s oldPath newPath c =
   {| settings := settings s; vault := vault s;
      heap := <[nextEntry s := {| queue := setAdd c [];
                                  timeoutId := Some (nextTimer s);
                                  currentPath := newPath |}]> (heap s);
      debounceMap := <[newPath := nextEntry s]> (debounceMap s);
      timers := <[nextTimer s := nextEntry s]> (timers s);
      nextTimer := S (nextTimer s); nextEntry := S (nextEntry s);
      settled := settled s |}).
Proof.
  intros Hwf. unfold Accumulate.enqueue.
  destruct (debounceMap s !! oldPath) as [a0|] eqn:Hold; [left | by right].
  destruct (wf_map s Hwf oldPath a0 Hold) as (e0 & t0 & He0 & _ & Ht0 & _).
  exists a0, e0, t0. rewrite He0. split_and!; try done.
  by rewrite Ht0.
Qed.

(** The two shapes of the state after [enqueue] in the second revision. *)
Lemma stableName_enqueue_shape s oldPath newPath c :
  wf s ->
  (exists k a0 e0 t0,
     (k = newPath \/ (debounceMap s !! newPath = None /\ k = oldPath)) /\
     StableName.findExisting s oldPath newPath = Some a0 /\
     debounceMap s !! k = Some a0 /\ heap s !! a0 = Some e0 /\
     timeoutId e0 = Some t0 /\
     StableName.enqueue s oldPath newPath c =
     {| settings := settings s; vault := vault s;
        heap := <[nextEntry s := {| queue := [StableName.stableName e0 c];
                                    timeoutId := Some (nextTimer s);
                                    currentPath := newPath |}]> (heap s);
        debounceMap := <[newPath := nextEntry s]> (delete k (debounceMap s));
        timers := <[nextTimer s := nextEntry s]> (delete t0 (timers s));
        nextTimer := S (nextTimer s); nextEntry := S (nextEntry s);
        settled := settled s |}) \/
  (debounceMap s !! newPath = None /\ debounceMap s !! oldPath = None /\
   StableName.enqueue s oldPath newPath c =
   {| settings := settings s; vault := vault s;
      heap := <[nextEntry s := {| queue := [c];
                                  timeoutId := Some (nextTimer s);
                                  currentPath := newPath |}]> (heap s);
      debounceMap := <[newPath := nextEntry s]> (debounceMap s);
      timers := <[nextTimer s := nextEntry s]> (timers s);
      nextTimer := S (nextTimer s); nextEntry := S (nextEntry s);
      settled := settled s |}).
Proof.
  intros Hwf. unfold StableName.enqueue, StableName.findExisting, StableName.mapAfterSearch.
  destruct (debounceMap s !! newPath) as [a0|] eqn:Hnew.
  - left. destruct (wf_map s Hwf newPath a0 Hnew) as (e0 & t0 & He0 & _ & Ht0 & _).
    exists newPath, a0, e0, t0. cbn. rewrite He0, Ht0. cbn.
    split_and!; try done; [by left|]. by rewrite insert_delete_eq.
  - destruct (debounceMap s !! oldPath) as [a0|] eqn:Hold.
    + left. destruct (wf_map s Hwf oldPath a0 Hold) as (e0 & t0 & He0 & _ & Ht0 & _).
      exists oldPath, a0, e0, t0. cbn. rewrite He0, Ht0. cbn.
      split_and!; try done. by right.
    + right. by cbn.
Qed.

Lemma accumulate_enqueue_wf s oldPath newPath c :
  wf s -> (newPath = oldPath \/ debounceMap s !! newPath = None) ->
  wf (Accumulate.enqueue s oldPath newPath c).
Proof.
  intros Hwf Hfree.
  destruct (accumulate_enqueue_shape s oldPath newPath c Hwf)
    as [(a0 & e0 & t0 & Hold & He0 & Ht0 & ->) | (Hold & ->)].
  - eapply wf_arm_rekey; eauto using setAdd_not_nil.
    + destruct Hfree as [->|?]; auto.
    + apply (wf_nextEntry s Hwf). by rewrite He0.
  - apply wf_arm_fresh; auto using setAdd_not_nil.
    + destruct Hfree as [->|?]; auto.
    + by apply wf_fresh_entry.
Qed.

Lemma stableName_enqueue_wf s oldPath newPath c :
  wf s -> wf (StableName.enqueue s oldPath newPath c).
Proof.
  intros Hwf.
  pose proof (wf_fresh_entry s Hwf) as Hfresh.
  destruct (stableName_enqueue_shape s oldPath newPath c Hwf)
    as [(k & a0 & e0 & t0 & Hk & _ & Hka & He0 & Ht0 & ->) | (Hnew & Hold & ->)].
  - eapply wf_arm_rekey; eauto.
    destruct Hk as [->|[? _]]; auto.
  - apply wf_arm_fresh; auto.
Qed.

(** After [enqueue] the new path holds an entry, the old path holds none,
    and a path that held none still holds none. *)
Lemma accumulate_enqueue_map s oldPath newPath c :
  wf s ->
  let s' := Accumulate.enqueue s oldPath newPath c in
  is_Some (debounceMap s' !! newPath) /\
  (forall p, p <> newPath -> p = oldPath \/ debounceMap s !! p = None ->
             debounceMap s' !! p = None) /\
  settled s' = settled s /\ settings s' = settings s /\ vault s' = vault s.
Proof.
  intros Hwf.
  destruct (accumulate_enqueue_shape s oldPath newPath c Hwf)
    as [(a0 & e0 & t0 & Hold & He0 & Ht0 & ->) | (Hold & ->)]; cbn.
  - split_and!; try done; [by rewrite lookup_insert_eq|].
    intros p Hp Hcase. rewrite lookup_insert_ne by done.
    destruct Hcase as [->|Hnone]; [by rewrite lookup_delete_eq|].
    destruct (decide (p = oldPath)) as [->|?]; [by rewrite lookup_delete_eq|].
    by rewrite lookup_delete_ne.
  - split_and!; try done; [by rewrite lookup_insert_eq|].
    intros p Hp Hcase. rewrite lookup_insert_ne by done.
    by destruct Hcase as [->|Hnone].
Qed.

Lemma stableName_enqueue_map s oldPath newPath c :
  wf s -> (newPath = oldPath \/ debounceMap s !! newPath = None) ->
  let s' := StableName.enqueue s oldPath newPath c in
  is_Some (debounceMap s' !! newPath) /\
  (forall p, p <> newPath -> p = oldPath \/ debounceMap s !! p = None ->
             debounceMap s' !! p = None) /\
  settled s' = settled s /\ settings s' = settings s /\ vault s' = vault s.
Proof.
  intros Hwf Hfree.
  destruct (stableName_enqueue_shape s oldPath newPath c Hwf)
    as [(k & a0 & e0 & t0 & Hk & _ & Hka & He0 & Ht0 & ->) | (Hnew & Hold & ->)]; cbn.
  - split_and!; try done; [by rewrite lookup_insert_eq|].
    intros p Hp Hcase. rewrite lookup_insert_ne by done.
    destruct (decide (p = k)) as [->|Hpk]; [by rewrite lookup_delete_eq|].
    rewrite lookup_delete_ne by done.
    destruct Hcase as [->|Hnone]; [|done].
    destruct Hk as [->|[Hnew ->]]; [|done].
    destruct Hfree as [->|Hnone]; [done|congruence].
  - split_and!; try done; [by rewrite lookup_insert_eq|].
    intros p Hp Hcase. rewrite lookup_insert_ne by done.
    by destruct Hcase as [->|Hnone].
Qed.

(** [enqueue] touches the map under the old and the new path only. *)
Lemma accumulate_enqueue_frame s oldPath newPath c p :
  wf s -> p <> newPath -> p <> oldPath ->
  debounceMap (Accumulate.enqueue s oldPath newPath c) !! p = debounceMap s !! p.
Proof.
  intros Hwf Hn Ho.
  destruct (accumulate_enqueue_shape s oldPath newPath c Hwf)
    as [(a0 & e0 & t0 & Hold & He0 & Ht0 & ->) | (Hold & ->)]; cbn.
  - by rewrite lookup_insert_ne, lookup_delete_ne.
  - by rewrite lookup_insert_ne.
Qed.

Lemma stableName_enqueue_frame s oldPath newPath c p :
  wf s -> p <> newPath -> p <> oldPath ->
  debounceMap (StableName.enqueue s oldPath newPath c) !! p = debounceMap s !! p.
Proof.
  intros Hwf Hn Ho.
  destruct (stableName_enqueue_shape s oldPath newPath c Hwf)
    as [(k & a0 & e0 & t0 & Hk & _ & Hka & He0 & Ht0 & ->) | (Hnew & Hold & ->)]; cbn.
  - rewrite lookup_insert_ne by done. apply lookup_delete_ne.
    destruct Hk as [->|[_ ->]]; done.
  - by rewrite lookup_insert_ne.
Qed.

End Coordinator.

Section Expiry.
Context `{Host} {T : Type}.
Implicit Types (s : State T) (e : Entry) (p : string) (a t : nat) (W : string -> Prop).

Lemma size_delete_Some {A} (m : gmap nat A) (k : nat) (x : A) :
  m !! k = Some x -> size m = S (size (delete k m)).
Proof.
  intros Hk. rewrite <- (insert_delete_id m k x Hk) at 1.
  by rewrite map_size_insert_None by apply lookup_delete_eq.
Qed.

Lemma size_delete_Some_str {A} (m : gmap string A) (k : string) (x : A) :
  m !! k = Some x -> size m = S (size (delete k m)).
Proof.
  intros Hk. rewrite <- (insert_delete_id m k x Hk) at 1.
  by rewrite map_size_insert_None by apply lookup_delete_eq.
Qed.

Lemma onTimeout_unarmed s t : timers s !! t = None -> onTimeout t s = s.
Proof. intros Ht. unfold onTimeout. by rewrite Ht. Qed.

Lemma wf_onTimeout s t : wf s -> wf (onTimeout t s).
Proof.
  intros Hwf. unfold onTimeout.
  destruct (timers s !! t) as [a|] eqn:Ht; [|done].
  destruct (wf_timers s Hwf t a Ht) as (e & He & Htid & Hmap). rewrite He.
  destruct Hwf as [Hm Htm Hnt Hne]. split; cbn.
  - intros p a1. destruct (decide (p = currentPath e)) as [->|Hp];
      [by rewrite lookup_delete_eq|].
    rewrite lookup_delete_ne by done. intros Hp1.
    destruct (Hm p a1 Hp1) as (e1 & t1 & He1 & Hc1 & Ht1 & Htm1 & Hq1).
    exists e1, t1. rewrite lookup_delete_ne; [done|]. intros <-. congruence.
  - intros t1 a1. destruct (decide (t1 = t)) as [->|Hneq];
      [by rewrite lookup_delete_eq|].
    rewrite lookup_delete_ne by done. intros Ht1.
    destruct (Htm t1 a1 Ht1) as (e1 & He1 & Htid1 & Hmap1).
    exists e1. rewrite lookup_delete_ne; [done|]. intros Heq. congruence.
  - intros t1 Hsome. destruct (decide (t1 = t)) as [->|Hneq].
    + rewrite lookup_delete_eq in Hsome. by destruct Hsome.
    + rewrite lookup_delete_ne in Hsome by done. by apply Hnt.
  - done.
Qed.

Lemma run_app (handle : State T -> TAbstractFile -> string -> State T) s
    (evs1 evs2 : list (Event T)) :
  run handle s (evs1 ++ evs2) = run handle (run handle s evs1) evs2.
Proof. apply fold_left_app. Qed.

(** Timeouts that expire while no path of [W] holds an entry settle nothing
    at a path of [W]. *)
Lemma expire_untracked handle W (ts : list nat) s :
  wf s -> (forall p, W p -> debounceMap s !! p = None) ->
  exists calls,
    settled (run handle s (Timeout <$> ts)) = settled s ++ calls /\
    forall call, call ∈ calls -> ~ W call.1.
Proof.
  revert s. induction ts as [|t ts IH]; intros s Hwf Hfree.
  - exists []. split; [by rewrite app_nil_r|]. intros call Hc. by apply elem_of_nil in Hc.
  - cbn [fmap list_fmap run fold_left step].
    destruct (IH (onTimeout t s)) as (calls & Heq & Hcalls).
    { by apply wf_onTimeout. }
    { intros p Hp. unfold onTimeout. destruct (timers s !! t) as [a|]; [|by apply Hfree].
      destruct (heap s !! a) as [e|]; [|by apply Hfree]. cbn.
      destruct (decide (p = currentPath e)) as [->|?]; [by rewrite lookup_delete_eq|].
      rewrite lookup_delete_ne by done. by apply Hfree. }
    unfold run in Heq. rewrite Heq. unfold onTimeout.
    destruct (timers s !! t) as [a|] eqn:Ht; [|by exists calls].
    destruct (wf_timers s Hwf t a Ht) as (e & He & Htid & Hmap). rewrite He. cbn.
    exists ((currentPath e, queue e) :: calls). split; [by rewrite <- app_assoc|].
    intros call [->|Hc]%elem_of_cons; [|by apply Hcalls].
    cbn. intros HW. specialize (Hfree _ HW). congruence.
Qed.

(** When one path [cur] of [W] holds an entry and the others hold none, the
    expiry of the armed timeouts settles once at a path of [W]: at [cur],
    with the queue of that entry. *)
Lemma expire_tracked handle W (ts : list nat) s cur a e t :
  wf s -> W cur ->
  debounceMap s !! cur = Some a -> heap s !! a = Some e -> timeoutId e = Some t ->
  (forall p, W p -> p <> cur -> debounceMap s !! p = None) ->
  t ∈ ts ->
  exists before after,
    settled (run handle s (Timeout <$> ts)) =
      settled s ++ before ++ (cur, queue e) :: after /\
    (forall call, call ∈ before -> ~ W call.1) /\
    (forall call, call ∈ after -> ~ W call.1).
Proof.
  revert s. induction ts as [|t1 ts IH]; intros s Hwf Hcur Hmap He Htid Hfree Hin.
  { by apply elem_of_nil in Hin. }
  destruct (wf_map s Hwf cur a Hmap) as (e' & t' & He' & Hce & Hte & Htm & _).
  rewrite He in He'. injection He' as <-. rewrite Htid in Hte. injection Hte as <-.
  cbn [fmap list_fmap run fold_left step].
  destruct (decide (t1 = t)) as [->|Hneq].
  - destruct (expire_untracked handle W ts (onTimeout t s)) as (calls & Heq & Hcalls).
    { by apply wf_onTimeout. }
    { intros p Hp. unfold onTimeout. rewrite Htm, He. cbn. rewrite Hce.
      destruct (decide (p = cur)) as [->|?]; [by rewrite lookup_delete_eq|].
      rewrite lookup_delete_ne by done. by apply Hfree. }
    exists [], calls. unfold run in Heq. rewrite Heq. unfold onTimeout.
    rewrite Htm, He. cbn. rewrite Hce, <- app_assoc. split_and!; try done.
    intros call Hc. by apply elem_of_nil in Hc.
  - apply elem_of_cons in Hin as [?|Hin]; [done|].
    destruct (timers s !! t1) as [a1|] eqn:Ht1.
    + destruct (wf_timers s Hwf t1 a1 Ht1) as (e1 & He1 & Htid1 & Hmap1).
      assert (currentPath e1 <> cur) as Hne1.
      { intros Heq. rewrite Heq in Hmap1. congruence. }
      destruct (IH (onTimeout t1 s)) as (before & after & Heq & Hb & Ha).
      * by apply wf_onTimeout.
      * done.
      * unfold onTimeout. rewrite Ht1, He1. cbn. by rewrite lookup_delete_ne.
      * unfold onTimeout. rewrite Ht1, He1. by cbn.
      * done.
      * intros p Hp Hpc. unfold onTimeout. rewrite Ht1, He1. cbn.
        destruct (decide (p = currentPath e1)) as [->|?]; [by rewrite lookup_delete_eq|].
        rewrite lookup_delete_ne by done. by apply Hfree.
      * done.
      * exists ((currentPath e1, queue e1) :: before), after.
        unfold run in Heq. rewrite Heq. unfold onTimeout at 1.
        rewrite Ht1, He1. cbn. rewrite <- app_assoc. split_and!; try done.
        intros call [->|Hc]%elem_of_cons; [|by apply Hb].
        cbn. intros HW. specialize (Hfree _ HW Hne1). congruence.
    + rewrite (onTimeout_unarmed s t1 Ht1). by apply IH.
Qed.

Lemma settledAt_none (paths : list string) (calls : list (string * list string)) :
  (forall call, call ∈ calls -> ~ call.1 ∈ paths) -> settledAt paths calls = [].
Proof.
  induction calls as [|call calls IH]; [done|]. intros Hall. cbn.
  rewrite bool_decide_eq_false_2 by (apply Hall; by left).
  apply IH. intros c Hc. apply Hall. by right.
Qed.

Lemma finalPath_cons (p0 : string) (f : TFile) (fs : list TFile) :
  finalPath p0 (f :: fs) = finalPath (path f) fs.
Proof.
  unfold finalPath. cbn [fmap list_fmap]. rewrite last_cons.
  by destruct (last (path <$> fs)).
Qed.

Lemma accumulate_step (s : State bool) (f : TFile) (old : string) :
  wf s -> accepts FirstRevision (settings s) f old = true ->
  (path f = old \/ debounceMap s !! path f = None) ->
  let s' := Accumulate.handleRename s (File f) old in
  wf s' /\ is_Some (debounceMap s' !! path f) /\
  (forall p, p <> path f -> p = old \/ debounceMap s !! p = None ->
             debounceMap s' !! p = None) /\
  settled s' = settled s.
Proof.
  intros Hwf Hacc Hfree. unfold accepts in Hacc. cbn in *.
  destruct (Accumulate.classify (settings s) f old) as [c|]; [|done].
  destruct (accumulate_enqueue_map s old (path f) c Hwf) as (? & ? & ? & _).
  split_and!; try done. by apply accumulate_enqueue_wf.
Qed.

Lemma stableName_step (s : State string) (f : TFile) (old : string) :
  wf s -> accepts SecondRevision (settings s) f old = true ->
  (path f = old \/ debounceMap s !! path f = None) ->
  let s' := StableName.handleRename s (File f) old in
  wf s' /\ is_Some (debounceMap s' !! path f) /\
  (forall p, p <> path f -> p = old \/ debounceMap s !! p = None ->
             debounceMap s' !! p = None) /\
  settled s' = settled s.
Proof.
  intros Hwf Hacc Hfree. unfold accepts in Hacc. cbn in *.
  destruct (StableName.classify (settings s) f old) as [c|]; [|done].
  destruct (stableName_enqueue_map s old (path f) c Hwf Hfree) as (? & ? & ? & _).
  split_and!; try done. by apply stableName_enqueue_wf.
Qed.

(** An accepted rename of the file onto a path that is its own or holds no
    entry: the entry of the file moves to the new path. *)
Lemma own_step (r : Revision T) (s : State T) (f : TFile) (old : string) :
  wf s -> accepts r (settings s) f old = true ->
  (path f = old \/ debounceMap s !! path f = None) ->
  let s' := handleRenameOf r s (File f) old in
  wf s' /\ is_Some (debounceMap s' !! path f) /\
  (forall p, p <> path f -> p = old \/ debounceMap s !! p = None ->
             debounceMap s' !! p = None) /\
  settled s' = settled s.
Proof. destruct r; [apply accumulate_step | apply stableName_step]. Qed.

Lemma accumulate_foreign_rename (W : list string) (s : State bool) (f : TFile)
    (old : string) :
  wf s -> foreign FirstRevision W s (Rename (File f) old) ->
  let s' := Accumulate.handleRename s (File f) old in
  wf s' /\ (forall p, p ∈ W -> debounceMap s' !! p = debounceMap s !! p) /\
  settled s' = settled s.
Proof.
  intros Hwf (Hold & Hnew & Hfree). unfold accepts in Hfree. cbn in *.
  destruct (Accumulate.classify (settings s) f old) as [c|]; [|done].
  split_and!.
  - apply accumulate_enqueue_wf; [done|].
    destruct (Hfree eq_refl eq_refl) as [->|?]; auto.
  - intros p Hp. apply accumulate_enqueue_frame; [done| |]; by intros ->.
  - by destruct (accumulate_enqueue_map s old (path f) c Hwf) as (_ & _ & ? & _).
Qed.

Lemma stableName_foreign_rename (W : list string) (s : State string) (f : TFile)
    (old : string) :
  wf s -> foreign SecondRevision W s (Rename (File f) old) ->
  let s' := StableName.handleRename s (File f) old in
  wf s' /\ (forall p, p ∈ W -> debounceMap s' !! p = debounceMap s !! p) /\
  settled s' = settled s.
Proof.
  intros Hwf (Hold & Hnew & _). cbn in *.
  destruct (StableName.classify (settings s) f old) as [c|]; [|done].
  split_and!.
  - by apply stableName_enqueue_wf.
  - intros p Hp. apply stableName_enqueue_frame; [done| |]; by intros ->.
  - by unfold StableName.enqueue.
Qed.

Lemma foreign_rename (r : Revision T) (W : list string) (s : State T) (f : TFile)
    (old : string) :
  wf s -> foreign r W s (Rename (File f) old) ->
  let s' := handleRenameOf r s (File f) old in
  wf s' /\ (forall p, p ∈ W -> debounceMap s' !! p = debounceMap s !! p) /\
  settled s' = settled s.
Proof. destruct r; [apply accumulate_foreign_rename | apply stableName_foreign_rename]. Qed.

(** A foreign event keeps the invariant and the entries under [W], and
    settles nothing at a path of [W]. *)
Lemma foreign_step (r : Revision T) (W : list string) (s : State T) (ev : Event T) :
  wf s -> foreign r W s ev ->
  let s' := step (handleRenameOf r) s ev in
  wf s' /\ (forall p, p ∈ W -> debounceMap s' !! p = debounceMap s !! p) /\
  exists calls, settled s' = settled s ++ calls /\
                forall call, call ∈ calls -> call.1 ∉ W.
Proof.
  intros Hwf Hfor. destruct ev as [newFile old | t | st | v |]; cbn [step].
  - destruct newFile as [f|d].
    + destruct (foreign_rename r W s f old Hwf Hfor) as (Hwf' & Hmap & Hset).
      split_and!; try done. exists []. rewrite app_nil_r. split; [done|].
      intros call Hc. by apply elem_of_nil in Hc.
    + assert (handleRenameOf r s (Folder d) old = s) as -> by (by destruct r).
      split_and!; try done. exists []. rewrite app_nil_r. split; [done|].
      intros call Hc. by apply elem_of_nil in Hc.
  - split; [by apply wf_onTimeout|]. unfold onTimeout.
    destruct (timers s !! t) as [a|] eqn:Ht.
    + destruct (wf_timers s Hwf t a Ht) as (e & He & _). rewrite He. cbn.
      specialize (Hfor a e Ht He). split.
      * intros p Hp. apply lookup_delete_ne. by intros <-.
      * exists [(currentPath e, queue e)]. split; [done|].
        by intros call ->%list_elem_of_singleton.
    + split; [done|]. exists []. rewrite app_nil_r. split; [done|].
      intros call Hc. by apply elem_of_nil in Hc.
  - split; [by destruct Hwf|]. cbn. split; [done|]. exists []. rewrite app_nil_r.
    split; [done|]. intros call Hc. by apply elem_of_nil in Hc.
  - split; [by destruct Hwf|]. cbn. split; [done|]. exists []. rewrite app_nil_r.
    split; [done|]. intros call Hc. by apply elem_of_nil in Hc.
  - done.
Qed.

(** Along a calm trace the paths of [W] hold at most the entry of the file,
    under its current path, and nothing is settled at a path of [W]. *)
Lemma trace_tracked (r : Revision T) (W : list string) :
  forall (tr : list (Occurrence T)) cur s,
    wf s -> cur ∈ W -> (forall f, f ∈ ownFiles tr -> path f ∈ W) ->
    (forall p, p ∈ W -> p <> cur -> debounceMap s !! p = None) ->
    calm r W s cur tr ->
    let s' := run (handleRenameOf r) s (events cur tr) in
    wf s' /\
    (ownFiles tr <> [] \/ is_Some (debounceMap s !! cur) ->
       is_Some (debounceMap s' !! finalPath cur (ownFiles tr))) /\
    (forall p, p ∈ W -> p <> finalPath cur (ownFiles tr) -> debounceMap s' !! p = None) /\
    exists calls, settled s' = settled s ++ calls /\
                  forall call, call ∈ calls -> call.1 ∉ W.
Proof.
  induction tr as [|[f|ev] tr IH]; intros cur s Hwf Hcur HW Hfree Hcalm.
  - cbn. split_and!; try done.
    + by intros [?|?].
    + exists []. rewrite app_nil_r. split; [done|].
      intros call Hc. by apply elem_of_nil in Hc.
  - cbn [calm] in Hcalm. destruct Hcalm as [Hacc Hcalm].
    cbn [events ownFiles run fold_left step]. rewrite finalPath_cons.
    assert (path f ∈ W) as HWf by (apply HW; by left).
    destruct (own_step r s f cur Hwf Hacc) as (Hwf1 & Hsome1 & Hfree1 & Hset1).
    { destruct (decide (path f = cur)) as [?|Hne]; [by left|right]. by apply Hfree. }
    destruct (IH (path f) (handleRenameOf r s (File f) cur))
      as (Hwf' & Hsome' & Hfree' & calls & Hset' & Hcalls); try done.
    { intros f' Hf'. apply HW. by right. }
    { intros p Hp Hpf. apply Hfree1; [done|].
      destruct (decide (p = cur)) as [?|Hne]; [by left|right]. by apply Hfree. }
    split_and!; try done.
    + intros _. apply Hsome'. by right.
    + exists calls. unfold run in Hset'. by rewrite Hset', Hset1.
  - cbn [calm] in Hcalm. destruct Hcalm as [Hfor Hcalm].
    cbn [events ownFiles run fold_left].
    destruct (foreign_step r W s ev Hwf Hfor) as (Hwf1 & Hmap1 & calls1 & Hset1 & Hcalls1).
    destruct (IH cur (step (handleRenameOf r) s ev))
      as (Hwf' & Hsome' & Hfree' & calls & Hset' & Hcalls); try done.
    { intros p Hp Hpc. rewrite Hmap1 by done. by apply Hfree. }
    split_and!; try done.
    + intros Hcase. apply Hsome'. destruct Hcase as [?|Hs]; [by left|right].
      by rewrite Hmap1.
    + exists (calls1 ++ calls). unfold run in Hset'. rewrite Hset', Hset1.
      split; [by rewrite app_assoc|].
      intros call [?|?]%elem_of_app; [by apply Hcalls1 | by apply Hcalls].
Qed.

(** [onunload] leaves no timeout armed when every armed timeout belongs to
    an entry of the map. *)
Lemma onunload_timers s : wf s -> timers (onunload s) = ∅.
Proof.
  intros Hwf. apply map_empty. intros t. cbn.
  destruct (map_fold _ _ _ !! t) as [a|] eqn:Hlook; [|done]. exfalso.
  revert a Hlook.
  assert (forall a, map_fold (fun (_ : string) a ts =>
             match heap s !! a with
             | Some entry => clearTimeout (timeoutId entry) ts
             | None => ts
             end) (timers s) (debounceMap s) !! t = Some a ->
          timers s !! t = Some a /\
          forall p a1 e1, debounceMap s !! p = Some a1 -> heap s !! a1 = Some e1 ->
                          timeoutId e1 <> Some t) as Hfold.
  { apply (map_fold_weak_ind (fun (ts : gmap nat nat) (m : gmap string nat) =>
             forall a, ts !! t = Some a ->
               timers s !! t = Some a /\
               forall p a1 e1, m !! p = Some a1 -> heap s !! a1 = Some e1 ->
                               timeoutId e1 <> Some t)).
    - intros a Ha. split; [done|]. intros p a1 e1 Hp. by rewrite lookup_empty in Hp.
    - intros p a1 m ts Hnone IH a Ha.
      assert (ts !! t = Some a /\
              forall e1, heap s !! a1 = Some e1 -> timeoutId e1 <> Some t) as [Hts Hnot].
      { destruct (heap s !! a1) as [e1|]; [|done]. unfold clearTimeout in Ha.
        destruct (timeoutId e1) as [t1|] eqn:Htid1.
        - destruct (decide (t1 = t)) as [->|Hne]; [by rewrite lookup_delete_eq in Ha|].
          rewrite lookup_delete_ne in Ha by done. split; [done|].
          intros e0 [= <-]. congruence.
        - split; [done|]. intros e0 [= <-]. congruence. }
      destruct (IH a Hts) as [Htm Hrest]. split; [done|].
      intros p' a1' e1' Hp' He1'.
      destruct (decide (p' = p)) as [->|Hne].
      + rewrite lookup_insert_eq in Hp'. injection Hp' as <-. by apply Hnot.
      + rewrite lookup_insert_ne in Hp' by done. by eapply Hrest. }
  intros a Hlook. destruct (Hfold a Hlook) as [Htm Hnot].
  destruct (wf_timers s Hwf t a Htm) as (e & He & Htid & Hmap).
  by apply (Hnot _ _ _ Hmap He).
Qed.

Lemma wf_onunload s : wf s -> wf (onunload s).
Proof.
  intros Hwf. pose proof (onunload_timers s Hwf) as Htm.
  destruct Hwf as [Hm Ht Hnt Hne]. split.
  - intros p a Hp. cbn in Hp. by rewrite lookup_empty in Hp.
  - intros t a Ha. rewrite Htm in Ha. by rewrite lookup_empty in Ha.
  - intros t [a Ha]. rewrite Htm in Ha. by rewrite lookup_empty in Ha.
  - exact Hne.
Qed.

End Expiry.

(** In the second revision the invariant holds along every run. *)
Lemma stableName_step_wf `{Host} (s : State string) (ev : Event string) :
  wf s -> wf (step StableName.handleRename s ev).
Proof.
  intros Hwf. destruct ev as [newFile oldPath | t | st | v |]; cbn [step].
  - destruct newFile as [f|d]; [|done]. cbn.
    destruct (StableName.classify (settings s) f oldPath); [|done].
    by apply stableName_enqueue_wf.
  - by apply wf_onTimeout.
  - by destruct Hwf.
  - by destruct Hwf.
  - by apply wf_onunload.
Qed.

Lemma stableName_run_wf `{Host} (s : State string) (evs : list (Event string)) :
  wf s -> wf (run StableName.handleRename s evs).
Proof.
  revert s. induction evs as [|ev evs IH]; intros s Hwf; [done|].
  cbn [run fold_left]. apply IH. by apply stableName_step_wf.
Qed.

(** In the first revision the invariant survives an accepted rename whose
    new path holds no entry; an entry left under the new path by another
    file keeps its timeout, which the invariant does not allow. *)
Lemma accumulate_handleRename_wf `{Host} (s : State bool) (newFile : TAbstractFile) (oldPath : string) :
  wf s ->
  (forall f, newFile = File f -> path f = oldPath \/ debounceMap s !! path f = None) ->
  wf (Accumulate.handleRename s newFile oldPath).
Proof.
  intros Hwf Hfree. destruct newFile as [f|d]; [|done]. cbn.
  destruct (Accumulate.classify (settings s) f oldPath); [|done].
  apply accumulate_enqueue_wf; [done|]. destruct (Hfree f eq_refl) as [->|?]; auto.
Qed.

Lemma finalPath_elem (p0 : string) (fs : list TFile) :
  finalPath p0 fs ∈ p0 :: (path <$> fs).
Proof.
  revert p0. induction fs as [|f fs IH]; intros p0; [by left|].
  rewrite finalPath_cons. right. apply IH.
Qed.

(** The state after an entry found under [k] has been replaced by an entry
    under [newPath] with a new timeout. *)
Lemma rekey_facts {T} (s : State T) (k : string) (a0 : nat) (e0 : Entry) (t0 : nat)
    (newPath : string) (a : nat) (e : Entry) (ne : nat) :
  wf s ->
  debounceMap s !! k = Some a0 -> heap s !! a0 = Some e0 -> timeoutId e0 = Some t0 ->
  (k = newPath \/ debounceMap s !! newPath = None) ->
  let s' := {| settings := settings s; vault := vault s;
               heap := <[a := e]> (heap s);
               debounceMap := <[newPath := a]> (delete k (debounceMap s));
               timers := <[nextTimer s := a]> (delete t0 (timers s));
               nextTimer := S (nextTimer s); nextEntry := ne; settled := settled s |} in
  timers s !! t0 = Some a0 /\ timers s' !! t0 = None /\
  debounceMap s' !! newPath = Some a /\ heap s' !! a = Some e /\
  timers s' !! nextTimer s = Some a /\
  (k <> newPath -> debounceMap s' !! k = None) /\
  (forall p, p <> newPath -> p <> k -> debounceMap s' !! p = debounceMap s !! p) /\
  size (debounceMap s') = size (debounceMap s) /\
  size (timers s') = size (timers s).
Proof.
  intros Hwf Hk He0 Ht0 Hfree s'. subst s'. cbn.
  destruct (wf_map s Hwf k a0 Hk) as (e0' & t0' & He0' & _ & Ht0' & Htm0 & _).
  rewrite He0 in He0'. injection He0' as <-. rewrite Ht0 in Ht0'. injection Ht0' as <-.
  pose proof (wf_fresh_timer s Hwf) as Hfresht.
  assert (t0 <> nextTimer s) as Hnet by congruence.
  split_and!; try done.
  - rewrite lookup_insert_ne by done. apply lookup_delete_eq.
  - apply lookup_insert_eq.
  - apply lookup_insert_eq.
  - apply lookup_insert_eq.
  - intros Hne. rewrite lookup_insert_ne by done. apply lookup_delete_eq.
  - intros p Hpn Hpk. by rewrite lookup_insert_ne, lookup_delete_ne.
  - rewrite (size_delete_Some_str _ _ _ Hk). apply map_size_insert_None.
    destruct Hfree as [->|Hnone]; [apply lookup_delete_eq|].
    destruct (decide (newPath = k)) as [->|?]; [apply lookup_delete_eq|].
    by rewrite lookup_delete_ne.
  - rewrite (size_delete_Some _ _ _ Htm0). apply map_size_insert_None.
    by rewrite lookup_delete_ne.
Qed.




(** C1, as stated, fails in both revisions when a later rename is dropped
    by the gates of the handler (here a move to a folder while folder
    tracking is off): the entry stays under the intermediate path and the
    one settlement names that path, not the final one. *)
Lemma dropped_rename_settles_old_path :
  ~ settlesAtFinalPathAsStated (H := exampleHost) FirstRevision /\
  ~ settlesAtFinalPathAsStated (H := exampleHost) SecondRevision.
Proof.
  split; intros Hall.
  - destruct (Hall (initialState (exampleSettings false) ∅) "a.md"
                [mkFile "b.md"; mkFile "sub/b.md"] [1]) as [q Hq].
    + apply wf_initialState.
    + cbn. lia.
    + intros f _. apply lookup_empty.
    + intros t Ht.
      assert (timers (run (H := exampleHost)
                (handleRenameOf (H := exampleHost) FirstRevision)
                (initialState (exampleSettings false) ∅)
                (renames "a.md" [mkFile "b.md"; mkFile "sub/b.md"]))
              = {[1 := 0]}) as Heq by (by vm_compute).
      rewrite Heq in Ht. destruct (decide (t = 1)) as [->|Hne]; [by left|].
      rewrite lookup_singleton_ne in Ht by done. by destruct Ht.
    + vm_compute in Hq. discriminate.
  - destruct (Hall (initialState (exampleSettings "") ∅) "a.md"
                [mkFile "b.md"; mkFile "sub/b.md"] [1]) as [q Hq].
    + apply wf_initialState.
    + cbn. lia.
    + intros f _. apply lookup_empty.
    + intros t Ht.
      assert (timers (run (H := exampleHost)
                (handleRenameOf (H := exampleHost) SecondRevision)
                (initialState (exampleSettings "") ∅)
                (renames "a.md" [mkFile "b.md"; mkFile "sub/b.md"]))
              = {[1 := 0]}) as Heq by (by vm_compute).
      rewrite Heq in Ht. destruct (decide (t = 1)) as [->|Hne]; [by left|].
      rewrite lookup_singleton_ne in Ht by done. by destruct Ht.
    + vm_compute in Hq. discriminate.
Qed.

(** C1 (amended). Take a file that goes through one or more renames, each
    accepted by [handleRename] (it passes the extension, classification,
    scope and ignore gates and reaches the map), in a coordinator whose map,
    entries and armed timeouts agree and which holds no pending entry under
    any of the new paths, while the events in between leave the paths of the
    file alone and the timeout of the file does not expire. Once the armed
    timeouts expire, in whatever order, exactly one settlement has been
    invoked for the paths the file went through: its target is the final
    path and its candidates are the queue of the entry stored there. None
    is invoked for an intermediate path. This holds in both revisions. *)
Theorem rapid_renames_settle_once `{Host} {T} (r : Revision T) (s : State T)
    (p0 : string) (tr : list (Occurrence T)) (ts : list nat) :
  let fs := ownFiles tr in
  let paths := p0 :: (path <$> fs) in
  wf s -> fs <> [] ->
  (forall f, f ∈ fs -> debounceMap s !! path f = None) ->
  calm r paths s p0 tr ->
  let renamed := run (handleRenameOf r) s (events p0 tr) in
  (forall t, is_Some (timers renamed !! t) -> t ∈ ts) ->
  exists a e,
    debounceMap renamed !! finalPath p0 fs = Some a /\
    heap renamed !! a = Some e /\
    (forall p, p ∈ paths -> p <> finalPath p0 fs -> debounceMap renamed !! p = None) /\
    settledAt paths
      (drop (length (settled s))
         (settled (run (handleRenameOf r) s (events p0 tr ++ (Timeout <$> ts))))) =
    [(finalPath p0 fs, queue e)].
Proof.
  intros fs paths Hwf Hne Hfree Hcalm renamed Hts.
  destruct (trace_tracked r paths tr p0 s)
    as (Hwf' & Hsome & Hfree' & calls & Hset & Hcalls); try done.
  { by left. }
  { intros f Hf. right. by apply list_elem_of_fmap_2. }
  { intros p [?|Hp]%elem_of_cons Hp0; [done|].
    apply list_elem_of_fmap in Hp as (f & -> & Hf). by apply Hfree. }
  fold fs renamed in Hwf', Hsome, Hfree', Hset.
  destruct Hsome as [a Ha]; [by left|].
  destruct (wf_map renamed Hwf' _ a Ha) as (e & t & He & Hcp & Htid & Htm & _).
  exists a, e. split_and!; try done.
  destruct (expire_tracked (handleRenameOf r) (fun p => p ∈ paths)
              ts renamed (finalPath p0 fs) a e t)
    as (before & after & Heq & Hb & Haft); try done.
  { apply finalPath_elem. }
  { apply Hts. by rewrite Htm. }
  rewrite run_app. fold renamed. rewrite Heq, Hset, <- app_assoc, drop_app_length.
  unfold settledAt. rewrite !List.filter_app. cbn [List.filter fst].
  rewrite bool_decide_eq_true_2 by apply finalPath_elem.
  fold (settledAt paths calls). fold (settledAt paths before).
  fold (settledAt paths after).
  by rewrite !settledAt_none.
Qed.

Lemma rapid_renames_settle_once_witness :
  let s := initialState (exampleSettings "") ∅ in
  let tr := [Own (mkFile "b.md");
             Other (Rename (File (mkFile "y.md")) "x.md");
             Own (mkFile "c.md")] in
  let run2 := run (H := exampleHost) (handleRenameOf (H := exampleHost) SecondRevision) in
  wf s /\
  calm (H := exampleHost) SecondRevision ["a.md"; "b.md"; "c.md"] s "a.md" tr /\
  exists a e,
    debounceMap (run2 s (events "a.md" tr)) !! "c.md" = Some a /\
    heap (run2 s (events "a.md" tr)) !! a = Some e /\
    settledAt ["a.md"; "b.md"; "c.md"]
      (settled (run2 s (events "a.md" tr ++ (Timeout <$> [1; 2; 3])))) =
    [("c.md", queue e)].
Proof.
  intros s tr run2.
  assert (calm (H := exampleHost) SecondRevision ["a.md"; "b.md"; "c.md"] s "a.md" tr)
    as Hcalm.
  { cbn [calm tr]. split; [reflexivity|]. split; [|split; [reflexivity|exact I]].
    cbn [foreign]. split; [|split; [|discriminate]].
    - apply (bool_decide_unpack _). by vm_compute.
    - apply (bool_decide_unpack _). by vm_compute. }
  split; [apply wf_initialState|]. split; [exact Hcalm|].
  destruct (rapid_renames_settle_once (H := exampleHost) SecondRevision
              s "a.md" tr [1; 2; 3]) as (a & e & Ha & He & _ & Hs).
  - apply wf_initialState.
  - discriminate.
  - intros f _. apply lookup_empty.
  - exact Hcalm.
  - intros t Ht. cbv zeta in Ht.
    assert (timers (run (H := exampleHost)
              (handleRenameOf (H := exampleHost) SecondRevision) s (events "a.md" tr))
            = {[2 := 1; 3 := 2]}) as Heq by (by vm_compute).
    rewrite Heq in Ht. destruct (decide (t = 2)) as [->|Hne2]; [by right; left|].
    destruct (decide (t = 3)) as [->|Hne3]; [by right; right; left|].
    rewrite lookup_insert_ne, lookup_singleton_ne in Ht by done. by destruct Ht.
  - exists a, e. split; [exact Ha|]. split; [exact He|]. exact Hs.
Defined.

(** Renames of the file with nothing in between are the plain chain. *)
Lemma events_own {T} (p0 : string) (fs : list TFile) :
  events (T := T) p0 (Own <$> fs) = renames p0 fs /\ ownFiles (T := T) (Own <$> fs) = fs.
Proof.
  revert p0. induction fs as [|f fs IH]; intros p0; [done|].
  cbn. destruct (IH (path f)) as [-> ->]. done.
Qed.

(** ** Worked examples *)

Lemma no_write_without_alias_list_witness :
  exampleVault (NotArray "old") !! "b.md" =
    Some {| noteBasename := "b"; noteExtension := "md";
            frontmatter := {| aliases := NotArray "old"; otherKeys := [("title", "B")] |} |} /\
  autoCreateFrontmatter (noCreateSettings false) = false /\
  processAliases (H := exampleHost) (noCreateSettings false)
    (exampleVault (NotArray "old")) "b.md" ["a"] = exampleVault (NotArray "old").
Proof.
  split; [reflexivity|]. split; [reflexivity|].
  apply (no_write_without_alias_list (H := exampleHost) (noCreateSettings false)
           (exampleVault (NotArray "old")) "b.md" ["a"]
           {| noteBasename := "b"; noteExtension := "md";
              frontmatter := {| aliases := NotArray "old";
                                otherKeys := [("title", "B")] |} |}).
  - reflexivity.
  - intros l. discriminate.
  - reflexivity.
Defined.

Lemma non_list_value_replaced_witness :
  toAdd (H := exampleHost) (exampleSettings false) "b" ["a"] <> [] /\
  exists n' created,
    processAliases (H := exampleHost) (exampleSettings false)
      (exampleVault (NotArray "old")) "b.md" ["a"] !! "b.md" = Some n' /\
    aliases (frontmatter n') = AliasArray created /\
    created = aliasesAfter (H := exampleHost) (exampleSettings false) ["a"] [].
Proof.
  split; [discriminate|].
  destruct (non_list_value_replaced (H := exampleHost) (exampleSettings false)
              (exampleVault (NotArray "old")) "b.md" ["a"]
              {| noteBasename := "b"; noteExtension := "md";
                 frontmatter := {| aliases := NotArray "old";
                                   otherKeys := [("title", "B")] |} |} "old")
    as (n' & created & Hn' & Hal & Hcr & _).
  - reflexivity.
  - reflexivity.
  - reflexivity.
  - discriminate.
  - exists n', created. split; [exact Hn'|]. split; [exact Hal|]. exact Hcr.
Defined.


Lemma ignored_candidate_never_written_witness :
  ignored (H := exampleHost) (exampleSettings false) "tmp1" /\
  (hasAlias (processAliases (H := exampleHost) (exampleSettings false)
               (exampleVault (AliasArray ["x"])) "b.md" ["tmp1"; "a"]) "b.md" "tmp1" ->
   hasAlias (exampleVault (AliasArray ["x"])) "b.md" "tmp1").
Proof.
  assert (ignored (H := exampleHost) (exampleSettings false) "tmp1") as Hign.
  { exists "tmp", "tmp". split; [by left|]. split; reflexivity. }
  split; [exact Hign|].
  destruct (ignored_candidate_never_written (H := exampleHost)
              (exampleSettings false) "tmp1" Hign) as (_ & _ & _ & Hproc & _).
  apply Hproc.
Defined.

Example settle_example :
  aliasesAfter (H := exampleHost) (exampleSettings false) ["a"; "c"; "C"; "x"] ["x"; "A"] =
  ["x"; "A"; "c"].
Proof. reflexivity. Qed.

Example settle_created_example :
  processAliases (H := exampleHost) (exampleSettings false)
    (exampleVault (NotArray "old")) "b.md" ["a"; "tmp1"; "B"] =
  exampleVault (AliasArray ["a"]).
Proof. by vm_compute. Qed.

Example accumulate_chain_example :
  settled (run (H := exampleHost) (handleRenameOf (H := exampleHost) FirstRevision)
     (initialState (exampleSettings false) ∅)
     (renames "a.md" [mkFile "b.md"; mkFile "c.md"] ++ [Timeout 1; Timeout 2])) =
  [("c.md", ["a"; "b"])].
Proof. by vm_compute. Qed.

Example stableName_chain_example :
  settled (run (H := exampleHost) (handleRenameOf (H := exampleHost) SecondRevision)
     (initialState (exampleSettings "") ∅)
     (renames "a.md" [mkFile "b.md"; mkFile "c.md"] ++ [Timeout 1; Timeout 2])) =
  [("c.md", ["a"])].
Proof. by vm_compute. Qed.

(** A pending entry left under a path by a rename the handler dropped: a
    later chain of accepted renames of another file that ends on that path
    settles twice in the second revision, once at its intermediate path.
    The entry under ["b.md"] belongs to a file renamed from ["a.md"] and
    then to ["b.txt"]; the chain is ["c.md" -> "d.md" -> "b.md"]. *)
Example stale_entry_under_new_path :
  settled (run (H := exampleHost) (handleRenameOf (H := exampleHost) SecondRevision)
     (initialState (exampleSettings "") ∅)
     ([Rename (File (mkFile "b.md")) "a.md";
       Rename (File {| path := "b.txt"; basename := "b"; extension := "txt" |}) "b.md"]
      ++ renames "c.md" [mkFile "d.md"; mkFile "b.md"]
      ++ (Timeout <$> [1; 2; 3]))) =
  [("d.md", ["c"]); ("b.md", ["a"])].
Proof. by vm_compute. Qed.

Example onunload_example :
  let s := run (H := exampleHost) (handleRenameOf (H := exampleHost) SecondRevision)
             (initialState (exampleSettings "") ∅)
             [Rename (File (mkFile "b.md")) "a.md"; Unload; Timeout 1] in
  settled s = [] /\ timers s = ∅ /\ debounceMap s = ∅.
Proof. by vm_compute. Qed.

Example getBasename_examples :
  getBasename "a/b.c.md" = "b.c" /\ getBasename "note.md" = "note" /\
  getBasename "a.b/readme" = "readme" /\ getBasename "a/foo." = "foo." /\
  getBasename "a/.md" = "" /\ getBasename "a/" = "".
Proof. by vm_compute. Qed.

Example getImmediateParentName_examples :
  getImmediateParentName "file.md" = "" /\
  getImmediateParentName "a/file.md" = "a" /\
  getImmediateParentName "a/b/file.md" = "b".
Proof. by vm_compute. Qed.

Example isPathInFolder_examples :
  isPathInFolder "b.md" "{root}/" = true /\
  isPathInFolder "a/b.md" "{root}" = false /\
  isPathInFolder "notes/x.md" "notes" = true /\
  isPathInFolder "notes2/x.md" "notes" = false /\
  isPathInFolder "b.md" "/" = false /\
  isPathInFolder "notes/x.md" "{vault}notes" = true.
Proof. by vm_compute. Qed.

(** * Further properties *)

(** ** Parent folders, root tokens and lists of settings *)

Lemma append_nil_l (s : string) : EmptyString +:+ s = s.
Proof. reflexivity. Qed.

(** A separator splits the text there. *)
Lemma split_app (c : ascii) (a b : string) :
  Js.split c (a +:+ String c b) = Js.split c a ++ Js.split c b.
Proof.
  induction a as [|x a IH].
  - rewrite append_nil_l. cbn. by rewrite Ascii.eqb_refl.
  - rewrite append_cons. cbn [Js.split]. destruct (Ascii.eqb x c); [by rewrite IH|].
    rewrite IH. destruct (Js.split c a) as [|seg segs] eqn:Hs; [by apply split_not_nil in Hs|].
    done.
Qed.

(** [pop] takes the last element off. *)
Lemma pop_snoc (l : list string) (x : string) : Js.pop (l ++ [x]) = (Some x, l).
Proof.
  induction l as [|y l IH]; [done|].
  change ((y :: l) ++ [x]) with (y :: (l ++ [x])).
  destruct (l ++ [x]) as [|z l'] eqn:Hl; [by destruct l|].
  change (Js.pop (y :: z :: l')) with (let '(r, rest') := Js.pop (z :: l') in (r, y :: rest')).
  by rewrite IH.
Qed.

(** No segment holds the separator. *)
Lemma split_segments (c : ascii) (s : string) :
  Forall (fun seg => Js.includes seg (String c EmptyString) = false) (Js.split c s).
Proof.
  induction s as [|x s IH]; cbn [Js.split].
  - by constructor.
  - destruct (Ascii.eqb x c) eqn:Hx.
    + constructor; [done|exact IH].
    + destruct (Js.split c s) as [|seg segs]; [by apply Forall_nil in IH; constructor; [rewrite includes_char_cons, Hx|]|].
      inversion IH as [|? ? Hseg Hsegs]; subst. constructor; [|done].
      by rewrite includes_char_cons, Hx.
Qed.

Lemma list_snoc_cases {A} (l : list A) : l = [] \/ exists l0 x, l = l0 ++ [x].
Proof. induction l using rev_ind; [by left|right; eauto]. Qed.

Lemma includes_char_app (c : ascii) (a b : string) :
  Js.includes (a +:+ b) (String c EmptyString) =
  Js.includes a (String c EmptyString) || Js.includes b (String c EmptyString).
Proof.
  induction a as [|x a IH].
  - by rewrite append_nil_l, includes_char_nil.
  - by rewrite append_cons, !includes_char_cons, IH, orb_assoc.
Qed.

(** The parent name of a path, read off its last two segments. *)
Lemma getImmediateParentName_root (p : string) :
  Js.includes p "/" = false -> getImmediateParentName p = "".
Proof. intros Hp. unfold getImmediateParentName. by rewrite (split_absent _ _ Hp). Qed.

Lemma getImmediateParentName_parent (dir parent name : string) :
  dir = "" \/ (exists d, dir = d +:+ "/") ->
  Js.includes parent "/" = false -> Js.includes name "/" = false ->
  getImmediateParentName (dir +:+ parent +:+ "/" +:+ name) = parent.
Proof.
  intros Hdir Hparent Hname. unfold getImmediateParentName.
  assert (Js.split "/" (parent +:+ "/" +:+ name) = [parent] ++ [name]) as Hpn.
  { change ("/" +:+ name) with (String "/" name).
    by rewrite split_app, (split_absent _ _ Hparent), (split_absent _ _ Hname). }
  destruct Hdir as [->|[d ->]].
  - by rewrite append_nil_l, Hpn, pop_snoc.
  - rewrite append_assoc. change ("/" +:+ parent +:+ "/" +:+ name)
      with (String "/" (parent +:+ "/" +:+ name)).
    rewrite split_app, Hpn, app_assoc, pop_snoc. cbn [snd].
    by rewrite pop_snoc.
Qed.

Lemma getImmediateParentName_segment (p : string) :
  Js.includes (getImmediateParentName p) "/" = false.
Proof.
  unfold getImmediateParentName.
  pose proof (split_segments "/" p) as Hall.
  destruct (list_snoc_cases (Js.split "/" p)) as [Hnil|(l0 & x & Hl)].
  { by apply split_not_nil in Hnil. }
  rewrite Hl in Hall |- *. rewrite pop_snoc. cbn [snd].
  destruct (list_snoc_cases l0) as [->|(l1 & y & ->)]; [done|].
  rewrite pop_snoc. cbn.
  apply Forall_app in Hall as [Hall _]. apply Forall_app in Hall as [_ Hy].
  by inversion Hy.
Qed.

(** X1. [getImmediateParentName]: a path without a slash has no parent
    name; otherwise the result is the segment before the last one, whatever
    comes before it; and the result never holds a slash. *)
Theorem getImmediateParentName_spec (p : string) :
  (Js.includes p "/" = false -> getImmediateParentName p = "") /\
  (forall dir parent name,
     p = dir +:+ parent +:+ "/" +:+ name ->
     dir = "" \/ (exists d, dir = d +:+ "/") ->
     Js.includes parent "/" = false -> Js.includes name "/" = false ->
     getImmediateParentName p = parent) /\
  Js.includes (getImmediateParentName p) "/" = false.
Proof.
  split_and!.
  - apply getImmediateParentName_root.
  - intros dir parent name ->. apply getImmediateParentName_parent.
  - apply getImmediateParentName_segment.
Qed.

(** [trim] is idempotent, drops characters only, and leaves the empty
    string exactly when [trimNonEmpty] says so. *)
Lemma trimEnd_idem (s : string) : trimEnd (trimEnd s) = trimEnd s.
Proof.
  induction s as [|c s IH]; [done|].
  cbn [trimEnd]. destruct (trimEnd s) as [|c' r] eqn:Hs.
  - destruct (Js.isWhiteSpace c) eqn:Hc; [done|]. cbn [trimEnd]. by rewrite Hc.
  - cbn [trimEnd] in IH |- *. by rewrite IH.
Qed.

Lemma trimStart_head (s : string) :
  trimStart s = EmptyString \/
  exists c r, trimStart s = String c r /\ Js.isWhiteSpace c = false.
Proof.
  induction s as [|c s IH]; [by left|].
  cbn [trimStart]. destruct (Js.isWhiteSpace c) eqn:Hc; [done|]. right; eauto.
Qed.

Lemma trimEnd_head (c : ascii) (r : string) :
  Js.isWhiteSpace c = false -> exists r', trimEnd (String c r) = String c r'.
Proof.
  intros Hc. cbn [trimEnd]. destruct (trimEnd r); [rewrite Hc|]; eauto.
Qed.

Lemma trim_idem (s : string) : trim (trim s) = trim s.
Proof.
  unfold trim. destruct (trimStart_head s) as [->|(c & r & -> & Hc)]; [done|].
  destruct (trimEnd_head c r Hc) as [r' Hr]. rewrite Hr.
  cbn [trimStart]. rewrite Hc, <- Hr. apply trimEnd_idem.
Qed.

Lemma truthy_trimEnd (s : string) : Js.truthy (trimEnd s) = Js.trimNonEmpty s.
Proof.
  induction s as [|c s IH]; [done|].
  cbn [trimEnd Js.trimNonEmpty]. rewrite <- IH.
  destruct (trimEnd s); cbn [Js.truthy].
  - by destruct (Js.isWhiteSpace c).
  - by rewrite orb_true_r.
Qed.

Lemma trimNonEmpty_trimStart (s : string) :
  Js.trimNonEmpty (trimStart s) = Js.trimNonEmpty s.
Proof.
  induction s as [|c s IH]; [done|].
  cbn [trimStart]. destruct (Js.isWhiteSpace c) eqn:Hc; [|done].
  cbn [Js.trimNonEmpty]. by rewrite Hc, IH.
Qed.

Lemma truthy_trim (s : string) : Js.truthy (trim s) = Js.trimNonEmpty s.
Proof. unfold trim. by rewrite truthy_trimEnd, trimNonEmpty_trimStart. Qed.

Lemma trimStart_suffix (s : string) : exists pre, s = pre +:+ trimStart s.
Proof.
  induction s as [|c s [pre IH]]; [by exists EmptyString|].
  cbn [trimStart]. destruct (Js.isWhiteSpace c).
  - exists (String c pre). by rewrite append_cons, <- IH.
  - by exists EmptyString.
Qed.

Lemma trimEnd_prefix (s : string) : exists suf, s = trimEnd s +:+ suf.
Proof.
  induction s as [|c s [suf IH]]; [by exists EmptyString|].
  cbn [trimEnd]. destruct (trimEnd s) as [|c' r].
  - rewrite append_nil_l in IH. subst suf. destruct (Js.isWhiteSpace c).
    + by exists (String c s).
    + exists s. by rewrite append_cons.
  - exists suf. by rewrite append_cons, <- IH.
Qed.

Lemma trim_keeps_absent (c : ascii) (s : string) :
  Js.includes s (String c EmptyString) = false ->
  Js.includes (trim s) (String c EmptyString) = false.
Proof.
  unfold trim. destruct (trimStart_suffix s) as [pre Hpre].
  destruct (trimEnd_prefix (trimStart s)) as [suf Hsuf].
  intros Hs. rewrite Hpre, Hsuf, !includes_char_app in Hs.
  by apply orb_false_iff in Hs as [_ [? _]%orb_false_iff].
Qed.

(** The items [parseList] reads. *)
Lemma parseList_elem (value x : string) :
  x ∈ parseList value <->
  x <> "" /\ exists seg, seg ∈ Js.split "," value /\ x = trim seg.
Proof.
  unfold parseList. rewrite list_elem_of_In, filter_In, <- list_elem_of_In, list_elem_of_fmap.
  split.
  - intros [(seg & -> & Hseg) Hx]. split; [by destruct (trim seg)|by exists seg].
  - intros [Hx (seg & Hseg & ->)]. split; [by exists seg|by destruct (trim seg)].
Qed.

Lemma parseList_app (a b : string) :
  parseList (a +:+ "," +:+ b) = parseList a ++ parseList b.
Proof.
  unfold parseList. change ("," +:+ b) with (String "," b).
  by rewrite split_app, fmap_app, List.filter_app.
Qed.


Lemma parseList_single (x : string) : cleanItem x -> parseList x = [x].
Proof.
  intros (Hne & Htrim & Hcomma). unfold parseList.
  rewrite (split_absent _ _ Hcomma). cbn. rewrite Htrim. by destruct x.
Qed.

(** Reading what [join] shows. *)
Lemma parseList_join (l : list string) :
  Forall cleanItem l -> parseList (join "," l) = l.
Proof.
  induction 1 as [|x l Hx Hl IH]; [done|].
  destruct l as [|y l].
  - by apply parseList_single.
  - change (join "," (x :: y :: l)) with (x +:+ "," +:+ join "," (y :: l)).
    by rewrite parseList_app, IH, parseList_single.
Qed.

Lemma parseList_clean (value x : string) : x ∈ parseList value -> cleanItem x.
Proof.
  intros (Hne & seg & Hseg & ->)%parseList_elem. split_and!; [done|apply trim_idem|].
  apply trim_keeps_absent.
  pose proof (split_segments "," value) as Hall.
  by rewrite Forall_forall in Hall; apply Hall.
Qed.

(** A token at the head of a folder is cut out. *)
Lemma stripRootTokens_skip (k : nat) (pre rest : string) :
  String.length pre = k -> stripRootTokens k (pre +:+ rest) = stripRootTokens 0 rest.
Proof.
  revert pre. induction k as [|k IH]; intros pre Hlen.
  - by destruct pre.
  - destruct pre as [|c pre]; [done|]. rewrite append_cons.
    destruct rest as [|r rest'] eqn:Hr.
    + rewrite append_nil_r. cbn [stripRootTokens]. injection Hlen as Hlen.
      specialize (IH pre Hlen). by rewrite append_nil_r in IH.
    + cbn [stripRootTokens]. injection Hlen as Hlen. by apply IH.
Qed.

Lemma stripRootTokens_vault (rest : string) :
  stripRootTokens 0 ("{vault}" +:+ rest) = stripRootTokens 0 rest.
Proof.
  change ("{vault}" +:+ rest) with (String "{" ("vault}" +:+ rest)).
  cbn [stripRootTokens]. 
  change (String "{" ("vault}" +:+ rest)) with ("{vault}" +:+ rest).
  assert (String.prefix "{vault}" ("{vault}" +:+ rest) = true) as ->.
  { apply prefix_spec. by exists rest. }
  by apply stripRootTokens_skip.
Qed.

Lemma stripRootTokens_root (rest : string) :
  stripRootTokens 0 ("{root}" +:+ rest) = stripRootTokens 0 rest.
Proof.
  change ("{root}" +:+ rest) with (String "{" ("root}" +:+ rest)).
  cbn [stripRootTokens].
  change (String "{" ("root}" +:+ rest)) with ("{root}" +:+ rest).
  assert (String.prefix "{vault}" ("{root}" +:+ rest) = false) as -> by done.
  assert (String.prefix "{root}" ("{root}" +:+ rest) = true) as ->.
  { apply prefix_spec. by exists rest. }
  by apply stripRootTokens_skip.
Qed.

Lemma includes_prefix (s p : string) :
  String.prefix p s = true -> Js.includes s p = true.
Proof. intros Hp. destruct s; cbn [Js.includes]; by rewrite Hp. Qed.

(** A resolved folder with a leading slash matches paths with a leading
    slash only. *)
Lemma isPathInFolder_leading_slash (p folder : string) :
  hasRootToken folder = true ->
  String.prefix "/" (stripRootTokens 0 folder) = true ->
  stripRootTokens 0 folder <> "/" ->
  Js.startsWith p "/" = false ->
  isPathInFolder p folder = false.
Proof.
  unfold hasRootToken, isPathInFolder, Js.startsWith. intros -> Hpre Hne Hp.
  destruct (stripRootTokens 0 folder) as [|c r] eqn:Hres; [done|].
  apply prefix_spec in Hpre as [r' Hr']. rewrite append_cons, append_nil_l in Hr'.
  injection Hr' as -> ->.
  assert (String.eqb (String "/" r') "/" = false) as ->.
  { apply String.eqb_neq. done. }
  cbn [String.eqb orb].
  apply orb_false_iff. split.
  - destruct (String.prefix (String "/" r' +:+ "/") p) eqn:Hx; [|done].
    apply prefix_spec in Hx as [y ->]. rewrite !append_cons in Hp.
    by rewrite prefix_cons_char in Hp.
  - apply String.eqb_neq. intros ->. by rewrite prefix_cons_char in Hp.
Qed.

(** X2. A folder given as a root token, a slash and a folder name is
    resolved to a path with a leading slash. It matches no path that does
    not start with a slash itself: [{vault}/notes] does not select the
    files under [notes]. *)
Theorem root_token_before_folder_matches_nothing (p rest : string) :
  Js.startsWith p "/" = false ->
  stripRootTokens 0 rest <> "" ->
  stripRootTokens 0 ("{vault}/" +:+ rest) = "/" +:+ stripRootTokens 0 rest /\
  isPathInFolder p ("{vault}/" +:+ rest) = false /\
  isPathInFolder p ("{root}/" +:+ rest) = false.
Proof.
  intros Hp Hrest.
  assert (forall tok, tok = "{vault}" \/ tok = "{root}" ->
            stripRootTokens 0 (tok +:+ "/" +:+ rest) = "/" +:+ stripRootTokens 0 rest) as Hstrip.
  { intros tok [-> | ->].
    - rewrite stripRootTokens_vault. change ("/" +:+ rest) with (String "/" rest).
      destruct rest; done.
    - rewrite stripRootTokens_root. change ("/" +:+ rest) with (String "/" rest).
      destruct rest; done. }
  assert (forall tok, tok = "{vault}" \/ tok = "{root}" ->
            isPathInFolder p (tok +:+ "/" +:+ rest) = false) as Hall.
  { intros tok Htok. apply isPathInFolder_leading_slash; [| | |done].
    - unfold hasRootToken. apply orb_true_iff.
      destruct Htok as [-> | ->]; [left|right]; apply includes_prefix, prefix_spec; by eexists.
    - rewrite (Hstrip tok Htok). apply prefix_spec. by eexists.
    - rewrite (Hstrip tok Htok). change ("/" +:+ ?x) with (String "/" x).
      intros [= Hx]. done. }
  split_and!.
  - apply (Hstrip "{vault}"). by left.
  - apply (Hall "{vault}"). by left.
  - apply (Hall "{root}"). by right.
Qed.

Lemma root_token_before_folder_matches_nothing_witness :
  Js.startsWith "notes/x.md" "/" = false /\
  isPathInFolder "notes/x.md" "{vault}/notes" = false.
Proof.
  split; [reflexivity|].
  refine (proj1 (proj2 (root_token_before_folder_matches_nothing "notes/x.md" "notes" eq_refl _))).
  by vm_compute.
Defined.

(** ** The alias processor, continued *)

Section AliasProcessorMore.
Context `{Host} {T : Type}.
Implicit Types (st : Settings T) (vault : gmap string Note) (l names : list string).

(** Names that are all in the list already add nothing, so the loop of
    the callback is idempotent. *)
Lemma aliasesAfter_present st names l :
  (forall c, c ∈ names -> checkName st c ∈ checkName st <$> l) ->
  aliasesAfter st names l = l.
Proof.
  induction names as [|c names IH]; intros Hall; [done|].
  change (c :: names) with ([c] ++ names).
  rewrite aliasesAfter_app, aliasesAfter_one, decide_True by (apply Hall; left).
  apply IH. intros c' Hc'. apply Hall. by right.
Qed.

Lemma aliasesAfter_idem st names l :
  aliasesAfter st names (aliasesAfter st names l) = aliasesAfter st names l.
Proof.
  destruct (aliasesAfter_spec st names l) as (added & Heq & _ & _ & _ & Hall).
  rewrite Heq. by apply aliasesAfter_present.
Qed.

Lemma updateAliases_idem st names fm :
  updateAliases st names (updateAliases st names fm) = updateAliases st names fm.
Proof.
  destruct fm as [al other]. destruct al as [| v | l].
  - rewrite (updateAliases_not_array st names {| aliases := Missing; otherKeys := other |}) by done.
    destruct (autoCreateFrontmatter st) eqn:Hac.
    + by rewrite updateAliases_array, aliasesAfter_idem.
    + by rewrite updateAliases_not_array, Hac.
  - rewrite (updateAliases_not_array st names {| aliases := NotArray v; otherKeys := other |}) by done.
    destruct (autoCreateFrontmatter st) eqn:Hac.
    + by rewrite updateAliases_array, aliasesAfter_idem.
    + by rewrite updateAliases_not_array, Hac.
  - by rewrite !updateAliases_array, aliasesAfter_idem.
Qed.

(** The callback writes the [aliases] key only. *)
Lemma updateAliases_otherKeys st names fm :
  otherKeys (updateAliases st names fm) = otherKeys fm.
Proof.
  unfold updateAliases. destruct (aliases fm); [| |done];
    by destruct (autoCreateFrontmatter st).
Qed.

(** The loop keeps a list free of duplicates. *)
Lemma aliasesAfter_NoDup st names l :
  NoDup (checkName st <$> l) -> NoDup (checkName st <$> aliasesAfter st names l).
Proof.
  intros Hl. destruct (aliasesAfter_spec st names l) as (added & -> & _ & Hnd & Hnew & _).
  rewrite fmap_app. apply NoDup_app. split_and!; [done| |done].
  intros k Hk (c & -> & Hc)%list_elem_of_fmap. by apply (Hnew c Hc).
Qed.

End AliasProcessorMore.

(** X3. A settlement changes nothing but the alias list of the file at its
    path: the other files are as before, no file appears or vanishes, and
    the basename, the extension and the other keys of the front matter
    stay. With no file at the path, or no surviving candidate, the vault
    is unchanged. *)
Theorem settlement_touches_one_alias_list `{Host} {T} (st : Settings T)
    (vault : gmap string Note) (p : string) (queue : list string) :
  let vault' := processAliases st vault p queue in
  (forall p', p' <> p -> vault' !! p' = vault !! p') /\
  (forall p', is_Some (vault' !! p') <-> is_Some (vault !! p')) /\
  (vault !! p = None -> vault' = vault) /\
  (forall n, vault !! p = Some n ->
     exists fm', vault' !! p = Some {| noteBasename := noteBasename n;
                                       noteExtension := noteExtension n;
                                       frontmatter := fm' |} /\
                 otherKeys fm' = otherKeys (frontmatter n) /\
                 (toAdd st (noteBasename n) queue = [] -> vault' = vault)).
Proof.
  intros vault'. subst vault'. split_and!.
  - intros p' Hp'. by rewrite processAliases_lookup, decide_False.
  - intros p'. rewrite processAliases_lookup. case_decide as Hd; [subst p'|done].
    by rewrite fmap_is_Some.
  - intros Hp. unfold processAliases, getFileByPath. by rewrite Hp.
  - intros n Hn. rewrite processAliases_lookup, decide_True, Hn by done.
    cbn [fmap option_fmap option_map].
    eexists. split; [reflexivity|]. split.
    + destruct (toAdd st (noteBasename n) queue); [done|apply updateAliases_otherKeys].
    + intros Hnone. unfold processAliases, getFileByPath. rewrite Hn.
      cbn [fmap option_fmap option_map basename]. by rewrite Hnone.
Qed.

(** The loop that fills [toAdd] leaves out the current basename. *)
Lemma toAdd_current_name `{Host} {T} (st : Settings T) (cb name : string)
    (queue : list string) :
  checkName st name = checkName st cb -> name ∉ toAdd st cb queue.
Proof.
  intros Hsame. rewrite toAdd_elem. intros [_ Hs]. unfold survives, checkName in *.
  destruct (matchesAny _ name); [done|].
  destruct (caseSensitive st); cbn in Hs.
  - subst name. by rewrite String.eqb_refl in Hs.
  - rewrite Hsame, String.eqb_refl in Hs. done.
Qed.

(** X4. A candidate equal to the current basename of the file, under the
    case rule of the settings, is not added: it is in an alias list after
    the settlement only if it was there before. *)
Theorem current_name_not_added `{Host} {T} (st : Settings T)
    (vault : gmap string Note) (p : string) (queue : list string) (n : Note)
    (name : string) :
  vault !! p = Some n ->
  checkName st name = checkName st (noteBasename n) ->
  (name ∉ toAdd st (noteBasename n) queue) /\
  (forall p', hasAlias (processAliases st vault p queue) p' name -> hasAlias vault p' name).
Proof.
  intros Hn Hsame.
  pose proof (toAdd_current_name st (noteBasename n) name queue Hsame) as Hout.
  split; [done|].
  intros p' [Hold|(-> & n0 & Hn0 & Hin)]%processAliases_hasAlias; [done|].
  rewrite Hn in Hn0. by injection Hn0 as <-.
Qed.

Lemma current_name_not_added_witness :
  checkName (H := exampleHost) (exampleSettings false) "B" =
    checkName (H := exampleHost) (exampleSettings false) "b" /\
  ("B" ∉ toAdd (H := exampleHost) (exampleSettings false) "b" ["B"; "a"]).
Proof.
  split; [reflexivity|].
  refine (proj1 (current_name_not_added (H := exampleHost) (exampleSettings false)
            (exampleVault (AliasArray ["x"])) "b.md" ["B"; "a"]
            {| noteBasename := "b"; noteExtension := "md";
               frontmatter := {| aliases := AliasArray ["x"]; otherKeys := [("title", "B")] |} |}
            "B" _ _));
    reflexivity.
Defined.

(** X5. Settling the same queue at the same path twice is settling it
    once. *)
Theorem settlement_idempotent `{Host} {T} (st : Settings T)
    (vault : gmap string Note) (p : string) (queue : list string) :
  processAliases st (processAliases st vault p queue) p queue =
  processAliases st vault p queue.
Proof.
  apply map_eq. intros p'. rewrite (processAliases_lookup st (processAliases _ _ _ _)).
  case_decide as Hd; [subst p'|done].
  rewrite processAliases_lookup, decide_True by done.
  destruct (vault !! p) as [n|]; [|done].
  cbn [fmap option_fmap option_map noteBasename noteExtension frontmatter]. f_equal.
  destruct (toAdd st (noteBasename n) queue) as [|x xs]; [done|].
  by rewrite updateAliases_idem.
Qed.

(** X6. A settlement keeps the alias lists free of duplicates under the
    case rule of the settings: a list that had none before has none after,
    and a list the settlement creates has none. *)
Theorem settlement_keeps_aliases_distinct `{Host} {T} (st : Settings T)
    (vault : gmap string Note) (p : string) (queue : list string)
    (p' : string) (n' : Note) (l' : list string) :
  (forall n l, vault !! p' = Some n -> aliases (frontmatter n) = AliasArray l ->
               NoDup (checkName st <$> l)) ->
  processAliases st vault p queue !! p' = Some n' ->
  aliases (frontmatter n') = AliasArray l' ->
  NoDup (checkName st <$> l').
Proof.
  intros Hold Hn' Hl'. rewrite processAliases_lookup in Hn'.
  case_decide as Hd; [subst p'|exact (Hold _ _ Hn' Hl')].
  destruct (vault !! p) as [n|] eqn:Hp; [|done]. injection Hn' as <-.
  cbn [frontmatter] in Hl'.
  destruct (toAdd st (noteBasename n) queue) as [|x xs] eqn:Hnames; [exact (Hold _ _ eq_refl Hl')|].
  rewrite <- Hnames in *. clear x xs Hnames.
  destruct (frontmatter n) as [al other] eqn:Hfm. destruct al as [| v | l].
  - rewrite updateAliases_not_array in Hl' by done.
    destruct (autoCreateFrontmatter st); [|done]. injection Hl' as <-.
    apply aliasesAfter_NoDup. constructor.
  - rewrite updateAliases_not_array in Hl' by done.
    destruct (autoCreateFrontmatter st); [|done]. injection Hl' as <-.
    apply aliasesAfter_NoDup. constructor.
  - rewrite updateAliases_array in Hl'. injection Hl' as <-.
    apply aliasesAfter_NoDup. apply (Hold n l eq_refl). by rewrite Hfm.
Qed.

Lemma settlement_keeps_aliases_distinct_witness :
  exists n' l',
    processAliases (H := exampleHost) (exampleSettings false)
      (exampleVault (AliasArray ["x"; "A"])) "b.md" ["a"; "c"] !! "b.md" = Some n' /\
    aliases (frontmatter n') = AliasArray l' /\
    NoDup (checkName (H := exampleHost) (exampleSettings false) <$> l').
Proof.
  eexists _, _. split; [by vm_compute|]. split; [reflexivity|].
  eapply (settlement_keeps_aliases_distinct (H := exampleHost) (exampleSettings false)
            (exampleVault (AliasArray ["x"; "A"])) "b.md" ["a"; "c"] "b.md").
  - intros n l Hn Hl. vm_compute in Hn. injection Hn as <-. injection Hl as <-.
    apply (bool_decide_unpack _). by vm_compute.
  - by vm_compute.
  - reflexivity.
Defined.

Section InvalidPattern.
Context `{Host} {T : Type}.

(** A source that does not compile leaves no trace in the patterns, and
    the settings enter the gates and the settlement through the compiled
    patterns only. *)
Lemma compileRegexes_skip (pre post : list string) (bad : string) :
  newRegExp bad = None ->
  compileRegexes (pre ++ bad :: post) = compileRegexes (pre ++ post).
Proof.
  intros Hbad. unfold compileRegexes. rewrite !omap_app. cbn. by rewrite Hbad.
Qed.

Lemma pushNew_withIgnoreRegexes (st : Settings T) sources names l (ex : gset string) :
  pushNew (withIgnoreRegexes sources st) names l ex = pushNew st names l ex.
Proof.
  revert l ex. induction names as [|c names IH]; intros l ex; [done|].
  cbn [pushNew]. change (checkName (withIgnoreRegexes sources st) c) with (checkName st c).
  by rewrite !IH.
Qed.

Lemma classifyOf_regexes (r : Revision T) (st : Settings T) (sources : list string)
    (f : TFile) (old : string) :
  compileRegexes (ignoreRegexes st) = compileRegexes sources ->
  classifyOf r st f old = classifyOf r (withIgnoreRegexes sources st) f old.
Proof.
  intros Hc. destruct r; cbn [classifyOf].
  - unfold Accumulate.classify.
    change (ignoreRegexes (withIgnoreRegexes sources st)) with sources. by rewrite Hc.
  - unfold StableName.classify.
    change (ignoreRegexes (withIgnoreRegexes sources st)) with sources. by rewrite Hc.
Qed.

Lemma processAliases_regexes (st : Settings T) (sources : list string)
    (vault : gmap string Note) (p : string) (q : list string) :
  compileRegexes (ignoreRegexes st) = compileRegexes sources ->
  processAliases st vault p q = processAliases (withIgnoreRegexes sources st) vault p q.
Proof.
  intros Hc. unfold processAliases. destruct (getFileByPath vault p) as [f|]; [|done].
  assert (toAdd (withIgnoreRegexes sources st) (basename f) q = toAdd st (basename f) q) as ->.
  { unfold toAdd. change (ignoreRegexes (withIgnoreRegexes sources st)) with sources.
    by rewrite Hc. }
  destruct (toAdd st (basename f) q) as [|x xs]; [done|].
  unfold processFrontMatter. apply alter_ext. intros n _. f_equal.
  unfold updateAliases.
  change (autoCreateFrontmatter (withIgnoreRegexes sources st)) with (autoCreateFrontmatter st).
  change (checkName (withIgnoreRegexes sources st)) with (checkName st).
  destruct (aliases (frontmatter n)); by rewrite pushNew_withIgnoreRegexes.
Qed.

End InvalidPattern.

(** X7. An ignore pattern that [new RegExp] refuses is skipped: the names
    ignored, the gates of [handleRename] in both revisions and the
    settlement are as if the pattern were not configured, the other
    patterns staying in force. *)
Theorem invalid_pattern_is_skipped `{Host} {T} (r : Revision T) (st : Settings T)
    (pre post : list string) (bad : string) :
  ignoreRegexes st = pre ++ bad :: post ->
  newRegExp bad = None ->
  let st' := withIgnoreRegexes (pre ++ post) st in
  (forall name, ignored st name <-> ignored st' name) /\
  (forall f oldPath, classifyOf r st f oldPath = classifyOf r st' f oldPath) /\
  (forall vault p queue, processAliases st vault p queue = processAliases st' vault p queue).
Proof.
  intros Hsrc Hbad st'.
  assert (compileRegexes (ignoreRegexes st) = compileRegexes (pre ++ post)) as Hc.
  { rewrite Hsrc. by apply compileRegexes_skip. }
  split_and!.
  - intros name. rewrite <- !matchesAny_ignored. subst st'. cbn [ignoreRegexes withIgnoreRegexes].
    by rewrite Hc.
  - intros f old. by apply classifyOf_regexes.
  - intros vault p q. by apply processAliases_regexes.
Qed.

Lemma invalid_pattern_is_skipped_witness :
  newRegExp (Host := exampleHost) "^_" = None /\
  Accumulate.classify (H := exampleHost) (withIgnoreRegexes ["^_"; "tmp"] (exampleSettings false))
    (mkFile "b.md") "tmp1.md" =
  Accumulate.classify (H := exampleHost) (exampleSettings false) (mkFile "b.md") "tmp1.md".
Proof.
  split; [reflexivity|].
  exact (proj1 (proj2 (invalid_pattern_is_skipped (H := exampleHost) FirstRevision
           (withIgnoreRegexes ["^_"; "tmp"] (exampleSettings false)) [] ["tmp"] "^_"
           eq_refl eq_refl)) (mkFile "b.md") "tmp1.md").
Defined.

(** ** The gates of [handleRename], continued *)

Section GatesMore.
Context `{Host}.

(** No pattern matches either name. *)
Lemma eitherMatches_ignored {T} (st : Settings T) (a b : string) :
  eitherMatches (compileRegexes (ignoreRegexes st)) a b = false <->
  ~ ignored st a /\ ~ ignored st b.
Proof.
  rewrite <- !matchesAny_ignored. split.
  - intros [-> ->]%eitherMatches_false. done.
  - intros [Ha Hb]. apply not_true_is_false in Ha, Hb.
    unfold eitherMatches, matchesAny in *.
    induction (compileRegexes (ignoreRegexes st)) as [|re rest IH]; [done|].
    cbn [existsb] in *. apply orb_false_iff in Ha as [-> Ha], Hb as [-> Hb].
    by apply IH.
Qed.

(** What it takes to reach the map, for both revisions at once. *)
Lemma classifyOf_Some {T} (r : Revision T) (st : Settings T) (f : TFile)
    (oldPath c : string) :
  classifyOf r st f oldPath = Some c ->
  includesString (fileExtensions st) (extension f) = true /\
  c <> "" /\ c = eventCandidate st f oldPath /\
  ((isNameChange st f oldPath = true /\ outOfScope st (path f) = false /\
    eitherMatches (compileRegexes (ignoreRegexes st))
      (getBasename oldPath) (basename f) = false) \/
   (isNameChange st f oldPath = false /\ isFolderChange st f oldPath = true /\
    getImmediateParentName oldPath <> "" /\ getImmediateParentName (path f) <> "" /\
    eitherMatches (compileRegexes (ignoreRegexes st))
      (getImmediateParentName oldPath) (getImmediateParentName (path f)) = false)).
Proof.
  destruct r; cbn [classifyOf].
  - intros (? & ? & ? & [?|(? & ? & ? & ? & ? & ?)])%accumulate_classify_Some; split_and!; auto.
    right. by split_and!.
  - intros (? & ? & ? & [?|(? & ? & ? & ? & ? & ?)])%stableName_classify_Some; split_and!; auto.
    right. by split_and!.
Qed.

Lemma handleRenameOf_dropped {T} (r : Revision T) (s : State T) (f : TFile) (oldPath : string) :
  classifyOf r (settings s) f oldPath = None -> handleRenameOf r s (File f) oldPath = s.
Proof. destruct r; cbn; by intros ->. Qed.

(** Without a name change the parent names decide. *)
Lemma classifyOf_no_change {T} (r : Revision T) (st : Settings T) (f : TFile) (oldPath : string) :
  isNameChange st f oldPath = false ->
  getImmediateParentName oldPath = getImmediateParentName (path f) \/
  getImmediateParentName oldPath = "" \/ getImmediateParentName (path f) = "" ->
  classifyOf r st f oldPath = None.
Proof.
  intros Hn Hpar. destruct (classifyOf r st f oldPath) as [c|] eqn:Hc; [|done].
  apply classifyOf_Some in Hc as (_ & _ & _ & [(Hn' & _)|(_ & Hf & Ho & Hnw & _)]).
  - by rewrite Hn in Hn'.
  - unfold isFolderChange in Hf. rewrite Hn in Hf.
    destruct Hpar as [Heq|[?|?]]; [|done..].
    by rewrite Heq, String.eqb_refl in Hf.
Qed.

End GatesMore.

Section GatesDecide.
Context `{Host}.

Lemma isFolderChange_parents {T} (st : Settings T) (f : TFile) (oldPath : string) :
  isNameChange st f oldPath = false ->
  (isFolderChange st f oldPath = true <->
   getImmediateParentName (path f) <> getImmediateParentName oldPath).
Proof.
  intros Hn. unfold isFolderChange. rewrite Hn, andb_true_r, negb_true_iff, String.eqb_neq.
  split; intros Hne Heq; by apply Hne.
Qed.

Lemma accumulate_classify_iff (st : Settings bool) (f : TFile) (oldPath c : string) :
  Accumulate.classify st f oldPath = Some c <->
  includesString (fileExtensions st) (extension f) = true /\ c <> "" /\
  ((isNameChange st f oldPath = true /\ c = getBasename oldPath /\
    outOfScope st (path f) = false /\
    ~ ignored st (getBasename oldPath) /\ ~ ignored st (basename f)) \/
   (isNameChange st f oldPath = false /\ c = getImmediateParentName oldPath /\
    getImmediateParentName (path f) <> c /\ getImmediateParentName (path f) <> "" /\
    tracksFolder FirstRevision st f = true /\
    ~ ignored st c /\ ~ ignored st (getImmediateParentName (path f)))).
Proof.
  split.
  - intros (Hext & Hne & Hc & Hcase)%accumulate_classify_Some. unfold eventCandidate in Hc.
    split; [done|]. split; [done|].
    destruct Hcase as [(Hn & Hscope & Hm)|(Hn & Hf & Htr & Ho & Hnw & Hm)];
      rewrite Hn in Hc; subst c; apply eitherMatches_ignored in Hm as [Hold Hnew].
    + left. by split_and!.
    + right. apply isFolderChange_parents in Hf; [|done]. by split_and!.
  - intros (Hext & Hne & [(Hn & -> & Hscope & Hold & Hnew)|(Hn & -> & Hdiff & Hnw & Htr & Hold & Hnew)]);
      unfold Accumulate.classify; rewrite Hext, Hn; cbn [negb andb].
    + rewrite Hscope. rewrite (proj2 (eitherMatches_ignored st _ _)) by done.
      by apply truthyCandidate_nonempty.
    + rewrite (proj2 (isFolderChange_parents st f oldPath Hn)) by done. cbn [negb andb].
      cbn [tracksFolder] in Htr. rewrite Htr.
      rewrite (proj2 (String.eqb_neq _ _) Hne), (proj2 (String.eqb_neq _ _) Hnw). cbn [orb].
      rewrite (proj2 (eitherMatches_ignored st _ _)) by done.
      by apply truthyCandidate_nonempty.
Qed.

Lemma stableName_classify_tracks (st : Settings string) (f : TFile) (oldPath c : string) :
  StableName.classify st f oldPath = Some c -> isNameChange st f oldPath = false ->
  tracksFolder SecondRevision st f = true.
Proof.
  intros Hc Hn. unfold StableName.classify in Hc. rewrite Hn in Hc. cbn [tracksFolder].
  destruct (includesString (fileExtensions st) (extension f)); [|done]. cbn [negb andb] in Hc.
  destruct (isFolderChange st f oldPath); [|done]. cbn [negb andb] in Hc.
  destruct (Js.truthy (trackFolderRenames st) && Js.trimNonEmpty (trackFolderRenames st));
    [|done].
  by destruct (StableName.matchesFilename st f).
Qed.

Lemma stableName_classify_iff (st : Settings string) (f : TFile) (oldPath c : string) :
  StableName.classify st f oldPath = Some c <->
  includesString (fileExtensions st) (extension f) = true /\ c <> "" /\
  ((isNameChange st f oldPath = true /\ c = getBasename oldPath /\
    outOfScope st (path f) = false /\
    ~ ignored st (getBasename oldPath) /\ ~ ignored st (basename f)) \/
   (isNameChange st f oldPath = false /\ c = getImmediateParentName oldPath /\
    getImmediateParentName (path f) <> c /\ getImmediateParentName (path f) <> "" /\
    tracksFolder SecondRevision st f = true /\
    ~ ignored st c /\ ~ ignored st (getImmediateParentName (path f)))).
Proof.
  split.
  - intros Hcl. pose proof Hcl as (Hext & Hne & Hc & Hcase)%stableName_classify_Some.
    unfold eventCandidate in Hc. split; [done|]. split; [done|].
    destruct Hcase as [(Hn & Hscope & Hm)|(Hn & Hf & Hmf & Ho & Hnw & Hm)];
      rewrite Hn in Hc; subst c; apply eitherMatches_ignored in Hm as [Hold Hnew].
    + left. by split_and!.
    + right. apply isFolderChange_parents in Hf; [|done].
      pose proof (stableName_classify_tracks _ _ _ _ Hcl Hn). by split_and!.
  - intros (Hext & Hne & [(Hn & -> & Hscope & Hold & Hnew)|(Hn & -> & Hdiff & Hnw & Htr & Hold & Hnew)]);
      unfold StableName.classify; rewrite Hext, Hn; cbn [negb andb].
    + rewrite Hscope. rewrite (proj2 (eitherMatches_ignored st _ _)) by done.
      by apply truthyCandidate_nonempty.
    + rewrite (proj2 (isFolderChange_parents st f oldPath Hn)) by done. cbn [negb andb].
      cbn [tracksFolder] in Htr. apply andb_true_iff in Htr as [-> ->]. cbn [negb].
      rewrite (proj2 (String.eqb_neq _ _) Hne), (proj2 (String.eqb_neq _ _) Hnw). cbn [orb].
      rewrite (proj2 (eitherMatches_ignored st _ _)) by done.
      by apply truthyCandidate_nonempty.
Qed.

End GatesDecide.

(** X8. The gates of [handleRename], in both revisions. A rename is
    queued with the candidate [c] exactly when the extension is tracked,
    [c] is not empty, and one of two cases holds. Either it is a name
    change, [c] is the old basename, the new path is in scope, and no
    compiled ignore pattern matches the old or the new basename. Or it is
    not a name change, [c] is the old parent folder name, the new parent
    folder name differs from it and is not empty, folder changes are
    tracked for the file, and no compiled ignore pattern matches either
    parent folder name. *)
Theorem rename_is_queued_iff `{Host} {T} (r : Revision T) (st : Settings T)
    (f : TFile) (oldPath c : string) :
  classifyOf r st f oldPath = Some c <->
  includesString (fileExtensions st) (extension f) = true /\ c <> "" /\
  ((isNameChange st f oldPath = true /\ c = getBasename oldPath /\
    outOfScope st (path f) = false /\
    ~ ignored st (getBasename oldPath) /\ ~ ignored st (basename f)) \/
   (isNameChange st f oldPath = false /\ c = getImmediateParentName oldPath /\
    getImmediateParentName (path f) <> c /\ getImmediateParentName (path f) <> "" /\
    tracksFolder r st f = true /\
    ~ ignored st c /\ ~ ignored st (getImmediateParentName (path f)))).
Proof.
  destruct r; [apply accumulate_classify_iff|apply stableName_classify_iff].
Qed.

(** X9. Moves the handler does not see, in both revisions. When the
    basename is unchanged, a move from or to the top level of the vault
    queues nothing, and neither does a move between two folders of the same
    name, wherever they lie: the state is left as it is. *)
Theorem undetected_moves `{Host} {T} (r : Revision T) (s : State T) (f : TFile)
    (oldPath : string) :
  isNameChange (settings s) f oldPath = false ->
  (Js.includes oldPath "/" = false \/ Js.includes (path f) "/" = false ->
     classifyOf r (settings s) f oldPath = None /\
     handleRenameOf r s (File f) oldPath = s) /\
  (forall d1 d2 parent n1 n2,
     oldPath = d1 +:+ parent +:+ "/" +:+ n1 ->
     path f = d2 +:+ parent +:+ "/" +:+ n2 ->
     d1 = "" \/ (exists d, d1 = d +:+ "/") ->
     d2 = "" \/ (exists d, d2 = d +:+ "/") ->
     Js.includes parent "/" = false ->
     Js.includes n1 "/" = false -> Js.includes n2 "/" = false ->
     classifyOf r (settings s) f oldPath = None /\
     handleRenameOf r s (File f) oldPath = s).
Proof.
  intros Hn. split.
  - intros Hroot.
    assert (classifyOf r (settings s) f oldPath = None) as Hc.
    { apply classifyOf_no_change; [done|]. right.
      destruct Hroot as [Ho|Hnw]; [left|right]; by apply getImmediateParentName_root. }
    split; [done|by apply handleRenameOf_dropped].
  - intros d1 d2 parent n1 n2 Ho Hnw Hd1 Hd2 Hp Hn1 Hn2.
    assert (classifyOf r (settings s) f oldPath = None) as Hc.
    { apply classifyOf_no_change; [done|]. left.
      rewrite Ho, Hnw. by rewrite !getImmediateParentName_parent. }
    split; [done|by apply handleRenameOf_dropped].
Qed.

Lemma undetected_moves_witness :
  isNameChange (H := exampleHost) (exampleSettings true) (mkFile "b/x/n.md") "a/x/n.md" = false /\
  Accumulate.handleRename (H := exampleHost) (initialState (exampleSettings true) ∅)
    (File (mkFile "b/x/n.md")) "a/x/n.md" = initialState (exampleSettings true) ∅ /\
  Accumulate.handleRename (H := exampleHost) (initialState (exampleSettings true) ∅)
    (File (mkFile "x/n.md")) "n.md" = initialState (exampleSettings true) ∅.
Proof.
  split; [reflexivity|]. split.
  - refine (proj2 (proj2 (undetected_moves (H := exampleHost) FirstRevision
             (initialState (exampleSettings true) ∅) (mkFile "b/x/n.md") "a/x/n.md" eq_refl)
             "a/" "b/" "x" "n.md" "n.md" eq_refl eq_refl _ _ eq_refl eq_refl eq_refl));
      [right; by exists "a" | right; by exists "b"].
  - refine (proj2 (proj1 (undetected_moves (H := exampleHost) FirstRevision
             (initialState (exampleSettings true) ∅) (mkFile "x/n.md") "n.md" eq_refl) _)).
    by left.
Defined.

(** X10. Folder tracking in the second revision. A folder change is queued
    only if the configured file name is not blank and equals the basename
    of the file under the case rule of the settings (the configured name
    is compared as it is, not trimmed); the candidate is the old parent
    folder name. *)
Theorem stableName_folder_tracking_gate `{Host} (st : Settings string) (f : TFile)
    (oldPath c : string) :
  StableName.classify st f oldPath = Some c ->
  isNameChange st f oldPath = false ->
  trim (trackFolderRenames st) <> "" /\
  checkName st (basename f) = checkName st (trackFolderRenames st) /\
  c = getImmediateParentName oldPath.
Proof.
  intros Hc Hn. unfold StableName.classify in Hc. rewrite Hn in Hc.
  destruct (includesString (fileExtensions st) (extension f)); [|done]. cbn [negb andb] in Hc.
  destruct (isFolderChange st f oldPath); [|done]. cbn [negb andb] in Hc.
  destruct (Js.truthy (trackFolderRenames st)) eqn:Htr; [|done].
  destruct (Js.trimNonEmpty (trackFolderRenames st)) eqn:Hne; [|done]. cbn [andb] in Hc.
  destruct (StableName.matchesFilename st f) eqn:Hmf; [|done]. cbn [negb] in Hc.
  destruct (_ || _); [done|]. destruct (eitherMatches _ _ _); [done|].
  apply truthyCandidate_Some in Hc as [-> _]. split_and!; [| |done].
  - rewrite <- truthy_trim in Hne. by destruct (trim (trackFolderRenames st)).
  - unfold StableName.matchesFilename in Hmf. unfold checkName.
    destruct (caseSensitive st); by apply String.eqb_eq in Hmf.
Qed.

Lemma stableName_folder_tracking_gate_witness :
  StableName.classify (H := exampleHost) (exampleSettings "index")
    {| path := "new/Index.md"; basename := "Index"; extension := "md" |} "old/index.md" =
    Some "old" /\
  trim "index" <> "".
Proof.
  split; [reflexivity|].
  exact (proj1 (stableName_folder_tracking_gate (H := exampleHost) (exampleSettings "index")
           {| path := "new/Index.md"; basename := "Index"; extension := "md" |}
           "old/index.md" "old" eq_refl eq_refl)).
Defined.

Section LegacyScope.
Context `{Host}.

(** Without a root token [isPathInFolder] is the plain prefix test of the
    earlier revisions. *)
Lemma isPathInFolder_plain (p folder : string) :
  hasRootToken folder = false -> isPathInFolder p folder = Legacy.inFolder p folder.
Proof. unfold hasRootToken, isPathInFolder, Legacy.inFolder. by intros ->. Qed.

Lemma existsb_inFolder (p : string) (folders : list string) :
  (forall d, d ∈ folders -> hasRootToken d = false) ->
  existsb (fun d => isPathInFolder p d) folders = existsb (fun d => Legacy.inFolder p d) folders.
Proof.
  induction folders as [|d folders IH]; intros Hall; [done|].
  cbn [existsb]. rewrite isPathInFolder_plain by (apply Hall; left).
  rewrite IH; [done|]. intros d' Hd'. apply Hall. by right.
Qed.

Lemma legacy_outOfScope {T} (st : Settings T) (p : string) :
  (forall d, d ∈ includeFolders st ++ excludeFolders st -> hasRootToken d = false) ->
  Legacy.outOfScope st p = outOfScope st p.
Proof.
  intros Hall. unfold Legacy.outOfScope, outOfScope.
  rewrite !existsb_inFolder; [done|..]; intros d Hd; apply Hall, elem_of_app; auto.
Qed.

Lemma legacy_classify_in_scope (st : Settings bool) (f : TFile) (oldPath : string) :
  Legacy.outOfScope st (path f) = outOfScope st (path f) ->
  Legacy.outOfScope st (path f) = false \/ isNameChange st f oldPath = true ->
  Legacy.classify st f oldPath = Accumulate.classify st f oldPath.
Proof.
  intros Heq Hcase. unfold Legacy.classify, Accumulate.classify. rewrite Heq in *.
  destruct Hcase as [->| ->]; [|by rewrite !andb_true_l].
  by rewrite andb_false_r.
Qed.

Lemma legacy_classify_out (st : Settings bool) (f : TFile) (oldPath : string) :
  Legacy.outOfScope st (path f) = true -> Legacy.classify st f oldPath = None.
Proof.
  intros Hout. unfold Legacy.classify. rewrite Hout.
  destruct (negb _); [done|]. by destruct (_ && _).
Qed.

End LegacyScope.

(** X11. The first revision against the earlier ones, for include and
    exclude folders without a root token. The scope checks agree. The
    earlier revisions drop every rename whose new path is out of scope,
    folder changes included. On a rename in scope, and on every name
    change, the handlers agree; and whatever the earlier revisions queue,
    the first revision queues too. *)
Theorem later_revision_extends_legacy `{Host} (s : State bool) (f : TFile)
    (oldPath : string) :
  let st := settings s in
  (forall d, d ∈ includeFolders st ++ excludeFolders st -> hasRootToken d = false) ->
  (forall p, Legacy.outOfScope st p = outOfScope st p) /\
  (Legacy.outOfScope st (path f) = true -> Legacy.handleRename s (File f) oldPath = s) /\
  (Legacy.outOfScope st (path f) = false \/ isNameChange st f oldPath = true ->
     Legacy.classify st f oldPath = Accumulate.classify st f oldPath /\
     Legacy.handleRename s (File f) oldPath = Accumulate.handleRename s (File f) oldPath) /\
  (forall c, Legacy.classify st f oldPath = Some c ->
     Accumulate.classify st f oldPath = Some c).
Proof.
  intros st Hall.
  assert (forall p, Legacy.outOfScope st p = outOfScope st p) as Hscope.
  { intros p. by apply legacy_outOfScope. }
  split_and!; [done| | |].
  - intros Hout. cbn. fold st. by rewrite legacy_classify_out.
  - intros Hcase. assert (Legacy.classify st f oldPath = Accumulate.classify st f oldPath) as Hc.
    { by apply legacy_classify_in_scope. }
    split; [done|]. cbn. fold st. by rewrite Hc.
  - intros c Hc. destruct (Legacy.outOfScope st (path f)) eqn:Hout.
    + by rewrite legacy_classify_out in Hc.
    + rewrite <- Hc. symmetry. apply legacy_classify_in_scope; auto.
Qed.

Lemma later_revision_extends_legacy_witness :
  Legacy.handleRename (H := exampleHost) (initialState (scopedSettings true) ∅)
    (File (mkFile "exc/new/n.md")) "exc/old/n.md" = initialState (scopedSettings true) ∅ /\
  Legacy.handleRename (H := exampleHost) (initialState (scopedSettings true) ∅)
    (File (mkFile "inc/b.md")) "inc/a.md" =
  Accumulate.handleRename (H := exampleHost) (initialState (scopedSettings true) ∅)
    (File (mkFile "inc/b.md")) "inc/a.md".
Proof.
  assert (forall d, d ∈ includeFolders (scopedSettings true) ++ excludeFolders (scopedSettings true) ->
                    hasRootToken d = false) as Hall.
  { intros d Hd. cbn in Hd. apply elem_of_cons in Hd as [->|Hd]; [reflexivity|].
    apply elem_of_cons in Hd as [->|Hd]; [reflexivity|]. by apply elem_of_nil in Hd. }
  split.
  - exact (proj1 (proj2 (later_revision_extends_legacy (H := exampleHost)
             (initialState (scopedSettings true) ∅) (mkFile "exc/new/n.md") "exc/old/n.md" Hall))
             eq_refl).
  - exact (proj2 (proj1 (proj2 (proj2 (later_revision_extends_legacy (H := exampleHost)
             (initialState (scopedSettings true) ∅) (mkFile "inc/b.md") "inc/a.md" Hall)))
             (or_introl eq_refl))).
Defined.

(** X12. Under [DEFAULT_SETTINGS] a rename is queued exactly when the new
    extension is [md], the basenames differ when case is ignored, no
    default pattern that compiles matches the old or the new basename, and
    the old basename is not empty; the candidate is the old basename. So
    folder moves are never queued and no folder is out of scope. The first
    revision agrees with the single-file plugin on these settings. *)
Theorem default_settings_queue_name_changes `{Host} (f : TFile) (oldPath c : string) :
  (Legacy.classify DEFAULT_SETTINGS f oldPath = Some c <->
   extension f = "md" /\
   toLowerCase (getBasename oldPath) <> toLowerCase (basename f) /\
   ~ ignored DEFAULT_SETTINGS (getBasename oldPath) /\
   ~ ignored DEFAULT_SETTINGS (basename f) /\
   getBasename oldPath <> "" /\ c = getBasename oldPath) /\
  Accumulate.classify DEFAULT_SETTINGS f oldPath = Legacy.classify DEFAULT_SETTINGS f oldPath.
Proof.
  split.
  - unfold Legacy.classify, isFolderChange, isNameChange, includesString, Legacy.outOfScope.
    cbn [fileExtensions caseSensitive includeFolders excludeFolders trackFolderRenames
         DEFAULT_SETTINGS existsb length Nat.eqb negb andb orb].
    rewrite orb_false_r.
    destruct (String.eqb (extension f) "md") eqn:Hext; cbn [negb].
    2:{ apply String.eqb_neq in Hext. split; [done|]. by intros (? & _). }
    apply String.eqb_eq in Hext.
    destruct (String.eqb (toLowerCase (getBasename oldPath)) (toLowerCase (basename f))) eqn:Hlow;
      cbn [negb andb].
    { apply String.eqb_eq in Hlow. rewrite andb_false_r.
      split; [by destruct (negb _)|]. by intros (_ & ? & _). }
    apply String.eqb_neq in Hlow.
    destruct (eitherMatches _ _ _) eqn:Hm.
    + split; [done|]. intros (_ & _ & Hold & Hnew & _).
      assert (eitherMatches (compileRegexes (ignoreRegexes DEFAULT_SETTINGS))
                (getBasename oldPath) (basename f) = false) as Hm'
        by by apply eitherMatches_ignored.
      by rewrite Hm in Hm'.
    + assert (~ ignored DEFAULT_SETTINGS (getBasename oldPath) /\
              ~ ignored DEFAULT_SETTINGS (basename f)) as [Hold Hnew].
      { by apply eitherMatches_ignored. }
      split.
      * intros [-> Hne]%truthyCandidate_Some. by split_and!.
      * intros (_ & _ & _ & _ & Hne & ->). by apply truthyCandidate_nonempty.
  - symmetry. apply legacy_classify_in_scope; [done|]. by left.
Qed.

(** ** The setting tab *)

Lemma parseList_nil (value : string) :
  parseList value = [] <-> forall seg, seg ∈ Js.split "," value -> trim seg = "".
Proof.
  split.
  - intros Hnil seg Hseg. destruct (trim seg) as [|c r] eqn:Ht; [done|].
    assert (String c r ∈ parseList value) as Hin.
    { apply parseList_elem. split; [done|]. by exists seg. }
    rewrite Hnil in Hin. by apply elem_of_nil in Hin.
  - intros Hall. destruct (parseList value) as [|x l] eqn:Hp; [done|].
    assert (x ∈ parseList value) as Hin by (rewrite Hp; by left).
    apply parseList_elem in Hin as (Hne & seg & Hseg & ->). by rewrite Hall in Hne.
Qed.

(** X13. The items of a list setting as the setting tab stores them: none
    is empty, none has white space at either end, none holds a comma. They
    are the trimmed comma-separated segments that are not blank, and the
    list is empty exactly when every segment is blank. *)
Theorem parseList_items_clean (value : string) :
  (forall x, x ∈ parseList value ->
     x <> "" /\ trim x = x /\ Js.includes x "," = false) /\
  (forall x, x ∈ parseList value <->
     x <> "" /\ exists seg, seg ∈ Js.split "," value /\ x = trim seg) /\
  (parseList value = [] <-> forall seg, seg ∈ Js.split "," value -> trim seg = "").
Proof.
  split_and!.
  - intros x Hx. by apply (parseList_clean value).
  - intros x. apply parseList_elem.
  - apply parseList_nil.
Qed.

(** X14. Showing a list of clean items and reading the text back gives
    the list; so a list stored by [onChange] is a fixed point of showing
    and reading. *)
Theorem parseList_showList (l : list string) :
  (Forall cleanItem l -> parseList (showList l) = l) /\
  (forall value, parseList (showList (parseList value)) = parseList value).
Proof.
  split; [apply parseList_join|].
  intros value. apply parseList_join, Forall_forall. intros x Hx.
  by apply (parseList_clean value).
Qed.

(** X15. Reading distributes over commas: the list read from [a,b] is the
    list of [a] followed by the list of [b]. An ignore pattern with a comma
    in it is read as two patterns. *)
Theorem parseList_comma (a b : string) :
  parseList (a +:+ "," +:+ b) = parseList a ++ parseList b /\
  parseList "a{1,2}" = ["a{1"; "2}"].
Proof. split; [apply parseList_app|reflexivity]. Qed.

(** X16. A blank [File extensions] field stops the tracking: the stored
    list is empty, and the handler drops every rename, in both
    revisions. *)
Theorem blank_extensions_disable_tracking `{Host} {T} (r : Revision T) (s : State T)
    (value : string) (newFile : TAbstractFile) (oldPath : string) :
  (forall seg, seg ∈ Js.split "," value -> trim seg = "") ->
  let s' := step (handleRenameOf r) s
              (SaveSettings (onChangeFileExtensions value (settings s))) in
  fileExtensions (settings s') = [] /\
  (forall f, classifyOf r (settings s') f oldPath = None) /\
  handleRenameOf r s' newFile oldPath = s'.
Proof.
  intros Hblank%parseList_nil s'.
  assert (fileExtensions (settings s') = []) as Hext by (subst s'; cbn; done).
  assert (forall f, classifyOf r (settings s') f oldPath = None) as Hnone.
  { intros f. destruct r; cbn [classifyOf];
      [unfold Accumulate.classify|unfold StableName.classify]; by rewrite Hext. }
  split_and!; [done|done|].
  destruct newFile as [f|d]; [|by destruct r]. by apply handleRenameOf_dropped.
Qed.

Lemma blank_extensions_disable_tracking_witness :
  let s := initialState (exampleSettings false) ∅ in
  let s' := step (H := exampleHost) (handleRenameOf (H := exampleHost) FirstRevision) s
              (SaveSettings (onChangeFileExtensions " , " (settings s))) in
  parseList " , " = [] /\
  handleRenameOf (H := exampleHost) FirstRevision s' (File (mkFile "b.md")) "a.md" = s'.
Proof.
  split; [reflexivity|].
  refine (proj2 (proj2 (blank_extensions_disable_tracking (H := exampleHost) FirstRevision
            (initialState (exampleSettings false) ∅) " , " (File (mkFile "b.md")) "a.md" _))).
  intros seg Hseg. vm_compute in Hseg.
  apply elem_of_cons in Hseg as [->|Hseg]; [reflexivity|].
  apply elem_of_cons in Hseg as [->|Hseg]; [reflexivity|].
  by apply elem_of_nil in Hseg.
Defined.

Section RootToken.
Context `{Host}.

(** A root token alone selects the files at the top level of the vault. *)
Lemma isPathInFolder_root_token (p tok : string) :
  tok = "{vault}" \/ tok = "{root}" ->
  isPathInFolder p tok = negb (Js.includes p "/").
Proof. by intros [-> | ->]. Qed.

Lemma existsb_elem {A} (P : A -> bool) (l : list A) (x : A) :
  x ∈ l -> P x = true -> existsb P l = true.
Proof.
  intros Hx HP. apply existsb_exists. exists x. split; [|done].
  by apply list_elem_of_In.
Qed.

End RootToken.

(** X17. The root tokens as the setting tab describes them. A token
    alone selects the files at the top level of the vault. For a name
    change, with the token as the only include folder a rename is queued
    only for a file at the top level, and with the token among the exclude
    folders nothing is queued for a file at the top level, in both
    revisions. *)
Theorem root_token_scopes_top_level `{Host} {T} (r : Revision T) (st : Settings T)
    (f : TFile) (oldPath tok : string) :
  tok = "{vault}" \/ tok = "{root}" ->
  isNameChange st f oldPath = true ->
  (forall p, isPathInFolder p tok = negb (Js.includes p "/")) /\
  (includeFolders st = [tok] ->
     forall c, classifyOf r st f oldPath = Some c -> Js.includes (path f) "/" = false) /\
  (tok ∈ excludeFolders st -> Js.includes (path f) "/" = false ->
     classifyOf r st f oldPath = None).
Proof.
  intros Htok Hn. split_and!.
  - intros p. by apply isPathInFolder_root_token.
  - intros Hinc c (_ & _ & _ & [(_ & Hscope & _)|(Hn' & _)])%classifyOf_Some;
      [|by rewrite Hn in Hn'].
    unfold outOfScope in Hscope. rewrite Hinc in Hscope. cbn in Hscope.
    rewrite orb_false_r, isPathInFolder_root_token in Hscope by done.
    apply orb_false_iff in Hscope as [Hscope _]. by apply negb_false_iff, negb_true_iff in Hscope.
  - intros Hexc Hroot. destruct (classifyOf r st f oldPath) as [c|] eqn:Hc; [|done].
    apply classifyOf_Some in Hc as (_ & _ & _ & [(_ & Hscope & _)|(Hn' & _)]);
      [|by rewrite Hn in Hn'].
    unfold outOfScope in Hscope. apply orb_false_iff in Hscope as [_ Hscope].
    rewrite (existsb_elem _ _ tok Hexc) in Hscope; [done|].
    rewrite isPathInFolder_root_token by done. by rewrite Hroot.
Qed.

Lemma root_token_scopes_top_level_witness :
  isNameChange (H := exampleHost) (withFolders ["{vault}"] [] (exampleSettings false))
    (mkFile "b.md") "a.md" = true /\
  Accumulate.classify (H := exampleHost) (withFolders ["{vault}"] [] (exampleSettings false))
    (mkFile "b.md") "a.md" = Some "a" /\
  Js.includes (path (mkFile "b.md")) "/" = false /\
  Accumulate.classify (H := exampleHost) (withFolders [] ["{vault}"] (exampleSettings false))
    (mkFile "b.md") "a.md" = None.
Proof.
  split; [reflexivity|]. split; [reflexivity|]. split.
  - exact (proj1 (proj2 (root_token_scopes_top_level (H := exampleHost) FirstRevision
             (withFolders ["{vault}"] [] (exampleSettings false)) (mkFile "b.md") "a.md"
             "{vault}" (or_introl eq_refl) eq_refl)) eq_refl "a" eq_refl).
  - refine (proj2 (proj2 (root_token_scopes_top_level (H := exampleHost) FirstRevision
             (withFolders [] ["{vault}"] (exampleSettings false)) (mkFile "b.md") "a.md"
             "{vault}" (or_introl eq_refl) eq_refl)) _ eq_refl).
    by left.
Defined.

(** ** Runs of the plugin, continued *)

Section RunsMore.
Context `{Host} {T : Type}.
Implicit Types (s : State T) (e : Entry) (p : string) (a t : nat).

(** The handler calls [processAliases] from the callbacks of the timeouts
    only. *)
Lemma handleRename_settled (r : Revision T) s (newFile : TAbstractFile) (oldPath : string) :
  settled (handleRenameOf r s newFile oldPath) = settled s.
Proof.
  destruct r; (destruct newFile as [f|d]; [|done]); cbn.
  - destruct (Accumulate.classify (settings s) f oldPath); [|done].
    unfold Accumulate.enqueue.
    destruct (debounceMap s !! oldPath) as [a|]; [|done].
    by destruct (heap s !! a).
  - destruct (StableName.classify (settings s) f oldPath); [|done].
    by unfold StableName.enqueue.
Qed.

(** Sizes of maps after one insertion or deletion. *)
Lemma size_insert_le {K A} `{Countable K} (m : gmap K A) (k : K) (x : A) :
  size (<[k := x]> m) <= S (size m).
Proof.
  destruct (m !! k) eqn:Hk.
  - rewrite map_size_insert_Some by done. lia.
  - rewrite map_size_insert_None by done. lia.
Qed.

Lemma size_delete_le {K A} `{Countable K} (m : gmap K A) (k : K) :
  size (delete k m) <= size m.
Proof.
  destruct (m !! k) eqn:Hk.
  - rewrite map_size_delete_Some by done. lia.
  - rewrite map_size_delete_None by done. lia.
Qed.

Lemma size_clearTimeout_le (id : option nat) (ts : gmap nat nat) :
  size (clearTimeout id ts) <= size ts.
Proof. destruct id; [apply size_delete_le|done]. Qed.

(** A rename arms at most one timeout more than it clears. *)
Lemma handleRename_timers_size (r : Revision T) s (newFile : TAbstractFile) (oldPath : string) :
  size (timers (handleRenameOf r s newFile oldPath)) <= S (size (timers s)).
Proof.
  destruct r; (destruct newFile as [f|d]; [|cbn; lia]); cbn.
  - destruct (Accumulate.classify (settings s) f oldPath); [|lia].
    unfold Accumulate.enqueue.
    destruct (debounceMap s !! oldPath) as [a|].
    + destruct (heap s !! a) as [e|]; [|lia]. cbn.
      etrans; [apply size_insert_le|]. pose proof (size_clearTimeout_le (timeoutId e) (timers s)). lia.
    + cbn. apply size_insert_le.
  - destruct (StableName.classify (settings s) f oldPath); [|lia].
    unfold StableName.enqueue. cbn.
    etrans; [apply size_insert_le|].
    destruct (_ ≫= _) as [e|]; [|lia].
    pose proof (size_clearTimeout_le (timeoutId e) (timers s)). lia.
Qed.

Lemma onunload_timers_size s : size (timers (onunload s)) <= size (timers s).
Proof.
  cbn. apply (map_fold_weak_ind (fun (ts : gmap nat nat) (_ : gmap string nat) =>
                size ts <= size (timers s))); [done|].
  intros p a m ts _ IH. destruct (heap s !! a) as [e|]; [|done].
  pose proof (size_clearTimeout_le (timeoutId e) ts). lia.
Qed.

(** Calls and armed timeouts together grow with renames only. *)
Lemma step_budget (r : Revision T) s (ev : Event T) :
  let s' := step (handleRenameOf r) s ev in
  length (settled s') + size (timers s') <=
  length (settled s) + size (timers s) + (if isRename ev then 1 else 0).
Proof.
  intros s'; subst s'.
  destruct ev as [newFile oldPath | t | st | v |]; cbn [step isRename].
  - rewrite handleRename_settled.
    pose proof (handleRename_timers_size r s newFile oldPath). lia.
  - unfold onTimeout. destruct (timers s !! t) as [a|] eqn:Ht; [|lia].
    destruct (heap s !! a) as [e|]; [|lia]. cbn.
    rewrite length_app. cbn. rewrite (size_delete_Some _ _ _ Ht). lia.
  - cbn. lia.
  - cbn. lia.
  - pose proof (onunload_timers_size s). cbn [settled onunload] in *. lia.
Qed.

Lemma run_budget (r : Revision T) (evs : list (Event T)) s :
  let s' := run (handleRenameOf r) s evs in
  length (settled s') + size (timers s') <=
  length (settled s) + size (timers s) + length (List.filter isRename evs).
Proof.
  revert s. induction evs as [|ev evs IH]; intros s; cbn [run fold_left List.filter]; [cbn; lia|].
  specialize (IH (step (handleRenameOf r) s ev)). cbn zeta in IH.
  pose proof (step_budget r s ev) as Hstep. cbn zeta in Hstep.
  unfold run in IH. destruct (isRename ev); cbn [length]; lia.
Qed.

(** With no timeout armed, expiries do nothing. *)
Lemma run_timeouts_unarmed (handle : State T -> TAbstractFile -> string -> State T)
    (ts : list nat) s :
  timers s = ∅ -> run handle s (Timeout <$> ts) = s.
Proof.
  intros Hemp. induction ts as [|t ts IH]; [done|].
  cbn [fmap list_fmap run fold_left step]. rewrite onTimeout_unarmed; [exact IH|].
  by rewrite Hemp, lookup_empty.
Qed.

End RunsMore.

(** Without an expired timeout the vault and the log stay as they are. *)
Lemma run_quiet `{Host} {T} (r : Revision T) (s : State T) (evs : list (Event T)) :
  Forall (fun ev => match ev with
                    | Timeout _ | VaultChange _ => False
                    | _ => True
                    end) evs ->
  vault (run (handleRenameOf r) s evs) = vault s /\
  settled (run (handleRenameOf r) s evs) = settled s.
Proof.
  revert s. induction evs as [|ev evs IH]; intros s Hall; [done|].
  apply Forall_cons in Hall as [Hev Hall]. cbn [run fold_left].
  destruct (IH (step (handleRenameOf r) s ev) Hall) as [Hv Hs].
  unfold run in Hv, Hs. rewrite Hv, Hs.
  destruct ev as [newFile oldPath | t | st | v |]; cbn [step]; try done.
  split; [apply handleRename_vault_settings|apply handleRename_settled].
Qed.

(** X18. The handler writes nothing. Along a run of either revision in
    which no timeout expires and the host does not change the vault, the
    vault is unchanged and [processAliases] is not called. *)
Theorem handler_never_writes `{Host} {T} (r : Revision T) (s : State T)
    (evs : list (Event T)) :
  Forall (fun ev => match ev with
                    | Timeout _ | VaultChange _ => False
                    | _ => True
                    end) evs ->
  vault (run (handleRenameOf r) s evs) = vault s /\
  settled (run (handleRenameOf r) s evs) = settled s.
Proof. apply run_quiet. Qed.

Lemma handler_never_writes_witness :
  let s := initialState (exampleSettings false)
             (exampleVault (AliasArray ["x"])) in
  vault (run (H := exampleHost) (handleRenameOf (H := exampleHost) FirstRevision) s
           [Rename (File (mkFile "b.md")) "a.md"; SaveSettings (noCreateSettings true);
            Rename (File (mkFile "c.md")) "b.md"; Unload]) = vault s.
Proof.
  refine (proj1 (handler_never_writes (H := exampleHost) FirstRevision _ _ _)).
  repeat constructor.
Defined.

(** X19. Settlements never outnumber renames. Along any run of either
    revision the calls of [processAliases] and the armed timeouts together
    grow by at most one per rename event; from the initial state there are
    at most as many calls as rename events. *)
Theorem settlements_bounded_by_renames `{Host} {T} (r : Revision T) (s : State T)
    (evs : list (Event T)) :
  let s' := run (handleRenameOf r) s evs in
  length (settled s') + size (timers s') <=
    length (settled s) + size (timers s) + length (List.filter isRename evs) /\
  (forall st v,
     length (settled (run (handleRenameOf r) (initialState st v) evs)) <=
     length (List.filter isRename evs)).
Proof.
  split; [apply run_budget|].
  intros st v. pose proof (run_budget r evs (initialState st v)) as Hb.
  cbn zeta in Hb. cbn [initialState settled timers length] in Hb.
  rewrite map_size_empty in Hb. lia.
Qed.

(** X20. [onunload] in a consistent state: the map is empty, no timeout
    is left armed, and whichever timeouts expire afterwards, nothing is
    settled and the vault stays as it is. *)
Theorem unload_cancels_pending `{Host} {T} (r : Revision T) (s : State T) (ts : list nat) :
  wf s ->
  let s' := run (handleRenameOf r) s (Unload :: (Timeout <$> ts)) in
  debounceMap s' = ∅ /\ timers s' = ∅ /\ settled s' = settled s /\ vault s' = vault s.
Proof.
  intros Hwf s'. subst s'. cbn [run fold_left step].
  pose proof (onunload_timers s Hwf) as Htm.
  pose proof (run_timeouts_unarmed (handleRenameOf r) ts (onunload s) Htm) as Hrun.
  unfold run in Hrun. rewrite Hrun. by split_and!.
Qed.

Lemma unload_cancels_pending_witness :
  let s := run (H := exampleHost) (handleRenameOf (H := exampleHost) SecondRevision)
             (initialState (exampleSettings "") ∅)
             [Rename (File (mkFile "b.md")) "a.md"] in
  timers s !! 1 = Some 0 /\
  settled (run (H := exampleHost) (handleRenameOf (H := exampleHost) SecondRevision) s
             (Unload :: (Timeout <$> [1]))) = settled s.
Proof.
  split; [reflexivity|].
  refine (proj1 (proj2 (proj2 (unload_cancels_pending (H := exampleHost) SecondRevision _ [1] _)))).
  apply (stableName_run_wf (H := exampleHost)), wf_initialState.
Defined.

Section StableInvariant.
Context `{Host}.

Lemma stableInv_initialState (st : Settings string) (v : gmap string Note) :
  stableInv (initialState st v).
Proof.
  split_and!; [apply wf_initialState|done| |].
  - intros a e Ha. cbn in Ha. by rewrite lookup_empty in Ha.
  - intros call Hc. cbn in Hc. by apply elem_of_nil in Hc.
Qed.

(** The invariant of the second revision is kept by every step. *)
Lemma stableInv_enqueue (s : State string) (oldPath newPath c : string) :
  c <> "" -> stableInv s -> stableInv (StableName.enqueue s oldPath newPath c).
Proof.
  intros Hc (Hwf & Hsize & Hheap & Hlog).
  pose proof (stableName_enqueue_wf s oldPath newPath c Hwf) as Hwf'.
  destruct (stableName_enqueue_shape s oldPath newPath c Hwf)
    as [(k & a0 & e0 & t0 & Hk & _ & Hka & He0 & Ht0 & Heq) | (Hnew & Hold & Heq)];
    rewrite Heq in Hwf' |- *; (split_and!; [done| | |done]).
  - assert (k = newPath \/ debounceMap s !! newPath = None) as Hk'.
    { destruct Hk as [?|[? _]]; auto. }
    destruct (rekey_facts s k a0 e0 t0 newPath (nextEntry s)
                {| queue := [StableName.stableName e0 c];
                   timeoutId := Some (nextTimer s); currentPath := newPath |}
                (S (nextEntry s)) Hwf Hka He0 Ht0 Hk')
      as (_ & _ & _ & _ & _ & _ & _ & Hsm & Hst).
    cbn [timers debounceMap] in *. congruence.
  - intros a e. cbn [heap]. destruct (decide (a = nextEntry s)) as [->|Ha].
    + rewrite lookup_insert_eq. intros [= <-]. cbn [queue].
      destruct (Hheap a0 e0 He0) as (c0 & Hq & Hc0).
      exists c0. unfold StableName.stableName. by rewrite Hq.
    + rewrite lookup_insert_ne by done. apply Hheap.
  - cbn [timers debounceMap].
    rewrite !map_size_insert_None; [by rewrite Hsize|done|by apply wf_fresh_timer].
  - intros a e. cbn [heap]. destruct (decide (a = nextEntry s)) as [->|Ha].
    + rewrite lookup_insert_eq. intros [= <-]. by exists c.
    + rewrite lookup_insert_ne by done. apply Hheap.
Qed.

Lemma stableInv_step (s : State string) (ev : Event string) :
  stableInv s -> stableInv (step StableName.handleRename s ev).
Proof.
  intros Hinv. destruct ev as [newFile oldPath | t | st | v |]; cbn [step].
  - destruct newFile as [f|d]; [|done]. cbn.
    destruct (StableName.classify (settings s) f oldPath) as [c|] eqn:Hc; [|done].
    apply stableInv_enqueue; [|done].
    by apply stableName_classify_Some in Hc as (_ & ? & _).
  - destruct Hinv as (Hwf & Hsize & Hheap & Hlog).
    pose proof (wf_onTimeout s t Hwf) as Hwf'. unfold onTimeout in *.
    destruct (timers s !! t) as [a|] eqn:Ht; [|done].
    destruct (wf_timers s Hwf t a Ht) as (e & He & Htid & Hmap). rewrite He in *.
    split_and!; [done| |done|].
    + cbn [timers debounceMap].
      pose proof (size_delete_Some _ _ _ Ht). pose proof (size_delete_Some_str _ _ _ Hmap). lia.
    + intros call. cbn [settled]. rewrite elem_of_app, list_elem_of_singleton.
      intros [Hold| ->]; [by apply Hlog|]. cbn. by apply (Hheap a e).
  - destruct Hinv as (Hwf & Hsize & Hheap & Hlog). split_and!; try done. by destruct Hwf.
  - destruct Hinv as (Hwf & Hsize & Hheap & Hlog). split_and!; try done. by destruct Hwf.
  - destruct Hinv as (Hwf & Hsize & Hheap & Hlog).
    split_and!; [by apply wf_onunload| |done|done].
    rewrite (onunload_timers s Hwf). done.
Qed.

Lemma stableInv_run (evs : list (Event string)) (s : State string) :
  stableInv s -> stableInv (run StableName.handleRename s evs).
Proof.
  revert s. induction evs as [|ev evs IH]; intros s Hinv; [done|].
  cbn [run fold_left]. apply IH. by apply stableInv_step.
Qed.

End StableInvariant.

(** X21. Every state the second revision reaches from the initial state
    is consistent: the map, the entries and the armed timeouts agree, and
    there are as many armed timeouts as entries in the map. Every entry
    ever made holds exactly one name, which is not empty, and every call
    of [processAliases] had exactly one candidate. *)
Theorem stableName_reachable_consistent `{Host} (st : Settings string)
    (v : gmap string Note) (evs : list (Event string)) :
  let s := run StableName.handleRename (initialState st v) evs in
  wf s /\ size (timers s) = size (debounceMap s) /\
  (forall a e, heap s !! a = Some e -> exists c, queue e = [c] /\ c <> "") /\
  (forall call, call ∈ settled s -> exists c, call.2 = [c] /\ c <> "").
Proof. apply stableInv_run, stableInv_initialState. Qed.

Section Armed.
Context `{Host}.
Implicit Types (s : State bool) (e : Entry) (p : string) (a t : nat).

Lemma armed_initialState (st : Settings bool) (v : gmap string Note) :
  armed (initialState st v).
Proof.
  split; cbn.
  - intros p a Hp. by rewrite lookup_empty in Hp.
  - intros t a Ht. by rewrite lookup_empty in Ht.
  - intros t [a Ht]. by rewrite lookup_empty in Ht.
  - intros a [e He]. by rewrite lookup_empty in He.
Qed.

(** The invariant of the first revision is kept by every step. *)
Lemma armed_enqueue s (oldPath newPath c : string) :
  armed s -> armed (Accumulate.enqueue s oldPath newPath c).
Proof.
  intros [Hm Ht Hnt Hne]. unfold Accumulate.enqueue.
  destruct (debounceMap s !! oldPath) as [a0|] eqn:Hold.
  - destruct (Hm _ _ Hold) as (e0 & t0 & He0 & Hc0 & Ht0 & Htm0 & Hq0).
    rewrite He0, Ht0. cbn [clearTimeout].
    assert (t0 < nextTimer s) as Hlt0 by (apply Hnt; by rewrite Htm0).
    split; cbn.
    + intros p a. destruct (decide (p = newPath)) as [->|Hp].
      * rewrite lookup_insert_eq. intros [= <-]. eexists _, _.
        rewrite !lookup_insert_eq. split_and!; try done. apply setAdd_not_nil.
      * rewrite lookup_insert_ne by done.
        destruct (decide (p = oldPath)) as [->|Hpo]; [by rewrite lookup_delete_eq|].
        rewrite lookup_delete_ne by done. intros Hp1.
        destruct (Hm _ _ Hp1) as (e1 & t1 & He1 & Hc1 & Ht1 & Htm1 & Hq1).
        assert (a <> a0) as Ha by (intros ->; congruence).
        assert (t1 <> t0) as Ht10 by (intros ->; congruence).
        assert (t1 < nextTimer s) as Hlt1 by (apply Hnt; by rewrite Htm1).
        exists e1, t1. rewrite lookup_insert_ne by done.
        rewrite lookup_insert_ne by lia. rewrite lookup_delete_ne by done. done.
    + intros t a. destruct (decide (t = nextTimer s)) as [->|Hneq].
      * rewrite lookup_insert_eq. intros [= <-]. eexists.
        rewrite lookup_insert_eq. split_and!; try done. apply setAdd_not_nil.
      * rewrite lookup_insert_ne by done.
        destruct (decide (t = t0)) as [->|Hneq0]; [by rewrite lookup_delete_eq|].
        rewrite lookup_delete_ne by done. intros Ht1.
        destruct (Ht _ _ Ht1) as (e1 & He1 & Hid1 & Hq1).
        assert (a <> a0) as Ha by (intros ->; congruence).
        exists e1. by rewrite lookup_insert_ne.
    + intros t [a Hta]. destruct (decide (t = nextTimer s)) as [->|Hneq]; [lia|].
      rewrite lookup_insert_ne in Hta by done.
      destruct (decide (t = t0)) as [->|Hneq0]; [lia|].
      rewrite lookup_delete_ne in Hta by done.
      assert (t < nextTimer s) by (apply Hnt; by rewrite Hta). lia.
    + intros a [e He]. destruct (decide (a = a0)) as [->|Ha].
      * apply Hne. by rewrite He0.
      * rewrite lookup_insert_ne in He by done. apply Hne. by rewrite He.
  - assert (heap s !! nextEntry s = None) as Hfresh.
    { destruct (heap s !! nextEntry s) eqn:Hx; [|done].
      assert (nextEntry s < nextEntry s) by (apply Hne; by rewrite Hx). lia. }
    assert (timers s !! nextTimer s = None) as Hfresht.
    { destruct (timers s !! nextTimer s) eqn:Hx; [|done].
      assert (nextTimer s < nextTimer s) by (apply Hnt; by rewrite Hx). lia. }
    split; cbn.
    + intros p a. destruct (decide (p = newPath)) as [->|Hp].
      * rewrite lookup_insert_eq. intros [= <-]. eexists _, _.
        rewrite !lookup_insert_eq. split_and!; try done.
      * rewrite lookup_insert_ne by done. intros Hp1.
        destruct (Hm _ _ Hp1) as (e1 & t1 & He1 & Hc1 & Ht1 & Htm1 & Hq1).
        exists e1, t1. rewrite !lookup_insert_ne by congruence. done.
    + intros t a. destruct (decide (t = nextTimer s)) as [->|Hneq].
      * rewrite lookup_insert_eq. intros [= <-]. eexists.
        rewrite lookup_insert_eq. split_and!; try done.
      * rewrite lookup_insert_ne by done. intros Ht1.
        destruct (Ht _ _ Ht1) as (e1 & He1 & Hid1 & Hq1).
        exists e1. rewrite lookup_insert_ne by congruence. done.
    + intros t [a Hta]. destruct (decide (t = nextTimer s)) as [->|Hneq]; [lia|].
      rewrite lookup_insert_ne in Hta by done.
      assert (t < nextTimer s) by (apply Hnt; by rewrite Hta). lia.
    + intros a [e He]. destruct (decide (a = nextEntry s)) as [->|Ha]; [lia|].
      rewrite lookup_insert_ne in He by done.
      assert (a < nextEntry s) by (apply Hne; by rewrite He). lia.
Qed.

Lemma armed_onTimeout s t : armed s -> armed (onTimeout t s).
Proof.
  intros [Hm Ht Hnt Hne]. unfold onTimeout.
  destruct (timers s !! t) as [a|] eqn:Hta; [|done].
  destruct (Ht _ _ Hta) as (e & He & Hid & Hq). rewrite He.
  split; cbn.
  - intros p a1. destruct (decide (p = currentPath e)) as [->|Hp];
      [by rewrite lookup_delete_eq|].
    rewrite lookup_delete_ne by done. intros Hp1.
    destruct (Hm _ _ Hp1) as (e1 & t1 & He1 & Hc1 & Ht1 & Htm1 & Hq1).
    exists e1, t1. rewrite lookup_delete_ne; [done|]. intros <-. congruence.
  - intros t1 a1. destruct (decide (t1 = t)) as [->|Hneq];
      [by rewrite lookup_delete_eq|].
    rewrite lookup_delete_ne by done. apply Ht.
  - intros t1 [a1 Ht1]. destruct (decide (t1 = t)) as [->|Hneq];
      [by rewrite lookup_delete_eq in Ht1|].
    rewrite lookup_delete_ne in Ht1 by done. apply Hnt. by rewrite Ht1.
  - done.
Qed.

(** [onunload] arms nothing. *)
Lemma onunload_timers_sub {T} (s : State T) t a :
  timers (onunload s) !! t = Some a -> timers s !! t = Some a.
Proof.
  cbn [timers onunload]. revert a.
  apply (map_fold_weak_ind (fun (ts : gmap nat nat) (_ : gmap string nat) =>
           forall a, ts !! t = Some a -> timers s !! t = Some a)); [done|].
  intros p a1 m ts _ IH a. destruct (heap s !! a1) as [e|]; [|apply IH].
  unfold clearTimeout. destruct (timeoutId e) as [t1|]; [|apply IH].
  destruct (decide (t1 = t)) as [->|Hneq]; [by rewrite lookup_delete_eq|].
  rewrite lookup_delete_ne by done. apply IH.
Qed.

Lemma armed_onunload s : armed s -> armed (onunload s).
Proof.
  intros [Hm Ht Hnt Hne]. split.
  - intros p a Hp. cbn in Hp. by rewrite lookup_empty in Hp.
  - intros t a Hta%onunload_timers_sub. apply Ht, Hta.
  - intros t [a Hta%onunload_timers_sub]. apply Hnt. by rewrite Hta.
  - exact Hne.
Qed.

Lemma armed_step s (ev : Event bool) : armed s -> armed (step Accumulate.handleRename s ev).
Proof.
  intros Harm. destruct ev as [newFile oldPath | t | st | v |]; cbn [step].
  - destruct newFile as [f|d]; [|done]. cbn.
    destruct (Accumulate.classify (settings s) f oldPath); [|done].
    by apply armed_enqueue.
  - by apply armed_onTimeout.
  - by destruct Harm.
  - by destruct Harm.
  - by apply armed_onunload.
Qed.

Lemma armed_run (evs : list (Event bool)) s :
  armed s -> armed (run Accumulate.handleRename s evs).
Proof.
  revert s. induction evs as [|ev evs IH]; intros s Harm; [done|].
  cbn [run fold_left]. apply IH. by apply armed_step.
Qed.

End Armed.

(** X22. In every state the first revision reaches from the initial state
    an entry of the map is armed: its timeout is pending, and when it
    expires the entry is settled at the path it is stored under, with its
    queue, and leaves the map. Every armed timeout belongs to an entry
    with a non-empty queue. *)
Theorem accumulate_pending_entries_armed `{Host} (st : Settings bool)
    (v : gmap string Note) (evs : list (Event bool)) :
  let s := run Accumulate.handleRename (initialState st v) evs in
  (forall p a, debounceMap s !! p = Some a ->
     exists e t, heap s !! a = Some e /\ currentPath e = p /\ queue e <> [] /\
                 timeoutId e = Some t /\ timers s !! t = Some a /\
                 settled (onTimeout t s) = settled s ++ [(p, queue e)] /\
                 debounceMap (onTimeout t s) !! p = None) /\
  (forall t a, timers s !! t = Some a ->
     exists e, heap s !! a = Some e /\ timeoutId e = Some t /\ queue e <> []).
Proof.
  intros s. assert (armed s) as [Hm Ht _ _].
  { apply armed_run, armed_initialState. }
  split; [|done]. intros p a Hp.
  destruct (Hm _ _ Hp) as (e & t & He & Hc & Hid & Htm & Hq).
  exists e, t. split_and!; try done.
  - unfold onTimeout. rewrite Htm, He. cbn. by rewrite Hc.
  - unfold onTimeout. rewrite Htm, He. cbn. by rewrite Hc, lookup_delete_eq.
Qed.

Section Leak.
Context `{Host} {T : Type}.
Implicit Types (s : State T) (e : Entry) (p : string) (a t : nat).

(** [onunload] clears the timeouts of the entries in the map and no other. *)
Lemma onunload_keeps_timer s t :
  (forall p a e, debounceMap s !! p = Some a -> heap s !! a = Some e ->
                 timeoutId e <> Some t) ->
  timers (onunload s) !! t = timers s !! t.
Proof.
  cbn [timers onunload].
  apply (map_fold_weak_ind (fun (ts : gmap nat nat) (m : gmap string nat) =>
           (forall p a e, m !! p = Some a -> heap s !! a = Some e -> timeoutId e <> Some t) ->
           ts !! t = timers s !! t)); [done|].
  intros p a m ts Hnone IH Hall.
  assert (ts !! t = timers s !! t) as Hts.
  { apply IH. intros p' a' e' Hp'. apply (Hall p').
    rewrite lookup_insert_ne; [done|]. intros <-. by rewrite Hnone in Hp'. }
  destruct (heap s !! a) as [e|] eqn:He; [|done].
  specialize (Hall p a e (lookup_insert_eq _ _ _) He).
  unfold clearTimeout. destruct (timeoutId e) as [t1|]; [|done].
  rewrite lookup_delete_ne; [done|]. congruence.
Qed.

End Leak.

(** X23. The first revision, when an accepted rename arrives at a path
    that holds the entry of another file and nothing is pending under the
    old path. The new entry replaces the old one in the map, the timeout of
    the old one stays armed, and the state is no longer consistent.
    [onunload] does not clear that timeout: when it expires after the
    unload, the old queue is settled at the path. *)
Theorem accumulate_overwrite_leaks_timer `{Host} (s : State bool) (f : TFile)
    (oldPath c : string) (a0 t0 : nat) (e0 : Entry) :
  wf s ->
  Accumulate.classify (settings s) f oldPath = Some c ->
  debounceMap s !! oldPath = None ->
  debounceMap s !! path f = Some a0 -> heap s !! a0 = Some e0 -> timeoutId e0 = Some t0 ->
  let s1 := Accumulate.handleRename s (File f) oldPath in
  let s2 := onunload s1 in
  debounceMap s1 !! path f = Some (nextEntry s) /\ nextEntry s <> a0 /\
  heap s1 !! a0 = Some e0 /\ timers s1 !! t0 = Some a0 /\
  timers s1 !! nextTimer s = Some (nextEntry s) /\
  ~ wf s1 /\
  debounceMap s2 = ∅ /\ timers s2 !! t0 = Some a0 /\
  settled (onTimeout t0 s2) = settled s ++ [(path f, queue e0)] /\
  vault (onTimeout t0 s2) = processAliases (settings s) (vault s) (path f) (queue e0).
Proof.
  intros Hwf Hc Hold Hnew He0 Ht0 s1 s2.
  destruct (wf_map s Hwf _ _ Hnew) as (e0' & t0' & He0' & Hcur & Ht0' & Htm0 & _).
  rewrite He0 in He0'. injection He0' as <-. rewrite Ht0 in Ht0'. injection Ht0' as <-.
  assert (a0 < nextEntry s) as Ha0 by (apply (wf_nextEntry s Hwf); by rewrite He0).
  assert (t0 < nextTimer s) as Ht0n by (apply (wf_nextTimer s Hwf); by rewrite Htm0).
  assert (s1 = {| settings := settings s; vault := vault s;
                  heap := <[nextEntry s := {| queue := setAdd c [];
                                              timeoutId := Some (nextTimer s);
                                              currentPath := path f |}]> (heap s);
                  debounceMap := <[path f := nextEntry s]> (debounceMap s);
                  timers := <[nextTimer s := nextEntry s]> (timers s);
                  nextTimer := S (nextTimer s); nextEntry := S (nextEntry s);
                  settled := settled s |}) as Hs1.
  { subst s1. cbn. rewrite Hc. unfold Accumulate.enqueue. by rewrite Hold. }
  assert (heap s1 !! a0 = Some e0) as Hh1.
  { rewrite Hs1. cbn. rewrite lookup_insert_ne by lia. done. }
  assert (timers s1 !! t0 = Some a0) as Htm1.
  { rewrite Hs1. cbn. rewrite lookup_insert_ne by lia. done. }
  assert (debounceMap s1 !! path f = Some (nextEntry s)) as Hm1.
  { rewrite Hs1. cbn. by rewrite lookup_insert_eq. }
  assert (timers s2 !! t0 = Some a0) as Htm2.
  { subst s2. rewrite onunload_keeps_timer; [done|].
    intros p a e Hp He Hid. rewrite Hs1 in Hp, He. cbn in Hp, He.
    destruct (decide (p = path f)) as [->|Hpf].
    - rewrite lookup_insert_eq in Hp. injection Hp as <-.
      rewrite lookup_insert_eq in He. injection He as <-. cbn in Hid.
      injection Hid as Hid. lia.
    - rewrite lookup_insert_ne in Hp by done.
      destruct (wf_map s Hwf _ _ Hp) as (e1 & t1 & He1 & Hcur1 & Ht1 & Htm1' & _).
      assert (a < nextEntry s) as Ha by (apply (wf_nextEntry s Hwf); by rewrite He1).
      rewrite lookup_insert_ne in He by lia. rewrite He1 in He. injection He as <-.
      rewrite Ht1 in Hid. injection Hid as ->. rewrite Htm0 in Htm1'. injection Htm1' as <-.
      rewrite He0 in He1. injection He1 as <-. congruence. }
  split_and!; [done|lia|done|done| | |done|done| |].
  - rewrite Hs1. cbn. by rewrite lookup_insert_eq.
  - intros Hwf1. destruct (wf_timers s1 Hwf1 _ _ Htm1) as (e & He & _ & Hmap).
    rewrite Hh1 in He. injection He as <-. rewrite Hcur, Hm1 in Hmap.
    injection Hmap as Hmap. lia.
  - unfold onTimeout. rewrite Htm2. change (heap s2) with (heap s1). rewrite Hh1.
    cbn [settled]. rewrite Hcur. f_equal. subst s2. rewrite Hs1. done.
  - unfold onTimeout. rewrite Htm2. change (heap s2) with (heap s1). rewrite Hh1.
    cbn [vault]. rewrite Hcur. subst s2. rewrite Hs1. done.
Qed.

Lemma accumulate_overwrite_leaks_timer_witness :
  let s := Accumulate.handleRename (H := exampleHost)
             (initialState (exampleSettings false) ∅) (File (mkFile "b.md")) "a.md" in
  let s1 := Accumulate.handleRename (H := exampleHost) s (File (mkFile "b.md")) "c.md" in
  wf s /\
  Accumulate.classify (H := exampleHost) (settings s) (mkFile "b.md") "c.md" = Some "c" /\
  settled (onTimeout (H := exampleHost) 1 (onunload s1)) = [("b.md", ["a"])].
Proof.
  assert (wf (Accumulate.handleRename (H := exampleHost)
                (initialState (exampleSettings false) ∅) (File (mkFile "b.md")) "a.md")) as Hwf.
  { apply (accumulate_handleRename_wf (H := exampleHost)); [apply wf_initialState|].
    intros f [= <-]. by right. }
  split; [exact Hwf|]. split; [reflexivity|].
  exact (proj1 (proj2 (proj2 (proj2 (proj2 (proj2 (proj2 (proj2 (proj2
    (accumulate_overwrite_leaks_timer (H := exampleHost) _ (mkFile "b.md") "c.md" "c" 0 1
       {| queue := ["a"]; timeoutId := Some 1; currentPath := "b.md" |}
       Hwf eq_refl eq_refl eq_refl eq_refl eq_refl)))))))))).
Defined.

Section EmptyName.
Context `{Host} {T : Type}.

(** The gates let no empty candidate through, so no entry ever holds the
    empty name, and a settlement adds names of the queue only. *)
Lemma classifyOf_nonempty (r : Revision T) (st : Settings T) (f : TFile) (oldPath c : string) :
  classifyOf r st f oldPath = Some c -> c <> "".
Proof. by intros (_ & ? & _)%classifyOf_Some. Qed.

Lemma handleRename_heap_nonempty (r : Revision T) (s : State T)
    (newFile : TAbstractFile) (oldPath : string) :
  (forall a e, heap s !! a = Some e -> "" ∉ queue e) ->
  forall a e, heap (handleRenameOf r s newFile oldPath) !! a = Some e -> "" ∉ queue e.
Proof.
  intros Hinv. destruct newFile as [f|d]; [|by destruct r].
  destruct (classifyOf r (settings s) f oldPath) as [c|] eqn:Hc;
    [|by rewrite handleRenameOf_dropped].
  pose proof (classifyOf_nonempty _ _ _ _ _ Hc) as Hne.
  destruct r; cbn [classifyOf] in Hc; cbn; rewrite Hc.
  - unfold Accumulate.enqueue.
    destruct (debounceMap s !! oldPath) as [a0|]; [destruct (heap s !! a0) as [e0|] eqn:He0|];
      [|done|]; cbn [heap]; intros a e.
    + destruct (decide (a = a0)) as [->|Ha].
      * rewrite lookup_insert_eq. intros [= <-]. cbn [queue]. unfold setAdd.
        case_bool_decide; [by apply (Hinv a0 e0)|].
        rewrite elem_of_app, list_elem_of_singleton. intros [Hq|Heq]; [|done].
        by apply (Hinv a0 e0 He0).
      * rewrite lookup_insert_ne by done. apply Hinv.
    + destruct (decide (a = nextEntry s)) as [->|Ha].
      * rewrite lookup_insert_eq. intros [= <-]. cbn [queue].
        change (setAdd c []) with [c]. rewrite list_elem_of_singleton. done.
      * rewrite lookup_insert_ne by done. apply Hinv.
  - unfold StableName.enqueue. cbn [heap]. intros a e.
    destruct (decide (a = nextEntry s)) as [->|Ha].
    + rewrite lookup_insert_eq. intros [= <-]. cbn [queue].
      rewrite list_elem_of_singleton.
      destruct (_ ≫= _) as [e0|] eqn:He0; [|done].
      unfold StableName.stableName. destruct (queue e0) as [|x q] eqn:Hq; [done|].
      intros <-. apply bind_Some in He0 as (a0 & _ & He0).
      apply (Hinv a0 e0 He0). rewrite Hq. by left.
    + rewrite lookup_insert_ne by done. apply Hinv.
Qed.

Lemma onTimeout_heap (t : nat) (s : State T) : heap (onTimeout t s) = heap s.
Proof.
  unfold onTimeout. destruct (timers s !! t) as [a|]; [|done].
  by destruct (heap s !! a).
Qed.

Lemma onTimeout_queued_alias (t : nat) (s : State T) (p name : string) :
  (forall a e, heap s !! a = Some e -> name ∉ queue e) ->
  hasAlias (vault (onTimeout t s)) p name -> hasAlias (vault s) p name.
Proof.
  intros Hinv. unfold onTimeout. destruct (timers s !! t) as [a|]; [|done].
  destruct (heap s !! a) as [e|] eqn:He; [|done]. cbn [vault].
  intros [Hold|(-> & n & Hn & Hin)]%processAliases_hasAlias; [done|].
  apply toAdd_elem in Hin as [Hin _]. by apply Hinv in He.
Qed.

End EmptyName.

(** X24. The empty name is never written. In both revisions, along a run
    from a state whose entries hold no empty name and in which the host
    does not change the vault, the empty string is an alias of a file only
    if it was one before the run. *)
Theorem empty_alias_never_written `{Host} {T} (r : Revision T) (s : State T)
    (evs : list (Event T)) (p : string) :
  (forall a e, heap s !! a = Some e -> "" ∉ queue e) ->
  Forall (fun ev => match ev with
                    | VaultChange _ => False
                    | _ => True
                    end) evs ->
  hasAlias (vault (run (handleRenameOf r) s evs)) p "" -> hasAlias (vault s) p "".
Proof.
  revert s. induction evs as [|ev evs IH]; intros s Hinv Hall; [done|].
  apply Forall_cons in Hall as [Hev Hall]. cbn [run fold_left]. intros Hh.
  destruct ev as [newFile oldPath | t | st | v |]; cbn [step] in Hh.
  - destruct (handleRename_vault_settings r s newFile oldPath) as [Hv _].
    rewrite <- Hv. apply IH; [|done|done]. by apply handleRename_heap_nonempty.
  - apply (onTimeout_queued_alias t s); [done|].
    apply IH; [|done|done]. by rewrite onTimeout_heap.
  - by apply IH in Hh.
  - done.
  - by apply IH in Hh.
Qed.

Lemma empty_alias_never_written_witness :
  let evs := [Rename (File (mkFile "b.md")) ".md"; Rename (File (mkFile "c.md")) "b.md";
              Timeout 1; Timeout 2] in
  getBasename ".md" = "" /\
  (hasAlias (vault (run (H := exampleHost) (handleRenameOf (H := exampleHost) FirstRevision)
                      (initialState (exampleSettings false) (exampleVault (AliasArray ["x"])))
                      evs)) "c.md" "" ->
   hasAlias (exampleVault (AliasArray ["x"])) "c.md" "").
Proof.
  split; [reflexivity|].
  apply (empty_alias_never_written (H := exampleHost) FirstRevision
           (initialState (exampleSettings false) (exampleVault (AliasArray ["x"])))).
  - intros a e Ha. cbn in Ha. by rewrite lookup_empty in Ha.
  - repeat constructor.
Defined.

Section Chain.
Context `{Host} {T : Type}.
Implicit Types (s : State T) (e : Entry) (p : string) (a t : nat).

(** The entry under the new path after an accepted rename. *)
Lemma own_step_queue (r : Revision T) s (f : TFile) (old c : string) :
  wf s -> classifyOf r (settings s) f old = Some c ->
  (path f = old \/ debounceMap s !! path f = None) ->
  let s' := handleRenameOf r s (File f) old in
  exists a' e',
    debounceMap s' !! path f = Some a' /\ heap s' !! a' = Some e' /\
    currentPath e' = path f /\
    queue e' = match debounceMap s !! old ≫= (fun a => heap s !! a) with
               | Some e0 => if overwritesPending r then setAdd c (queue e0)
                            else [StableName.stableName e0 c]
               | None => [c]
               end.
Proof.
  intros Hwf Hc Hfree s'. subst s'.
  destruct r; cbn [classifyOf] in Hc; cbn [handleRenameOf overwritesPending];
    cbn; rewrite Hc.
  - destruct (accumulate_enqueue_shape s old (path f) c Hwf)
      as [(a0 & e0 & t0 & Hold & He0 & Ht0 & ->) | (Hold & ->)]; rewrite Hold; cbn.
    + rewrite He0. eexists _, _. by rewrite !lookup_insert_eq.
    + eexists _, _. by rewrite !lookup_insert_eq.
  - destruct (stableName_enqueue_shape s old (path f) c Hwf)
      as [(k & a0 & e0 & t0 & Hk & _ & Hka & He0 & Ht0 & ->) | (Hnew & Hold & ->)].
    + assert (debounceMap s !! old = Some a0) as Hold.
      { destruct Hk as [->|[_ ->]]; [|done].
        destruct Hfree as [<-|Hnone]; [done|]. by rewrite Hnone in Hka. }
      rewrite Hold. cbn. rewrite He0. eexists _, _. by rewrite !lookup_insert_eq.
    + rewrite Hold. cbn. eexists _, _. by rewrite !lookup_insert_eq.
Qed.

(** Along a chain of accepted renames the entry follows the file, and its
    queue is [queueAfter]. *)
Lemma chain_tracked (r : Revision T) :
  forall (fs : list TFile) (cs : list string) p0 s a0 e0,
    wf s ->
    debounceMap s !! p0 = Some a0 -> heap s !! a0 = Some e0 ->
    (forall p, p ∈ path <$> fs -> p <> p0 -> debounceMap s !! p = None) ->
    chainCandidates r (settings s) p0 fs = Some cs ->
    let s' := run (handleRenameOf r) s (renames p0 fs) in
    exists a e,
      debounceMap s' !! finalPath p0 fs = Some a /\ heap s' !! a = Some e /\
      currentPath e = finalPath p0 fs /\
      queue e = queueAfter r cs (queue e0).
Proof.
  induction fs as [|f fs IH]; intros cs p0 s a0 e0 Hwf Hmap Hheap Hfree Hcs s'; subst s'.
  - injection Hcs as <-. exists a0, e0. cbn.
    destruct (wf_map s Hwf _ _ Hmap) as (e & t & He & Hcur & _ & _ & Hq).
    rewrite Hheap in He. injection He as <-. by split_and!.
  - cbn [chainCandidates] in Hcs.
    destruct (classifyOf r (settings s) f p0) as [c|] eqn:Hc; [|done].
    destruct (chainCandidates r (settings s) (path f) fs) as [cs'|] eqn:Hcs'; [|done].
    injection Hcs as <-.
    assert (path f = p0 \/ debounceMap s !! path f = None) as Hnew.
    { destruct (decide (path f = p0)); [by left|right].
      apply Hfree; [|done]. rewrite fmap_cons. by left. }
    assert (accepts r (settings s) f p0 = true) as Hacc by (unfold accepts; by rewrite Hc).
    destruct (own_step r s f p0 Hwf Hacc Hnew) as (Hwf' & _ & Hothers & _).
    destruct (own_step_queue r s f p0 c Hwf Hc Hnew) as (a' & e' & Hmap' & Hheap' & Hcur' & Hq').
    rewrite Hmap in Hq'. cbn in Hq'. rewrite Hheap in Hq'.
    cbn [renames run fold_left step]. rewrite finalPath_cons.
    destruct (IH cs' (path f) (handleRenameOf r s (File f) p0) a' e' Hwf' Hmap' Hheap')
      as (a & e & Hfa & Hfe & Hfc & Hfq).
    + intros p Hp Hne. apply Hothers; [done|].
      destruct (decide (p = p0)); [by left|right].
      apply Hfree; [|done]. rewrite fmap_cons. by right.
    + by rewrite (proj2 (handleRename_vault_settings r s (File f) p0)).
    + exists a, e. split_and!; try done. by rewrite Hfq, Hq'.
Qed.

(** [queueAfter] in closed form, and [Set.add] on lists. *)
Lemma queueAfter_accumulate (cs q : list string) :
  queueAfter FirstRevision cs q = fold_left (fun q c => setAdd c q) cs q.
Proof. revert q. induction cs as [|c cs IH]; intros q; [done|]. cbn. apply IH. Qed.

Lemma queueAfter_stableName (cs : list string) (c : string) :
  queueAfter SecondRevision cs [c] = [c].
Proof. induction cs as [|c' cs IH]; [done|]. cbn. apply IH. Qed.

Lemma setAdd_elem (c x : string) (q : list string) :
  x ∈ setAdd c q <-> x ∈ q \/ x = c.
Proof.
  unfold setAdd. case_bool_decide as Hc.
  - split; [by left|]. by intros [?| ->].
  - by rewrite elem_of_app, list_elem_of_singleton.
Qed.

Lemma setAdd_NoDup (c : string) (q : list string) : NoDup q -> NoDup (setAdd c q).
Proof.
  intros Hq. unfold setAdd. case_bool_decide as Hc; [done|].
  apply NoDup_app. split_and!; [done| |apply NoDup_singleton].
  intros x Hx ->%list_elem_of_singleton. done.
Qed.

Lemma fold_setAdd_spec (cs q : list string) :
  NoDup q ->
  NoDup (fold_left (fun q c => setAdd c q) cs q) /\
  forall x, x ∈ fold_left (fun q c => setAdd c q) cs q <-> x ∈ q \/ x ∈ cs.
Proof.
  revert q. induction cs as [|c cs IH]; intros q Hq; cbn [fold_left].
  - split; [done|]. intros x. rewrite elem_of_nil. tauto.
  - destruct (IH (setAdd c q) (setAdd_NoDup c q Hq)) as [Hnd Hin]. split; [done|].
    intros x. rewrite Hin, setAdd_elem, elem_of_cons. tauto.
Qed.

End Chain.

(** The entry at the end of a chain that starts with nothing pending. *)
Lemma chain_queue_entry `{Host} {T} (r : Revision T) (s : State T) (p0 : string)
    (f : TFile) (fs : list TFile) (cs : list string) :
  wf s ->
  (forall p, p ∈ p0 :: path f :: (path <$> fs) -> debounceMap s !! p = None) ->
  chainCandidates r (settings s) p0 (f :: fs) = Some cs ->
  let s' := run (handleRenameOf r) s (renames p0 (f :: fs)) in
  exists a e,
    debounceMap s' !! finalPath p0 (f :: fs) = Some a /\ heap s' !! a = Some e /\
    queue e = (if overwritesPending r then fold_left (fun q c => setAdd c q) cs []
               else take 1 cs) /\
    NoDup (queue e) /\
    (forall c, c ∈ queue e -> c ∈ cs) /\
    (overwritesPending r = true -> forall c, c ∈ cs -> c ∈ queue e).
Proof.
  intros Hwf Hfree Hcs s'. subst s'.
  cbn [chainCandidates] in Hcs.
  destruct (classifyOf r (settings s) f p0) as [c|] eqn:Hc; [|done].
  destruct (chainCandidates r (settings s) (path f) fs) as [cs'|] eqn:Hcs'; [|done].
  injection Hcs as <-.
  assert (path f = p0 \/ debounceMap s !! path f = None) as Hnew.
  { right. apply Hfree. right. by left. }
  assert (accepts r (settings s) f p0 = true) as Hacc by (unfold accepts; by rewrite Hc).
  destruct (own_step r s f p0 Hwf Hacc Hnew) as (Hwf' & _ & Hothers & _).
  destruct (own_step_queue r s f p0 c Hwf Hc Hnew) as (a' & e' & Hmap' & Hheap' & Hcur' & Hq').
  rewrite (Hfree p0) in Hq' by by left. cbn in Hq'.
  cbn [renames run fold_left step]. rewrite finalPath_cons.
  destruct (chain_tracked r fs cs' (path f) (handleRenameOf r s (File f) p0) a' e'
              Hwf' Hmap' Hheap') as (a & e & Hfa & Hfe & _ & Hfq).
  { intros p Hp Hne. apply Hothers; [done|]. right. apply Hfree. by do 2 right. }
  { by rewrite (proj2 (handleRename_vault_settings r s (File f) p0)). }
  exists a, e. split; [done|]. split; [done|]. rewrite Hfq, Hq'. clear.
  destruct r; cbn [overwritesPending].
  - rewrite queueAfter_accumulate.
    change (fold_left (fun q c0 => setAdd c0 q) (c :: cs') [])
      with (fold_left (fun q c0 => setAdd c0 q) cs' [c]).
    destruct (fold_setAdd_spec cs' [c]) as [Hnd Hin]; [apply NoDup_singleton|].
    split_and!; [done|done| |].
    + intros x. rewrite Hin, list_elem_of_singleton, elem_of_cons. tauto.
    + intros _ x. rewrite Hin, list_elem_of_singleton, elem_of_cons. tauto.
  - rewrite queueAfter_stableName. cbn. split_and!; [done|apply NoDup_singleton| |done].
    intros x ->%list_elem_of_singleton. by left.
Qed.


(** X25. The queue at the end of a chain of accepted renames of one file,
    with no entry pending under its paths at the start. In the first
    revision it holds every candidate of the chain, once, in the order of
    first arrival; in the second it holds the candidate of the first
    rename and nothing else. *)
Theorem chain_queue `{Host} {T} (r : Revision T) (s : State T) (p0 : string)
    (f : TFile) (fs : list TFile) (cs : list string) :
  wf s ->
  (forall p, p ∈ p0 :: path f :: (path <$> fs) -> debounceMap s !! p = None) ->
  chainCandidates r (settings s) p0 (f :: fs) = Some cs ->
  let s' := run (handleRenameOf r) s (renames p0 (f :: fs)) in
  exists a e,
    debounceMap s' !! finalPath p0 (f :: fs) = Some a /\ heap s' !! a = Some e /\
    queue e = (if overwritesPending r then fold_left (fun q c => setAdd c q) cs []
               else take 1 cs) /\
    NoDup (queue e) /\
    (forall c, c ∈ queue e -> c ∈ cs) /\
    (overwritesPending r = true -> forall c, c ∈ cs -> c ∈ queue e).
Proof. apply chain_queue_entry. Qed.

Lemma chain_queue_witness :
  let s := initialState (exampleSettings false) ∅ in
  let s' := run (H := exampleHost) (handleRenameOf (H := exampleHost) FirstRevision) s
              (renames "a.md" [mkFile "b.md"; mkFile "c.md"; mkFile "a.md"]) in
  chainCandidates (H := exampleHost) FirstRevision (settings s) "a.md"
    [mkFile "b.md"; mkFile "c.md"; mkFile "a.md"] = Some ["a"; "b"; "c"] /\
  exists a e,
    debounceMap s' !! "a.md" = Some a /\ heap s' !! a = Some e /\
    queue e = ["a"; "b"; "c"].
Proof.
  split; [reflexivity|].
  destruct (chain_queue (H := exampleHost) FirstRevision (initialState (exampleSettings false) ∅)
              "a.md" (mkFile "b.md") [mkFile "c.md"; mkFile "a.md"] ["a"; "b"; "c"])
    as (a & e & Hmap & Hheap & Hq & _).
  - apply wf_initialState.
  - intros p _. apply lookup_empty.
  - reflexivity.
  - exists a, e. split; [exact Hmap|]. split; [exact Hheap|]. exact Hq.
Defined.

(** X26. A rename the handler drops leaves the entry of the file where
    it is, in both revisions. When the file has left the path of its
    pending entry by such a rename, the timeout of the entry settles at the
    old path, where the vault has no file: nothing is written, the entry
    leaves the map, and the queued names are lost. *)
Theorem dropped_rename_loses_pending_alias `{Host} {T} (r : Revision T) (s : State T)
    (f : TFile) (p : string) (a t : nat) (e : Entry) :
  wf s ->
  debounceMap s !! p = Some a -> heap s !! a = Some e -> timeoutId e = Some t ->
  classifyOf r (settings s) f p = None ->
  vault s !! p = None ->
  let s' := onTimeout t (handleRenameOf r s (File f) p) in
  handleRenameOf r s (File f) p = s /\
  settled s' = settled s ++ [(p, queue e)] /\
  vault s' = vault s /\
  debounceMap s' !! p = None /\ timers s' !! t = None.
Proof.
  intros Hwf Hmap Hheap Htid Hdrop Hgone s'. subst s'.
  rewrite (handleRenameOf_dropped r s f p Hdrop).
  destruct (wf_map s Hwf _ _ Hmap) as (e' & t' & He' & Hcur & Ht' & Htm & _).
  rewrite Hheap in He'. injection He' as <-. rewrite Htid in Ht'. injection Ht' as <-.
  unfold onTimeout. rewrite Htm, Hheap, Hcur. cbn.
  split_and!; [done|done| |by rewrite lookup_delete_eq|by rewrite lookup_delete_eq].
  unfold processAliases, getFileByPath. by rewrite Hgone.
Qed.

Lemma dropped_rename_loses_pending_alias_witness :
  let s := StableName.handleRename (H := exampleHost)
             (initialState (exampleSettings "") ∅) (File (mkFile "b.md")) "a.md" in
  let moved := {| path := "b.txt"; basename := "b"; extension := "txt" |} in
  debounceMap s !! "b.md" = Some 0 /\
  StableName.classify (H := exampleHost) (settings s) moved "b.md" = None /\
  settled (onTimeout (H := exampleHost) 1
             (StableName.handleRename (H := exampleHost) s (File moved) "b.md")) =
    [("b.md", ["a"])] /\
  vault (onTimeout (H := exampleHost) 1
           (StableName.handleRename (H := exampleHost) s (File moved) "b.md")) = ∅.
Proof.
  split; [reflexivity|]. split; [reflexivity|].
  assert (wf (StableName.handleRename (H := exampleHost)
                (initialState (exampleSettings "") ∅) (File (mkFile "b.md")) "a.md")) as Hwf.
  { apply (stableName_step_wf (H := exampleHost) _ (Rename (File (mkFile "b.md")) "a.md")),
      wf_initialState. }
  destruct (dropped_rename_loses_pending_alias (H := exampleHost) SecondRevision _
              {| path := "b.txt"; basename := "b"; extension := "txt" |} "b.md" 0 1
              {| queue := ["a"]; timeoutId := Some 1; currentPath := "b.md" |}
              Hwf eq_refl eq_refl eq_refl eq_refl eq_refl) as (_ & Hs & Hv & _).
  split; [exact Hs|exact Hv].
Defined.

Section RoundTrip.
Context `{Host} {T : Type}.

(** A chain of renames leaves the settings, the vault and the log alone. *)
Lemma run_renames_frame (r : Revision T) (fs : list TFile) (p0 : string) (s : State T) :
  let s' := run (handleRenameOf r) s (renames p0 fs) in
  settings s' = settings s /\ vault s' = vault s /\ settled s' = settled s.
Proof.
  revert p0 s. induction fs as [|f fs IH]; intros p0 s; [done|].
  cbn [renames run fold_left step].
  destruct (IH (path f) (handleRenameOf r s (File f) p0)) as (Hst & Hv & Hlog).
  unfold run in Hst, Hv, Hlog. rewrite Hst, Hv, Hlog.
  destruct (handleRename_vault_settings r s (File f) p0) as [-> ->].
  by rewrite handleRename_settled.
Qed.

End RoundTrip.

(** X27. A round trip of names in the second revision. After a chain of
    accepted renames, with nothing pending at the start, that ends at a
    file whose basename is the first candidate of the chain under the case
    rule of the settings, the settlement of the chain is called with that
    candidate alone and writes nothing. *)
Theorem stableName_round_trip_writes_nothing `{Host} (s : State string) (p0 : string)
    (f : TFile) (fs : list TFile) (c : string) (cs : list string) (n : Note) :
  wf s ->
  (forall p, p ∈ p0 :: path f :: (path <$> fs) -> debounceMap s !! p = None) ->
  chainCandidates SecondRevision (settings s) p0 (f :: fs) = Some (c :: cs) ->
  vault s !! finalPath p0 (f :: fs) = Some n ->
  checkName (settings s) c = checkName (settings s) (noteBasename n) ->
  let s' := run StableName.handleRename s (renames p0 (f :: fs)) in
  exists a e t,
    debounceMap s' !! finalPath p0 (f :: fs) = Some a /\ heap s' !! a = Some e /\
    timeoutId e = Some t /\ queue e = [c] /\
    settled (onTimeout t s') = settled s ++ [(finalPath p0 (f :: fs), [c])] /\
    vault (onTimeout t s') = vault s.
Proof.
  intros Hwf Hfree Hcs Hn Hsame s'.
  destruct (chain_queue_entry SecondRevision s p0 f fs (c :: cs) Hwf Hfree Hcs)
    as (a & e & Hmap & Hheap & Hq & _).
  destruct (run_renames_frame SecondRevision (f :: fs) p0 s) as (Hst & Hv & Hlog).
  cbn [handleRenameOf overwritesPending take] in Hmap, Hheap, Hq, Hst, Hv, Hlog.
  fold s' in Hmap, Hheap, Hst, Hv, Hlog.
  assert (wf s') as Hwf' by by apply stableName_run_wf.
  destruct (wf_map s' Hwf' _ _ Hmap) as (e' & t & He' & Hcur & Htid & Htm & _).
  rewrite Hheap in He'. injection He' as <-.
  change (c :: take 0 cs) with [c] in Hq. clearbody s'.
  exists a, e, t. split_and!; try done.
  - unfold onTimeout. rewrite Htm, Hheap. cbn [settled]. by rewrite Hlog, Hcur, Hq.
  - unfold onTimeout. rewrite Htm, Hheap. cbn [vault]. rewrite Hst, Hv, Hcur, Hq.
    unfold processAliases, getFileByPath. rewrite Hn.
    cbn [fmap option_fmap option_map basename].
    destruct (toAdd (settings s) (noteBasename n) [c]) as [|x l] eqn:Hadd; [done|].
    assert (x ∈ toAdd (settings s) (noteBasename n) [c]) as Hx by (rewrite Hadd; by left).
    pose proof Hx as [Hin _]%toAdd_elem. apply list_elem_of_singleton in Hin as ->.
    by apply toAdd_current_name in Hx.
Qed.

Lemma stableName_round_trip_writes_nothing_witness :
  let s := initialState (exampleSettings "")
             {[ "a.md" := {| noteBasename := "a"; noteExtension := "md";
                             frontmatter := {| aliases := AliasArray ["x"]; otherKeys := [] |} |} ]} in
  let s' := run (H := exampleHost) (StableName.handleRename (H := exampleHost)) s
              (renames "a.md" [mkFile "b.md"; mkFile "a.md"]) in
  chainCandidates (H := exampleHost) SecondRevision (settings s) "a.md"
    [mkFile "b.md"; mkFile "a.md"] = Some ["a"; "b"] /\
  exists a e t,
    debounceMap s' !! "a.md" = Some a /\ heap s' !! a = Some e /\
    timeoutId e = Some t /\ queue e = ["a"] /\
    vault (onTimeout (H := exampleHost) t s') = vault s.
Proof.
  split; [reflexivity|].
  destruct (stableName_round_trip_writes_nothing (H := exampleHost)
              (initialState (exampleSettings "")
                 {[ "a.md" := {| noteBasename := "a"; noteExtension := "md";
                                 frontmatter := {| aliases := AliasArray ["x"];
                                                   otherKeys := [] |} |} ]})
              "a.md" (mkFile "b.md") [mkFile "a.md"] "a" ["b"]
              {| noteBasename := "a"; noteExtension := "md";
                 frontmatter := {| aliases := AliasArray ["x"]; otherKeys := [] |} |})
    as (a & e & t & Hmap & Hheap & Htid & Hq & _ & Hv).
  - apply wf_initialState.
  - intros p _. apply lookup_empty.
  - reflexivity.
  - reflexivity.
  - reflexivity.
  - exists a, e, t. split_and!; assumption.
Defined.
